(** * OperationQueue: a sequential queue of asynchronous operations

    Shallow embedding of [src/OperationQueue.ts] and [src/types.ts].

    The program is a single-threaded JavaScript class whose methods run
    synchronously up to their first [await].  Every synchronous block of
    the source is one transition of the model below; the places where
    [runNext] is suspended on an [await] are recorded as frames, and the
    environment (callers, timers, the job queue) chooses which transition
    happens next.  An [await] of a semaphore does not consult the
    semaphore at once: it schedules a job that calls [then] of the
    semaphore, and that job is a transition of its own. *)

From stdpp Require Import base tactics option list gmap fin_maps functions strings.

Set Default Proof Using "Type".

(** ** Data model *)

(** Queues are JavaScript objects; a [QueueId] is the identity of one. *)
Definition QueueId := nat.

(** [enum DependencyMode] of [types.ts]. *)
Inductive DependencyMode := WaitAll | WaitCurrent | Interleave.

Global Instance DependencyMode_eq_dec : EqDecision DependencyMode.
Proof. solve_decision. Defined.

(** [type Operation = () => any | Promise<any>].  An operation is
    described by what calling it does: it raises synchronously, returns a
    plain value, or returns a promise that later fulfils or rejects. *)
Inductive Operation :=
| Throws (e : string)
| Returns (v : string)
| Fulfils (v : string)
| Rejects (e : string).

(** [type OperationEntry = [Operation, resolve, reject]]: the two
    callbacks are those of the promise created by [enqueue]; [resolver]
    is the identity of that promise. *)
Record OperationEntry := mkEntry {
  operation : Operation;
  resolver : nat
}.

(** The two gates of a queue. *)
Inductive Gate := Current | All.

Global Instance Gate_eq_dec : EqDecision Gate.
Proof. solve_decision. Defined.

(** A gate of some queue, as the target of a wait. *)
Definition Wait : Type := QueueId * Gate.

(** How far an [await] of a semaphore has got: the job that calls [then]
    of the semaphore is still to run, or it has run and found the gate
    closed, so that the waiter is registered with the semaphore. *)
Inductive Stage := Scheduled | Registered.

Global Instance Stage_eq_dec : EqDecision Stage.
Proof. solve_decision. Defined.

(** Modelled from the spec: the [Semaphore] class of the [semaphore]
    package, which is imported by the source but defined elsewhere.  A
    gate is either signalled (open: waiters pass through immediately) or
    reset (closed: waiters block until it is signalled).  [then] on a
    signalled gate lets the waiter through, on a reset gate it registers
    the waiter; [signal] opens the gate and releases every waiter
    registered with it at that moment; [reset] closes it. *)
Record Semaphore := mkSemaphore { isSignalled : bool }.

Definition Semaphore_signal (s : Semaphore) : Semaphore := mkSemaphore true.
Definition Semaphore_reset (s : Semaphore) : Semaphore := mkSemaphore false.

(** The fields of [class OperationQueue]. *)
Record Queue := mkQueue {
  dependencies : gmap QueueId DependencyMode;
  operations : list OperationEntry;
  _suspended : bool;
  currentSemaphore : Semaphore;
  allSemaphore : Semaphore
}.

(** [new OperationQueue()]. *)
Definition new_OperationQueue : Queue := {|
  dependencies := ∅;
  operations := [];
  _suspended := true;
  currentSemaphore := mkSemaphore true;
  allSemaphore := mkSemaphore true
|}.

(** Where an invocation of [runNext] is suspended. *)
Inductive Phase :=
| AwaitingDependencies (pending : list (Wait * Stage))
    (* line 94: [await Promise.all(...)], with the waits not yet resolved *)
| AwaitingRun
    (* line 109: the operation was called and its outcome is awaited *)
| Delivered.
    (* the outcome went to [resolve]/[reject]; lines 103-104 run next *)

(** A suspended invocation of [runNext], with the entry it dequeued. *)
Record Frame := mkFrame {
  entry : OperationEntry;
  phase : Phase
}.

(** What the outside world observes. *)
Inductive Observation :=
| Invoked (q : QueueId) (p : nat)      (* [operation()] of entry [p] was called *)
| Resolved (p : nat) (v : string)      (* [resolve(v)] of promise [p] *)
| Rejected (p : nat) (e : string).     (* [reject(e)] of promise [p] *)

Global Instance Observation_eq_dec : EqDecision Observation.
Proof. solve_decision. Defined.

Record State := mkState {
  queues : QueueId → Queue;          (* the heap of queue objects *)
  frames : QueueId → list Frame;     (* suspended [runNext] invocations, per [this] *)
  nextPromise : nat;                 (* promises created by [enqueue] so far *)
  trace : list Observation           (* observations, oldest first *)
}.

(** Every queue is as its constructor leaves it. *)
Definition initial : State := {|
  queues := λ _, new_OperationQueue;
  frames := λ _, [];
  nextPromise := 0;
  trace := []
|}.

(** ** State updates *)

Definition set_queue (this : QueueId) (q : Queue) (st : State) : State :=
  mkState (<[this := q]> (queues st)) (frames st) (nextPromise st) (trace st).

Definition set_frames (this : QueueId) (fs : list Frame) (st : State) : State :=
  mkState (queues st) (<[this := fs]> (frames st)) (nextPromise st) (trace st).

Definition observe (o : Observation) (st : State) : State :=
  mkState (queues st) (frames st) (nextPromise st) (trace st ++ [o]).

Definition set_dependencies (d : gmap QueueId DependencyMode) (q : Queue) : Queue :=
  mkQueue d (operations q) (_suspended q) (currentSemaphore q) (allSemaphore q).

Definition set_operations (ops : list OperationEntry) (q : Queue) : Queue :=
  mkQueue (dependencies q) ops (_suspended q) (currentSemaphore q) (allSemaphore q).

Definition set_suspended (b : bool) (q : Queue) : Queue :=
  mkQueue (dependencies q) (operations q) b (currentSemaphore q) (allSemaphore q).

Definition semaphore (g : Gate) (q : Queue) : Semaphore :=
  match g with Current => currentSemaphore q | All => allSemaphore q end.

Definition set_semaphore (g : Gate) (s : Semaphore) (q : Queue) : Queue :=
  match g with
  | Current => mkQueue (dependencies q) (operations q) (_suspended q) s (allSemaphore q)
  | All => mkQueue (dependencies q) (operations q) (_suspended q) (currentSemaphore q) s
  end.

(** ** Semaphores and their waiters *)

(** Whether gate [w] is signalled. *)
Definition is_open (w : Wait) (st : State) : bool :=
  isSignalled (semaphore w.2 (queues st w.1)).

(** A frame registered with gate [w] no longer waits on it. *)
Definition release (w : Wait) (f : Frame) : Frame :=
  match phase f with
  | AwaitingDependencies pending =>
      mkFrame (entry f) (AwaitingDependencies (filter (λ x, x ≠ (w, Registered)) pending))
  | _ => f
  end.

(** [then] of gate [w] is called for a wait of frame [f]: the wait is
    resolved when the gate is open and registered when it is closed. *)
Definition reach (w : Wait) (open : bool) (f : Frame) : Frame :=
  match phase f with
  | AwaitingDependencies pending =>
      mkFrame (entry f)
        (AwaitingDependencies
           (if open then filter (λ x, x ≠ (w, Scheduled)) pending
            else (λ x, if decide (x = (w, Scheduled)) then (w, Registered) else x)
                   <$> pending))
  | _ => f
  end.

(** [this.<g>Semaphore.signal()]: the gate opens and every wait
    registered with it is resolved, in whichever queue's [runNext] it
    was made. *)
Definition signal (this : QueueId) (g : Gate) (st : State) : State :=
  let q := queues st this in
  mkState (<[this := set_semaphore g (Semaphore_signal (semaphore g q)) q]> (queues st))
          (λ d, release (this, g) <$> frames st d)
          (nextPromise st) (trace st).

(** [this.<g>Semaphore.reset()]. *)
Definition reset (this : QueueId) (g : Gate) (st : State) : State :=
  let q := queues st this in
  set_queue this (set_semaphore g (Semaphore_reset (semaphore g q)) q) st.

(** [await <semaphore>], lines 96 and 116: the semaphore is not a
    promise, so the [await] schedules the job that calls its [then]; the
    gate is consulted when that job runs ([subscribe] below). *)
Definition await_semaphore (w : Wait) : Wait * Stage := (w, Scheduled).

(** ** The methods of [OperationQueue] *)

(** [addDependency(queue, mode)], lines 20-25. *)
Definition addDependency (this queue : QueueId) (mode : DependencyMode) (st : State) : State :=
  let st := set_queue this
    (set_dependencies (<[queue := mode]> (dependencies (queues st this))) (queues st this)) st in
  if decide (mode = Interleave) then
    set_queue queue
      (set_dependencies (<[this := mode]> (dependencies (queues st queue))) (queues st queue)) st
  else st.

(** [suspend()], lines 65-68. *)
Definition suspend (this : QueueId) (st : State) : State :=
  if _suspended (queues st this) then st
  else set_queue this (set_suspended true (queues st this)) st.

(** [current()], lines 112-117: returns at once when the current gate is
    signalled at the call, and awaits the semaphore otherwise. *)
Definition current (this : QueueId) (st : State) : option (Wait * Stage) :=
  if isSignalled (currentSemaphore (queues st this)) then None
  else Some (await_semaphore (this, Current)).

(** [all()], lines 119-123: returns the semaphore itself, whatever its
    state; the caller awaits it. *)
Definition all (this : QueueId) : Wait := (this, All).

(** The body of the [map] callback at lines 94-100, up to its [await]:
    [await dependency.all()] awaits the semaphore that [all()] returns;
    [await dependency.current()] awaits the promise of [current()],
    which has nothing left to wait for when [current()] returned at
    once. *)
Definition dependency_wait (st : State) (d : QueueId * DependencyMode)
    : option (Wait * Stage) :=
  let '(dependency, mode) := d in
  if decide (mode = WaitAll) then Some (await_semaphore (all dependency))
  else current dependency st.

(** [runNext()], lines 77-105, up to the [await] of line 94.  The rest of
    the method runs in the transitions [Subscribe], [DependenciesDone],
    [Settle] and [Continue] below. *)
Definition runNext (this : QueueId) (st : State) : State :=
  match operations (queues st this) with
  | [] => suspend this (signal this All st)
  | entry :: rest =>
      let st := set_queue this (set_operations rest (queues st this)) st in
      let st := reset this Current st in
      let st := reset this All st in
      let dependencies := map_to_list (dependencies (queues st this)) in
      let waits := omap (dependency_wait st) dependencies in
      set_frames this (frames st this ++ [mkFrame entry (AwaitingDependencies waits)]) st
  end.

(** [resume()], lines 58-63. *)
Definition resume (this : QueueId) (st : State) : State :=
  if negb (_suspended (queues st this)) then st
  else runNext this (set_queue this (set_suspended false (queues st this)) st).

(** [push(operation, resolve, reject)], lines 44-47. *)
Definition push (this : QueueId) (e : OperationEntry) (st : State) : State :=
  let q := queues st this in
  resume this (set_queue this (set_operations (operations q ++ [e]) q) st).

(** [enqueue(operation)], lines 33-37: creates the promise and pushes the
    entry from inside its executor. *)
Definition enqueue (this : QueueId) (op : Operation) (st : State) : State :=
  let p := nextPromise st in
  push this (mkEntry op p)
       (mkState (queues st) (frames st) (S p) (trace st)).

(** [clear()], lines 39-42. *)
Definition clear (this : QueueId) (st : State) : State :=
  suspend this (set_queue this (set_operations [] (queues st this)) st).

(** ** Resuming a suspended [runNext] *)

Definition holds (p : nat) (f : Frame) : Prop := resolver (entry f) = p.

Global Instance holds_dec p f : Decision (holds p f).
Proof. unfold holds. apply _. Defined.

(** The frame of queue [this] that holds entry [p]. *)
Definition frame_of (this : QueueId) (p : nat) (st : State) : option Frame :=
  head (filter (holds p) (frames st this)).

Definition drop_frame (this : QueueId) (p : nat) (st : State) : State :=
  set_frames this (filter (λ f, ¬ holds p f) (frames st this)) st.

Definition set_phase (this : QueueId) (p : nat) (ph : Phase) (st : State) : State :=
  set_frames this
    ((λ f, if decide (holds p f) then mkFrame (entry f) ph else f) <$> frames st this) st.

(** The job scheduled by [await <semaphore>] (lines 96, 116) for wait [w]
    of the entry [p] that [this] has dequeued: [then] of the semaphore is
    called, and finds the gate as it is by then. *)
Definition subscribe (this : QueueId) (p : nat) (w : Wait) (st : State) : option State :=
  match frame_of this p st with
  | Some (mkFrame e (AwaitingDependencies pending)) =>
      if decide ((w, Scheduled) ∈ pending) then
        Some (set_frames this
                ((λ f, if decide (holds p f) then reach w (is_open w st) f else f)
                   <$> frames st this) st)
      else None
  | _ => None
  end.

(** Line 102 and [run], lines 107-110: every dependency wait of line 94
    is resolved, so [run(entry)] calls [operation()].  When the call
    raises, [Promise.resolve(...)] and [.then(resolve, reject)] are never
    reached: [run] rejects, the [await] of line 102 raises inside
    [runNext], and this invocation of [runNext] ends there.  Otherwise
    the outcome of the operation is awaited. *)
Definition dependenciesDone (this : QueueId) (p : nat) (st : State) : option State :=
  match frame_of this p st with
  | Some (mkFrame e (AwaitingDependencies [])) =>
      let st := observe (Invoked this p) st in
      match operation e with
      | Throws _ => Some (drop_frame this p st)
      | _ => Some (set_phase this p AwaitingRun st)
      end
  | _ => None
  end.

(** What [Promise.resolve(operation()).then(resolve, reject)] hands to
    the callbacks of entry [e] once [operation()] has returned: a plain
    value or the value of a fulfilled promise goes to [resolve], the
    reason of a rejected promise goes to [reject]. *)
Definition delivery (e : OperationEntry) : option Observation :=
  match operation e with
  | Returns v | Fulfils v => Some (Resolved (resolver e) v)
  | Rejects err => Some (Rejected (resolver e) err)
  | Throws _ => None
  end.

(** Line 109: [Promise.resolve(operation()).then(resolve, reject)]
    settles and hands the outcome to the entry's callbacks. *)
Definition settle (this : QueueId) (p : nat) (st : State) : option State :=
  match frame_of this p st with
  | Some (mkFrame e AwaitingRun) =>
      o ← delivery e; Some (set_phase this p Delivered (observe o st))
  | _ => None
  end.

(** Lines 103-104: [this.currentSemaphore.signal(); this.runNext()]. *)
Definition continue (this : QueueId) (p : nat) (st : State) : option State :=
  match frame_of this p st with
  | Some (mkFrame e Delivered) =>
      Some (runNext this (signal this Current (drop_frame this p st)))
  | _ => None
  end.

(** ** Transitions *)

Inductive Event :=
| AddDependency (this queue : QueueId) (mode : DependencyMode)
| Enqueue (this : QueueId) (op : Operation)
| Clear (this : QueueId)
| Suspend (this : QueueId)
| Resume (this : QueueId)
| Subscribe (this : QueueId) (p : nat) (w : Wait)
| DependenciesDone (this : QueueId) (p : nat)
| Settle (this : QueueId) (p : nat)
| Continue (this : QueueId) (p : nat).

Definition step (ev : Event) (st : State) : option State :=
  match ev with
  | AddDependency this queue mode => Some (addDependency this queue mode st)
  | Enqueue this op => Some (enqueue this op st)
  | Clear this => Some (clear this st)
  | Suspend this => Some (suspend this st)
  | Resume this => Some (resume this st)
  | Subscribe this p w => subscribe this p w st
  | DependenciesDone this p => dependenciesDone this p st
  | Settle this p => settle this p st
  | Continue this p => continue this p st
  end.

Fixpoint run (evs : list Event) (st : State) : option State :=
  match evs with
  | [] => Some st
  | ev :: evs => st' ← step ev st; run evs st'
  end.

Definition reachable (st : State) : Prop := ∃ evs, run evs initial = Some st.

(** ** Derived notions *)

Global Instance Phase_eq_dec : EqDecision Phase.
Proof. solve_decision. Defined.

(** The entries of [this] whose operation is running. *)
Definition in_flight (this : QueueId) (st : State) : list Frame :=
  filter (λ f, phase f = AwaitingRun) (frames st this).

(** The promise an observation is about. *)
Definition subject (o : Observation) : nat :=
  match o with Invoked _ p | Resolved p _ | Rejected p _ => p end.

(** The entries still in the pending list of [q], and those held by its
    suspended [runNext] invocations. *)
Definition pending_ids (q : QueueId) (st : State) : list nat :=
  resolver <$> operations (queues st q).

Definition frame_ids (q : QueueId) (st : State) : list nat :=
  (λ f, resolver (entry f)) <$> frames st q.

Definition owned (q : QueueId) (st : State) : list nat :=
  pending_ids q st ++ frame_ids q st.

(** [st'] differs from [st] only by entries leaving the pending lists or
    the frames, or moving from the former to the latter. *)
Definition quiet (st st' : State) : Prop :=
  nextPromise st' = nextPromise st ∧ trace st' = trace st ∧
  ∀ q, pending_ids q st' `sublist_of` pending_ids q st ∧ owned q st' ⊆+ owned q st.


(** The promise created by an event, for the queue it is enqueued on. *)
Definition fresh_of (ev : Event) (st : State) (q : QueueId) : list nat :=
  match ev with
  | Enqueue x _ => if decide (q = x) then [nextPromise st] else []
  | _ => []
  end.

(** Promise identities are handed out once: every entry sits in one
    pending list or one frame, and nothing was observed yet about an
    entry that is still pending. *)
Definition well_formed (st : State) : Prop :=
  (∀ q p, p ∈ owned q st → p < nextPromise st) ∧
  (∀ q, NoDup (owned q st)) ∧
  (∀ q q' p, q ≠ q' → p ∈ owned q st → p ∉ owned q' st) ∧
  (∀ o, o ∈ trace st → subject o < nextPromise st) ∧
  (∀ q p o, p ∈ pending_ids q st → o ∈ trace st → subject o ≠ p).

(** Promise [p] was created, and its entry is in no pending list and in
    no frame. *)
Definition gone (p : nat) (st : State) : Prop :=
  p < nextPromise st ∧ ∀ q, p ∉ owned q st.

(** An operation that raises when it is called. *)
Definition throws (op : Operation) : Prop :=
  match op with Throws _ => True | _ => False end.

Global Instance throws_dec op : Decision (throws op).
Proof. destruct op; simpl; apply _. Defined.

(** An operation that was called and is awaited did not raise. *)
Definition called_ok (st : State) : Prop :=
  ∀ q f, f ∈ frames st q → phase f = AwaitingRun ∨ phase f = Delivered →
         ¬ throws (operation (entry f)).

(** Every frame of [st'] that was called comes from such a frame of [st]. *)
Definition calm (st st' : State) : Prop :=
  ∀ q f', f' ∈ frames st' q → phase f' = AwaitingRun ∨ phase f' = Delivered →
    ∃ f, f ∈ frames st q ∧ entry f = entry f' ∧
         (phase f = AwaitingRun ∨ phase f = Delivered).

(** The gate a dependency of the given mode is awaited on, lines 95-99. *)
Definition gate_of (mode : DependencyMode) : Gate :=
  match mode with WaitAll => All | _ => Current end.

(** The suspended [runNext] of [q] that holds entry [e] still waits on
    [w], at stage [s] or at whichever stage. *)
Definition waiting_at (q : QueueId) (e : OperationEntry) (w : Wait) (s : Stage)
    (st : State) : Prop :=
  ∃ ws, mkFrame e (AwaitingDependencies ws) ∈ frames st q ∧ (w, s) ∈ ws.

Definition waiting (q : QueueId) (e : OperationEntry) (w : Wait) (st : State) : Prop :=
  ∃ s, waiting_at q e w s st.

(** The transitions in which gate [w] may be signalled: [runNext]
    resuming at line 103 signals the current gate and, at line 83, the
    all gate; [resume()] reaches line 83 as well. *)
Definition signals (ev : Event) (w : Wait) : Prop :=
  match ev with
  | Continue x _ => w.1 = x
  | Resume x => w = (x, All)
  | _ => False
  end.

(** The transitions in which a wait on [w] finds the gate open when
    [then] is called. *)
Definition passes (ev : Event) (w : Wait) (st : State) : Prop :=
  match ev with
  | Subscribe _ _ w' => w' = w ∧ is_open w st = true
  | _ => False
  end.

(** What a transition adds to the trace. *)
Definition observed (ev : Event) (st : State) : list Observation :=
  match ev with
  | DependenciesDone q p => [Invoked q p]
  | Settle q p =>
      match frame_of q p st with
      | Some f => option_list (delivery (entry f))
      | None => []
      end
  | _ => []
  end.

(** ** Two queues that wait on each other's current gate *)

(** The two ways the spec gives to couple a pair. *)
Definition mutual_WaitCurrent (a b : QueueId) : State :=
  addDependency b a WaitCurrent (addDependency a b WaitCurrent initial).

Definition interleaved (a b : QueueId) : State :=
  addDependency a b Interleave initial.

(** ** The progress of one queue *)



(** A frame that is past its dependency wait: its operation may be
    called, runs, or has just finished. *)
Definition past_wait (f : Frame) : Prop :=
  match phase f with AwaitingDependencies (_ :: _) => False | _ => True end.

Global Instance past_wait_dec f : Decision (past_wait f).
Proof. unfold past_wait. destruct (phase f) as [[|]| |]; apply _. Defined.


(** The internal transitions of queue [x]. *)
Definition acts_on (x : QueueId) (ev : Event) : Prop :=
  match ev with
  | Subscribe q _ _ | DependenciesDone q _ | Settle q _ | Continue q _ => q = x
  | _ => False
  end.

(** ** Scenarios *)

(** [q.enqueue(A); q.suspend(); q.enqueue(B)], after which both
    suspended [runNext] invocations go on to call their operation. *)
Definition suspend_between_enqueues : list Event :=
  [Enqueue 0 (Fulfils "A"); Suspend 0; Enqueue 0 (Fulfils "B");
   DependenciesDone 0 0; DependenciesDone 0 1].

(** The same with [q.clear()] in place of [q.suspend()]. *)
Definition clear_between_enqueues : list Event :=
  [Enqueue 0 (Fulfils "A"); Clear 0; Enqueue 0 (Fulfils "B");
   DependenciesDone 0 0; DependenciesDone 0 1].

(** [q.enqueue(A); q.enqueue(B)], then [q.suspend()] while [A] runs;
    [A] finishes and [runNext] resumes. *)
Definition suspend_while_running : list Event :=
  [Enqueue 0 (Fulfils "A"); Enqueue 0 (Fulfils "B"); DependenciesDone 0 0;
   Suspend 0; Settle 0 0; Continue 0 0; DependenciesDone 0 1].

(** [q.enqueue(A)], then [q.suspend(); q.resume()] while [A] runs. *)
Definition resume_while_running : list Event :=
  [Enqueue 0 (Fulfils "A"); DependenciesDone 0 0; Suspend 0; Resume 0].

(** An operation that raises when it is called, with a second operation
    enqueued behind it. *)
Definition raising_operation : list Event :=
  [Enqueue 0 (Throws "boom"); Enqueue 0 (Returns "next"); DependenciesDone 0 0].

(** The same queue when the first operation returns instead. *)
Definition returning_operation : list Event :=
  [Enqueue 0 (Returns "fine"); Enqueue 0 (Returns "next"); DependenciesDone 0 0;
   Settle 0 0; Continue 0 0; DependenciesDone 0 1].

(** The state a scenario ends in; [initial] when a transition of the
    scenario is not enabled. *)
Definition after (evs : list Event) : State := default initial (run evs initial).

(** The state reached from [st] by [evs]; [st] itself when a transition
    is not enabled. *)
Definition after_from (st : State) (evs : list Event) : State :=
  default st (run evs st).

(** Three entries are enqueued and the operation of the first one runs. *)
Definition running_with_pending : list Event :=
  [Enqueue 0 (Fulfils "A"); Enqueue 0 (Rejects "B"); Enqueue 0 (Returns "C");
   DependenciesDone 0 0].

(** What follows a [clear()] in that state: a new entry is enqueued, the
    running operation finishes, and the new entry is called. *)
Definition life_after_clear : list Event :=
  [Enqueue 0 (Returns "D"); Settle 0 0; Continue 0 0; DependenciesDone 0 3].


(** [q.enqueue(A); q.clear()]: [A] is dequeued by the [runNext] that
    [enqueue] starts and has not been called when [clear()] runs. *)
Definition enqueue_then_clear : list Event :=
  [Enqueue 0 (Fulfils "A"); Clear 0].

(** What the suspended [runNext] does afterwards. *)
Definition dequeued_entry_runs : list Event :=
  [DependenciesDone 0 0; Settle 0 0].

(** Queues 0 and 1 wait for each other's current operation (the
    scenario starts from [mutual_WaitCurrent 0 1] or [interleaved 0 1]).  [x] and
    [x2] are enqueued on queue 0; when [x] has finished and its outcome
    was delivered, and before [runNext] of queue 0 resumes, [y] is
    enqueued on queue 1: it finds the current gate of queue 0 closed and
    awaits the semaphore.  [runNext] of queue 0 then signals the gate,
    dequeues [x2] and closes the gate again; [x2] finds the current gate
    of queue 1 closed.  Only then do the two jobs run that call [then]
    of the semaphores. *)
Definition missed_signal : list Event :=
  [Enqueue 0 (Fulfils "x"); Enqueue 0 (Fulfils "x2");
   DependenciesDone 0 0; Settle 0 0;
   Enqueue 1 (Fulfils "y");
   Continue 0 0;
   Subscribe 1 2 (0, Current); Subscribe 0 1 (1, Current)].

(** The two [addDependency] calls of [mutual_WaitCurrent 0 1]. *)
Definition coupling : list Event :=
  [AddDependency 0 1 WaitCurrent; AddDependency 1 0 WaitCurrent].
(** ** Runs that use only [addDependency] and [enqueue] *)

(** [get isRunning], lines 54-56. *)
Definition isRunning (this : QueueId) (st : State) : bool :=
  negb (_suspended (queues st this)).

(** The events other than calls of [clear], [suspend] and [resume]. *)
Definition plain (ev : Event) : Prop :=
  match ev with
  | Clear _ | Suspend _ | Resume _ => False
  | _ => True
  end.

Global Instance plain_dec ev : Decision (plain ev).
Proof. destruct ev; simpl; apply _. Defined.

(** What such runs keep true of every queue: at most one invocation of
    [runNext] is suspended, both gates are open exactly when the queue
    is marked suspended, and a suspended queue holds no entry. *)
Definition orderly (st : State) : Prop :=
  ∀ q,
    length (frames st q) ≤ 1 ∧
    isSignalled (currentSemaphore (queues st q)) = _suspended (queues st q) ∧
    isSignalled (allSemaphore (queues st q)) = _suspended (queues st q) ∧
    (_suspended (queues st q) = true →
       frames st q = [] ∧ operations (queues st q) = []).

(** The entries of [q] whose operation was called, in the order of the
    calls. *)
Definition invoked_ids (q : QueueId) (tr : list Observation) : list nat :=
  omap (λ o, match o with
             | Invoked q' p => if decide (q' = q) then Some p else None
             | _ => None
             end) tr.

(** A frame whose operation has not been called yet. *)
Definition is_waiting (f : Frame) : Prop :=
  match phase f with AwaitingDependencies _ => True | _ => False end.

Global Instance is_waiting_dec f : Decision (is_waiting f).
Proof. unfold is_waiting. destruct (phase f); apply _. Defined.

Definition waiting_ids (q : QueueId) (st : State) : list nat :=
  (λ f, resolver (entry f)) <$> filter is_waiting (frames st q).

(** The entries of [q] in the order in which their operations were or
    will be called: those called, the one dequeued, those pending. *)
Definition schedule (q : QueueId) (st : State) : list nat :=
  invoked_ids q (trace st) ++ waiting_ids q st ++ pending_ids q st.

(** Later positions hold larger numbers. *)
Definition ascending (l : list nat) : Prop :=
  ∀ i j p p', i < j → l !! i = Some p → l !! j = Some p' → p < p'.

(** ** The life of an entry *)

(** How far the invocation of [runNext] that holds an entry has got:
    it awaits the dependencies, awaits the operation, or has delivered
    the outcome. *)
Definition stage (f : Frame) : nat :=
  match phase f with
  | AwaitingDependencies _ => 0
  | AwaitingRun => 1
  | Delivered => 2
  end.

(** What event [ev] does to frame [f] of queue [q], which becomes [f']. *)
Definition advance (ev : Event) (q : QueueId) (f f' : Frame) : Prop :=
  match ev with
  | DependenciesDone x p =>
      if decide (x = q ∧ holds p f) then stage f' = 1 else stage f' = stage f
  | Settle x p =>
      if decide (x = q ∧ holds p f) then stage f' = 2 else stage f' = stage f
  | Continue x p => ¬ (x = q ∧ holds p f) ∧ stage f' = stage f
  | _ => stage f' = stage f
  end.

(** The promises whose operation was called, and those that were
    settled, in the order of the trace. *)
Definition calls (tr : list Observation) : list nat :=
  omap (λ o, match o with Invoked _ p => Some p | _ => None end) tr.

Definition settlements (tr : list Observation) : list nat :=
  omap (λ o, match o with Resolved p _ | Rejected p _ => Some p | _ => None end) tr.

(** The [enqueue] calls of a run, in order: the n-th one creates
    promise n. *)
Definition enqueued (evs : list Event) : list (QueueId * Operation) :=
  omap (λ ev, match ev with Enqueue q op => Some (q, op) | _ => None end) evs.

(** Nothing was observed about an entry whose operation was not called
    yet, and an operation that is awaited was called and not settled. *)
Definition staged (st : State) : Prop :=
  ∀ q f, f ∈ frames st q →
    (stage f = 0 → (resolver (entry f) ∉ calls (trace st)) ∧
                   (resolver (entry f) ∉ settlements (trace st))) ∧
    (stage f = 1 → (resolver (entry f) ∈ calls (trace st)) ∧
                   (resolver (entry f) ∉ settlements (trace st))).

(** Every entry of queue [q] was created by an [enqueue] call on [q]
    with the operation it holds. *)
Definition registered (evs : list Event) (st : State) : Prop :=
  nextPromise st = length (enqueued evs) ∧
  (∀ q e, e ∈ operations (queues st q) →
          enqueued evs !! resolver e = Some (q, operation e)) ∧
  (∀ q f, f ∈ frames st q →
          enqueued evs !! resolver (entry f) = Some (q, operation (entry f))).

(** Observation [o] is what the operation [op], enqueued on [q], leads to. *)
Definition explains (q : QueueId) (op : Operation) (o : Observation) : Prop :=
  match o with
  | Invoked q' _ => q' = q
  | Resolved _ v => op = Returns v ∨ op = Fulfils v
  | Rejected _ err => op = Rejects err
  end.

(** An observation that settles a promise. *)
Definition is_outcome (o : Observation) : Prop :=
  match o with Invoked _ _ => False | _ => True end.

(** The gates a frame has not seen its wait resolved for yet. *)
Definition pending_waits (f : Frame) : list Wait :=
  match phase f with AwaitingDependencies ws => ws.*1 | _ => [] end.


(** ** A queue of its own *)



(** ** More scenarios *)

(** Queue 0 waits for the current operation of queue 1; three entries
    are enqueued and run, the second entry of queue 0 after the
    operation of queue 1 has finished. *)
Definition traffic : list Event :=
  [AddDependency 0 1 WaitCurrent;
   Enqueue 0 (Fulfils "a"); Enqueue 1 (Returns "x"); Enqueue 0 (Rejects "b");
   DependenciesDone 0 0; DependenciesDone 1 1; Settle 0 0; Continue 0 0;
   Subscribe 0 2 (1, Current);
   Settle 1 1; Continue 1 1; DependenciesDone 0 2].

(** Two entries are enqueued on a queue of its own; the first one runs. *)
Definition two_entries : list Event :=
  [Enqueue 0 (Fulfils "a"); Enqueue 0 (Rejects "b"); DependenciesDone 0 0].

(** A dependency is registered; the queue is then used and cleared, and
    the dependency is registered again with another mode. *)
Definition registered_once : State := addDependency 0 1 WaitAll initial.

Definition used_and_cleared : list Event :=
  [Enqueue 0 (Fulfils "a"); Clear 0; AddDependency 0 1 Interleave].

(** Queues 0 and 1 wait for all of each other, and an entry is enqueued
    on each in the same synchronous block: when the jobs run that call
    [then] of the two all gates, both gates are closed. *)
Definition mutual_WaitAll : list Event :=
  [AddDependency 0 1 WaitAll; AddDependency 1 0 WaitAll;
   Enqueue 0 (Fulfils "a1"); Enqueue 1 (Fulfils "b1");
   Subscribe 0 0 (1, All); Subscribe 1 1 (0, All)].

Definition more_work : list Event :=
  [Enqueue 0 (Fulfils "a3"); Enqueue 1 (Fulfils "b2")].

(** A queue is registered as its own dependency and then used. *)
Definition self_dependency : list Event := [AddDependency 0 0 WaitCurrent].

Definition self_use : list Event :=
  [Enqueue 0 (Fulfils "a"); Enqueue 0 (Returns "b"); Subscribe 0 0 (0, Current)].

(** An operation that raises is enqueued, followed by another one; a
    third one is enqueued after the raise. *)
Definition raise_pending : list Event :=
  [Enqueue 0 (Throws "boom"); Enqueue 0 (Returns "next")].

Definition raise_then_enqueue : list Event :=
  [DependenciesDone 0 0; Enqueue 0 (Returns "later")].

(** Queue 1 waits for all of queue 0, which is busy with one operation
    when an entry is enqueued on queue 1. *)
Definition behind_WaitAll : list Event :=
  [AddDependency 1 0 WaitAll; Enqueue 0 (Fulfils "a"); Enqueue 1 (Fulfils "b");
   Subscribe 1 1 (0, All)].

Definition drain_then_call : list Event :=
  [DependenciesDone 0 0; Settle 0 0; Continue 0 0; DependenciesDone 1 1].

(** * Basic facts about the state updates *)

Lemma fn_insert_at {A} (f : QueueId → A) (x q : QueueId) (v : A) :
  <[x := v]> f q = if decide (x = q) then v else f q.
Proof. reflexivity. Qed.

Ltac heap :=
  repeat first
    [ rewrite fn_insert_at | progress simpl | case_decide; simplify_eq; try done ].

Lemma quiet_refl st : quiet st st.
Proof. repeat split; done. Qed.

Lemma quiet_trans st1 st2 st3 : quiet st1 st2 → quiet st2 st3 → quiet st1 st3.
Proof.
  intros (Hn1 & Ht1 & H1) (Hn2 & Ht2 & H2). repeat split; try congruence.
  - trans (pending_ids q st2); [apply H2 | apply H1].
  - trans (owned q st2); [apply H2 | apply H1].
Qed.

(** A queue update that keeps the pending list is quiet. *)
Lemma quiet_set_queue x Q st :
  operations Q = operations (queues st x) → quiet st (set_queue x Q st).
Proof.
  intros HQ. repeat split; try done; unfold owned, pending_ids, frame_ids; simpl;
    rewrite fn_insert_at; case_decide; simplify_eq; by rewrite ?HQ.
Qed.

Lemma release_entry w f : entry (release w f) = entry f.
Proof. unfold release. by destruct (phase f). Qed.

Lemma frame_ids_release w (fs : list Frame) :
  (λ f, resolver (entry f)) <$> (release w <$> fs) = (λ f, resolver (entry f)) <$> fs.
Proof.
  rewrite <- list_fmap_compose. apply list_fmap_ext. intros i f _. simpl.
  by rewrite release_entry.
Qed.

Lemma quiet_signal x g st : quiet st (signal x g st).
Proof.
  repeat split; try done; unfold owned, pending_ids, frame_ids; simpl;
    rewrite ?frame_ids_release; rewrite fn_insert_at; case_decide; simplify_eq;
    by destruct g.
Qed.

Lemma quiet_reset x g st : quiet st (reset x g st).
Proof. apply quiet_set_queue. by destruct g. Qed.

Lemma quiet_suspend x st : quiet st (suspend x st).
Proof.
  unfold suspend. case_match; [apply quiet_refl | by apply quiet_set_queue].
Qed.

Lemma quiet_addDependency x y m st : quiet st (addDependency x y m st).
Proof.
  unfold addDependency. case_decide.
  - eapply quiet_trans; by apply quiet_set_queue.
  - by apply quiet_set_queue.
Qed.

Lemma quiet_clear x st : quiet st (clear x st).
Proof.
  unfold clear. eapply quiet_trans; [|apply quiet_suspend].
  repeat split; try done; unfold owned, pending_ids, frame_ids; simpl;
    rewrite fn_insert_at; case_decide; simplify_eq/=; try done.
  - apply sublist_nil_l.
  - apply submseteq_inserts_l. done.
Qed.

Lemma quiet_runNext x st : quiet st (runNext x st).
Proof.
  unfold runNext. destruct (operations (queues st x)) as [|e rest] eqn:Hops.
  - eapply quiet_trans; [apply quiet_signal | apply quiet_suspend].
  - repeat split; try done; unfold owned, pending_ids, frame_ids; heap;
      rewrite ?Hops; try done.
    + simpl. by apply sublist_cons.
    + rewrite fmap_app. simpl. apply Permutation_submseteq.
      rewrite (assoc (++)). by rewrite <- Permutation_cons_append.
Qed.

Lemma quiet_resume x st : quiet st (resume x st).
Proof.
  unfold resume. case_match; [apply quiet_refl|].
  eapply quiet_trans; [|apply quiet_runNext]. by apply quiet_set_queue.
Qed.

Lemma frame_of_Some x p st f :
  frame_of x p st = Some f → f ∈ frames st x ∧ resolver (entry f) = p.
Proof.
  unfold frame_of. intros Hin%head_Some_elem_of.
  apply list_elem_of_filter in Hin as [? ?]. done.
Qed.

Lemma frame_of_id x p st f : frame_of x p st = Some f → p ∈ frame_ids x st.
Proof.
  intros [Hin <-]%frame_of_Some. unfold frame_ids.
  by apply (list_elem_of_fmap_2 (λ f, resolver (entry f))).
Qed.

Lemma quiet_drop_frame x p st : quiet st (drop_frame x p st).
Proof.
  repeat split; try done; unfold owned, pending_ids, frame_ids; heap.
  apply submseteq_skips_l, sublist_submseteq, fmap_sublist, sublist_filter.
Qed.

Lemma frame_ids_set_phase p ph (fs : list Frame) :
  (λ f, resolver (entry f)) <$>
    ((λ f, if decide (holds p f) then mkFrame (entry f) ph else f) <$> fs)
  = (λ f, resolver (entry f)) <$> fs.
Proof.
  rewrite <- list_fmap_compose. apply list_fmap_ext. intros i f _. simpl.
  by case_decide.
Qed.

Lemma quiet_set_phase x p ph st : quiet st (set_phase x p ph st).
Proof.
  repeat split; try done; unfold owned, pending_ids, frame_ids; heap.
  by rewrite frame_ids_set_phase.
Qed.

Lemma reach_entry w b f : entry (reach w b f) = entry f.
Proof. unfold reach. by destruct (phase f). Qed.

(** What the job that calls [then] changes: the frames of its queue. *)
Lemma subscribe_Some x p w st st' :
  subscribe x p w st = Some st' →
  ∃ e ws,
    frame_of x p st = Some (mkFrame e (AwaitingDependencies ws)) ∧
    (w, Scheduled) ∈ ws ∧
    queues st' = queues st ∧ nextPromise st' = nextPromise st ∧ trace st' = trace st ∧
    ∀ q, frames st' q =
           if decide (x = q)
           then (λ f, if decide (holds p f) then reach w (is_open w st) f else f)
                  <$> frames st x
           else frames st q.
Proof.
  unfold subscribe.
  destruct (frame_of x p st) as [[e [ws| |]]|]; try done.
  case_decide; [|done]. intros [= <-]. exists e, ws. do 5 (split; [done|]).
  intros q. simpl. rewrite fn_insert_at. case_decide; by subst.
Qed.

Lemma quiet_subscribe x p w st st' : subscribe x p w st = Some st' → quiet st st'.
Proof.
  intros (e & ws & _ & _ & Hq & Hn & Ht & Hf)%subscribe_Some.
  assert (∀ q, frame_ids q st' = frame_ids q st) as Hids.
  { intros q. unfold frame_ids. rewrite Hf. case_decide; [subst|done].
    rewrite <- list_fmap_compose. apply list_fmap_ext. intros i f _. simpl.
    case_decide; by rewrite ?reach_entry. }
  split; [done|]. split; [done|]. intros q. unfold owned, pending_ids.
  by rewrite Hids, Hq.
Qed.

Lemma quiet_observe o st st' :
  quiet (observe o st) st' →
  nextPromise st' = nextPromise st ∧ trace st' = trace st ++ [o] ∧
  ∀ q, pending_ids q st' `sublist_of` pending_ids q st ∧ owned q st' ⊆+ owned q st.
Proof. intros (? & ? & ?). done. Qed.

(** What one transition does to the promise counter, the trace, the
    pending lists and the frames. *)
Lemma step_footprint ev st st' :
  step ev st = Some st' →
  nextPromise st ≤ nextPromise st' ∧
  (∀ q p, p ∈ fresh_of ev st q → p = nextPromise st ∧ p < nextPromise st') ∧
  (∃ obs, trace st' = trace st ++ obs ∧
          ∀ o, o ∈ obs → ∃ q, subject o ∈ frame_ids q st) ∧
  ∀ q, pending_ids q st' `sublist_of` pending_ids q st ++ fresh_of ev st q ∧
       owned q st' ⊆+ owned q st ++ fresh_of ev st q.
Proof.
  assert (Hquiet : ∀ s s', quiet s s' → fresh_of ev s = (λ _, []) →
    nextPromise s ≤ nextPromise s' ∧
    (∀ q p, p ∈ fresh_of ev s q → p = nextPromise s ∧ p < nextPromise s') ∧
    (∃ obs, trace s' = trace s ++ obs ∧
            ∀ o, o ∈ obs → ∃ q, subject o ∈ frame_ids q s) ∧
    ∀ q, pending_ids q s' `sublist_of` pending_ids q s ++ fresh_of ev s q ∧
         owned q s' ⊆+ owned q s ++ fresh_of ev s q).
  { intros s s' (Hn & Ht & Hq) Hf. rewrite Hf. split; [lia|]. split.
    { intros q p Hp. by apply elem_of_nil in Hp. }
    split; [exists []; rewrite app_nil_r; split; [done|]; by intros o ?%elem_of_nil|].
    intros q. rewrite !app_nil_r. apply Hq. }
  assert (Hobs : ∀ o s', (∃ q, subject o ∈ frame_ids q st) →
    quiet (observe o st) s' → fresh_of ev st = (λ _, []) →
    nextPromise st ≤ nextPromise s' ∧
    (∀ q p, p ∈ fresh_of ev st q → p = nextPromise st ∧ p < nextPromise s') ∧
    (∃ obs, trace s' = trace st ++ obs ∧
            ∀ o, o ∈ obs → ∃ q, subject o ∈ frame_ids q st) ∧
    ∀ q, pending_ids q s' `sublist_of` pending_ids q st ++ fresh_of ev st q ∧
         owned q s' ⊆+ owned q st ++ fresh_of ev st q).
  { intros o s' Ho (Hn & Ht & Hq)%quiet_observe Hf. rewrite Hf. split; [lia|]. split.
    { intros q p Hp. by apply elem_of_nil in Hp. }
    split.
    { exists [o]. split; [done|]. by intros o' ->%list_elem_of_singleton. }
    intros q. rewrite !app_nil_r. apply Hq. }
  destruct ev as [x y m|x op|x|x|x|x p w|x p|x p|x p]; simpl; intros Hstep; simplify_eq.
  - apply Hquiet; [apply quiet_addDependency|done].
  - (* Enqueue *)
    unfold enqueue, push.
    set (e := mkEntry op (nextPromise st)).
    set (st1 := mkState (queues st) (frames st) (S (nextPromise st)) (trace st)).
    set (st2 := set_queue x _ st1).
    destruct (quiet_resume x st2) as (Hn & Ht & Hq).
    split; [rewrite Hn; simpl; lia|]. split.
    { intros q p. case_decide; [|by intros ?%elem_of_nil].
      intros ->%list_elem_of_singleton. rewrite Hn. simpl. lia. }
    split; [exists []; rewrite app_nil_r; split; [done|]; by intros o ?%elem_of_nil|].
    intros q. destruct (Hq q) as [Hp Ho]. split.
    + etrans; [exact Hp|]. unfold pending_ids, st2, st1. heap.
      * by rewrite fmap_app.
      * by rewrite app_nil_r.
    + etrans; [exact Ho|]. unfold owned, pending_ids, frame_ids, st2, st1. heap.
      * rewrite fmap_app. simpl. apply Permutation_submseteq.
        rewrite <- !(assoc (++)). f_equiv. apply Permutation_app_comm.
      * by rewrite app_nil_r.
  - apply Hquiet; [apply quiet_clear|done].
  - apply Hquiet; [apply quiet_suspend|done].
  - apply Hquiet; [apply quiet_resume|done].
  - apply Hquiet; [by eapply quiet_subscribe|done].
  - unfold dependenciesDone in Hstep.
    destruct (frame_of x p st) as [[e [[|]| |]]|] eqn:Hf; simplify_eq.
    apply frame_of_id in Hf.
    destruct (operation e); simplify_eq;
      (apply (Hobs (Invoked x p)); [by exists x| |done]);
      [apply quiet_drop_frame|apply quiet_set_phase..].
  - unfold settle in Hstep.
    destruct (frame_of x p st) as [[e [| |]]|] eqn:Hf; simplify_eq.
    destruct (delivery e) as [o|] eqn:Ho; [|done].
    simpl in Hstep. injection Hstep as <-.
    apply frame_of_Some in Hf as [Hin Hp]. simpl in Hp.
    eapply Hobs; [|apply quiet_set_phase|done]. exists x.
    replace (subject o) with (resolver (entry (mkFrame e AwaitingRun))).
    + by apply (list_elem_of_fmap_2 (λ f, resolver (entry f))).
    + unfold delivery in Ho. destruct (operation e); by simplify_eq.
  - unfold continue in Hstep.
    destruct (frame_of x p st) as [[e [| |]]|] eqn:Hf; simplify_eq.
    apply Hquiet; [|done].
    eapply quiet_trans; [apply quiet_drop_frame|].
    eapply quiet_trans; [apply quiet_signal|apply quiet_runNext].
Qed.

Lemma submseteq_NoDup {A} (l k : list A) : l ⊆+ k → NoDup k → NoDup l.
Proof.
  intros [k' Hk]%submseteq_Permutation. rewrite Hk, NoDup_app. tauto.
Qed.

Lemma run_app evs1 evs2 st :
  run (evs1 ++ evs2) st = st' ← run evs1 st; run evs2 st'.
Proof.
  revert st. induction evs1 as [|ev evs1 IH]; intros st; simpl; [done|].
  destruct (step ev st); simpl; [apply IH|done].
Qed.

Lemma run_snoc evs ev st st' st'' :
  run evs st = Some st' → step ev st' = Some st'' → run (evs ++ [ev]) st = Some st''.
Proof. intros H1 H2. rewrite run_app, H1. simpl. by rewrite H2. Qed.

(** Induction over the transitions that lead to a reachable state. *)
Lemma reachable_ind (P : State → Prop) :
  P initial →
  (∀ ev st st', reachable st → P st → step ev st = Some st' → P st') →
  ∀ st, reachable st → P st.
Proof.
  intros Hinit Hstep st [evs Hrun]. revert st Hrun.
  induction evs as [|ev evs IH] using rev_ind; intros st Hrun.
  - by simplify_eq/=.
  - rewrite run_app in Hrun. destruct (run evs initial) as [st1|] eqn:H1; [|done].
    simpl in Hrun. destruct (step ev st1) as [st2|] eqn:H2; simplify_eq/=.
    eapply Hstep; [by exists evs| |done]. by apply IH.
Qed.

Lemma reachable_step ev st st' : reachable st → step ev st = Some st' → reachable st'.
Proof. intros [evs Hrun] Hstep. exists (evs ++ [ev]). by eapply run_snoc. Qed.

Lemma reachable_run evs st st' : reachable st → run evs st = Some st' → reachable st'.
Proof.
  intros [evs0 Hrun0] Hrun. exists (evs0 ++ evs). by rewrite run_app, Hrun0.
Qed.

Lemma well_formed_initial : well_formed initial.
Proof.
  repeat split; unfold owned, pending_ids, frame_ids; simpl.
  - by intros _ p ?%elem_of_nil.
  - intros _. apply NoDup_nil_2.
  - by intros _ _ p _ ?%elem_of_nil.
  - by intros o ?%elem_of_nil.
  - by intros _ p o ?%elem_of_nil.
Qed.

Lemma fresh_of_other ev st q q' p : q ≠ q' → p ∈ fresh_of ev st q → fresh_of ev st q' = [].
Proof.
  destruct ev; simpl; try by intros _ ?%elem_of_nil.
  repeat case_decide; simplify_eq; try done. by intros _ ?%elem_of_nil.
Qed.

Lemma well_formed_step ev st st' :
  well_formed st → step ev st = Some st' → well_formed st'.
Proof.
  intros (Hlt & Hnd & Hdisj & Htr & Hpend) Hstep.
  destruct (step_footprint _ _ _ Hstep) as (Hle & Hfresh & (obs & Htrace & Hobs) & Hq).
  assert (Hown : ∀ q p, p ∈ owned q st' → p ∈ owned q st ∨ p ∈ fresh_of ev st q).
  { intros q p Hp. destruct (Hq q) as [_ Hsub].
    eapply elem_of_submseteq in Hsub; [|done]. by apply elem_of_app in Hsub. }
  assert (Hpen : ∀ q p, p ∈ pending_ids q st' → p ∈ pending_ids q st ∨ p ∈ fresh_of ev st q).
  { intros q p Hp. destruct (Hq q) as [Hsub _].
    eapply sublist_submseteq, elem_of_submseteq in Hsub; [|done].
    by apply elem_of_app in Hsub. }
  repeat split.
  - intros q p [Hp|Hp]%Hown; [apply Hlt in Hp; lia|apply Hfresh in Hp; lia].
  - intros q. destruct (Hq q) as [_ Hsub]. eapply submseteq_NoDup; [done|].
    apply NoDup_app. repeat split; [done| |].
    + intros p Hp Hp'. apply Hlt in Hp. apply Hfresh in Hp'. lia.
    + destruct ev; simpl; try apply NoDup_nil_2.
      case_decide; [apply NoDup_singleton|apply NoDup_nil_2].
  - intros q q' p Hne [Hp|Hp]%Hown [Hp'|Hp']%Hown.
    + by eapply Hdisj.
    + apply Hlt in Hp. apply Hfresh in Hp'. lia.
    + apply Hlt in Hp'. apply Hfresh in Hp. lia.
    + erewrite fresh_of_other in Hp'; [|done..]. by apply elem_of_nil in Hp'.
  - intros o. rewrite Htrace. intros [Ho|Ho]%elem_of_app; [apply Htr in Ho; lia|].
    destruct (Hobs o Ho) as [q Hin].
    assert (subject o ∈ owned q st) as ?%Hlt by (apply elem_of_app; by right). lia.
  - intros q p o [Hp|Hp]%Hpen; rewrite Htrace; intros [Ho|Ho]%elem_of_app.
    + by eapply Hpend.
    + destruct (Hobs o Ho) as [q' Hin]. intros Heq. rewrite Heq in Hin.
      destruct (decide (q = q')) as [->|Hne].
      * specialize (Hnd q'). apply NoDup_app in Hnd as (_ & Hnd & _). by eapply Hnd.
      * eapply (Hdisj q q' p); [done|..]; apply elem_of_app; [by left|by right].
    + apply Htr in Ho. apply Hfresh in Hp. lia.
    + destruct (Hobs o Ho) as [q' Hin].
      assert (subject o ∈ owned q' st) as ?%Hlt by (apply elem_of_app; by right).
      apply Hfresh in Hp. lia.
Qed.

Lemma well_formed_reachable st : reachable st → well_formed st.
Proof.
  apply reachable_ind; [apply well_formed_initial|].
  intros ev s s' _. apply well_formed_step.
Qed.

(** Once an entry is gone it stays gone, and nothing more is observed
    about it. *)
Lemma gone_step p ev st st' :
  gone p st → step ev st = Some st' →
  gone p st' ∧ ∀ o, o ∈ trace st' → subject o = p → o ∈ trace st.
Proof.
  intros [Hlt Hgone] Hstep.
  destruct (step_footprint _ _ _ Hstep) as (Hle & Hfresh & (obs & Htrace & Hobs) & Hq).
  repeat split.
  - lia.
  - intros q Hp. destruct (Hq q) as [_ Hsub].
    eapply elem_of_submseteq in Hsub; [|done].
    apply elem_of_app in Hsub as [Hold|Hnew]; [by eapply Hgone|].
    apply Hfresh in Hnew. lia.
  - intros o. rewrite Htrace. intros [Ho|Ho]%elem_of_app Heq; [done|].
    destruct (Hobs o Ho) as [q Hin]. rewrite Heq in Hin.
    destruct (Hgone q). apply elem_of_app. by right.
Qed.

Lemma gone_run p evs st st' :
  gone p st → run evs st = Some st' →
  gone p st' ∧ ∀ o, o ∈ trace st' → subject o = p → o ∈ trace st.
Proof.
  revert st. induction evs as [|ev evs IH]; intros st Hgone Hrun; simplify_eq/=.
  { done. }
  destruct (step ev st) as [st1|] eqn:Hstep; simplify_eq/=.
  destruct (gone_step _ _ _ _ Hgone Hstep) as [Hgone1 Htr1].
  destruct (IH _ Hgone1 Hrun) as [Hgone' Htr']. split; [done|].
  intros o Ho Heq. apply Htr1; [|done]. by apply Htr'.
Qed.

(** ** Frames are identified by the entry they hold *)

Lemma NoDup_fmap_inj_on {A B} (g : A → B) (l : list A) x y :
  NoDup (g <$> l) → x ∈ l → y ∈ l → g x = g y → x = y.
Proof.
  induction l as [|a l IH]; simpl; [by intros _ ?%elem_of_nil|].
  rewrite NoDup_cons. intros [Hnotin Hnd] [->|Hx]%elem_of_cons [->|Hy]%elem_of_cons Heq;
    try done.
  - destruct Hnotin. rewrite Heq. by apply list_elem_of_fmap_2.
  - destruct Hnotin. rewrite <- Heq. by apply list_elem_of_fmap_2.
  - by apply IH.
Qed.

Lemma frame_unique st q f f' :
  well_formed st → f ∈ frames st q → f' ∈ frames st q →
  resolver (entry f) = resolver (entry f') → f = f'.
Proof.
  intros (_ & Hnd & _) Hf Hf' Heq.
  specialize (Hnd q). apply NoDup_app in Hnd as (_ & _ & Hnd).
  by eapply (NoDup_fmap_inj_on (λ f, resolver (entry f))).
Qed.

Lemma frame_of_unique st q f :
  well_formed st → f ∈ frames st q → frame_of q (resolver (entry f)) st = Some f.
Proof.
  intros Hwf Hf. unfold frame_of.
  destruct (filter (holds (resolver (entry f))) (frames st q)) as [|f' fs] eqn:Hfil.
  - assert (f ∈ filter (holds (resolver (entry f))) (frames st q)) as Hin
      by (by apply list_elem_of_filter).
    rewrite Hfil in Hin. by apply elem_of_nil in Hin.
  - simpl. f_equal.
    assert (f' ∈ filter (holds (resolver (entry f))) (frames st q)) as Hin
      by (rewrite Hfil; left).
    apply list_elem_of_filter in Hin as [Hh Hin]. by eapply frame_unique.
Qed.

(** ** Operations that were called did not raise *)

Lemma calm_refl st : calm st st.
Proof. intros q f Hf Hph. by exists f. Qed.

Lemma calm_trans st1 st2 st3 : calm st1 st2 → calm st2 st3 → calm st1 st3.
Proof.
  intros H12 H23 q f3 Hf3 Hph3.
  destruct (H23 q f3 Hf3 Hph3) as (f2 & Hf2 & He2 & Hph2).
  destruct (H12 q f2 Hf2 Hph2) as (f1 & Hf1 & He1 & Hph1).
  exists f1. repeat split; [done|congruence|done].
Qed.

Lemma calm_same_frames st st' : frames st' = frames st → calm st st'.
Proof. intros Heq q f Hf Hph. rewrite Heq in Hf. by exists f. Qed.

Lemma frames_suspend x st : frames (suspend x st) = frames st.
Proof. unfold suspend. by case_match. Qed.

Lemma frames_addDependency x y m st : frames (addDependency x y m st) = frames st.
Proof. unfold addDependency. by case_decide. Qed.

Lemma frames_clear x st : frames (clear x st) = frames st.
Proof. unfold clear. by rewrite frames_suspend. Qed.

Lemma calm_signal x g st : calm st (signal x g st).
Proof.
  intros q f' Hf' Hph. simpl in Hf'.
  apply list_elem_of_fmap in Hf' as (f & -> & Hf). exists f.
  rewrite release_entry. repeat split; [done|].
  unfold release in Hph. destruct (phase f); simpl in Hph; [by destruct Hph|auto..].
Qed.

Lemma calm_runNext x st : calm st (runNext x st).
Proof.
  unfold runNext. destruct (operations (queues st x)) as [|e rest].
  - eapply calm_trans; [apply calm_signal|]. apply calm_same_frames, frames_suspend.
  - intros q f Hf Hph. revert Hf. heap; [|by exists f].
    intros [Hf|Hf]%elem_of_app; [by exists f|].
    apply list_elem_of_singleton in Hf as ->. simpl in Hph. by destruct Hph.
Qed.

Lemma calm_resume x st : calm st (resume x st).
Proof.
  unfold resume. case_match; [apply calm_refl|].
  eapply calm_trans; [|apply calm_runNext]. by apply calm_same_frames.
Qed.

Lemma calm_drop_frame x p st : calm st (drop_frame x p st).
Proof.
  intros q f Hf Hph. revert Hf. heap; [|by exists f].
  intros [_ Hf]%list_elem_of_filter. by exists f.
Qed.

Lemma reach_phase w b f :
  phase (reach w b f) = phase f ∨
  ∃ ws ws', phase f = AwaitingDependencies ws ∧
            phase (reach w b f) = AwaitingDependencies ws'.
Proof.
  unfold reach. destruct (phase f) as [ws| |] eqn:Hph; simpl; rewrite ?Hph; auto.
  right. by eexists _, _.
Qed.

Lemma calm_subscribe x p w st st' : subscribe x p w st = Some st' → calm st st'.
Proof.
  intros (e & ws & _ & _ & _ & _ & _ & Hf)%subscribe_Some q f' Hf' Hph.
  rewrite Hf in Hf'. case_decide; [subst|by exists f'].
  apply list_elem_of_fmap in Hf' as (f & -> & Hin).
  case_decide; [|by exists f]. exists f. rewrite reach_entry in *.
  split; [done|]. split; [done|].
  destruct (reach_phase w (is_open w st) f) as [Heq|(ws1 & ws2 & _ & Heq)];
    rewrite Heq in Hph; [done|]. by destruct Hph.
Qed.

Lemma calm_called_ok st st' : calm st st' → called_ok st → called_ok st'.
Proof.
  intros Hcalm Hok q f' Hf' Hph.
  destruct (Hcalm q f' Hf' Hph) as (f & Hf & <- & Hph'). by eapply Hok.
Qed.

Lemma called_ok_step ev st st' :
  well_formed st → called_ok st → step ev st = Some st' → called_ok st'.
Proof.
  intros Hwf Hok.
  destruct ev as [x y m|x op|x|x|x|x p w|x p|x p|x p]; simpl; intros Hstep; simplify_eq.
  - eapply calm_called_ok; [|done]. apply calm_same_frames, frames_addDependency.
  - eapply calm_called_ok; [|done]. unfold enqueue, push.
    eapply calm_trans; [|apply calm_resume]. by apply calm_same_frames.
  - eapply calm_called_ok; [|done]. apply calm_same_frames, frames_clear.
  - eapply calm_called_ok; [|done]. apply calm_same_frames, frames_suspend.
  - eapply calm_called_ok; [|done]. apply calm_resume.
  - eapply calm_called_ok; [|done]. by eapply calm_subscribe.
  - unfold dependenciesDone in Hstep.
    destruct (frame_of x p st) as [[e [[|]| |]]|] eqn:Hf; simplify_eq.
    apply frame_of_Some in Hf as [Hin Hp]. simpl in Hp.
    destruct (operation e) eqn:Hop; simplify_eq;
      [ eapply calm_called_ok; [|done];
        eapply calm_trans; [|apply calm_drop_frame]; by apply calm_same_frames | ..];
      ( intros q f'; heap; [|by apply Hok];
        intros (f & -> & Hf)%list_elem_of_fmap; case_decide as Hh;
        [ unfold holds in Hh;
          rewrite (frame_unique _ _ f _ Hwf Hf Hin Hh); simpl; rewrite Hop; by intros _ []
        | by apply (Hok _ _ Hf) ] ).
  - unfold settle in Hstep.
    destruct (frame_of x p st) as [[e [| |]]|] eqn:Hf; simplify_eq.
    destruct (delivery e) as [o|] eqn:Ho; [|done].
    simpl in Hstep. injection Hstep as <-.
    apply frame_of_Some in Hf as [Hin Hp]. simpl in Hp.
    intros q f'; heap; [|by apply Hok].
    intros (f & -> & Hf)%list_elem_of_fmap; case_decide as Hh; [|by apply (Hok _ _ Hf)].
    unfold holds in Hh. rewrite (frame_unique _ _ f _ Hwf Hf Hin Hh). simpl.
    intros _ Hthrows. unfold delivery in Ho. by destruct (operation e).
  - unfold continue in Hstep.
    destruct (frame_of x p st) as [[e [| |]]|] eqn:Hf; simplify_eq.
    eapply calm_called_ok; [|done].
    eapply calm_trans; [apply calm_drop_frame|].
    eapply calm_trans; [apply calm_signal|apply calm_runNext].
Qed.

Lemma called_ok_reachable st : reachable st → called_ok st.
Proof.
  apply reachable_ind.
  - by intros q f ?%elem_of_nil.
  - intros ev s s' Hreach Hok. apply called_ok_step; [|done].
    by apply well_formed_reachable.
Qed.

(** ** [clear] *)

Lemma queues_clear x st q :
  queues (clear x st) q =
    if decide (x = q)
    then mkQueue (dependencies (queues st x)) [] true
                 (currentSemaphore (queues st x)) (allSemaphore (queues st x))
    else queues st q.
Proof.
  unfold clear, suspend. simpl. rewrite !fn_insert_at, !decide_True by done. simpl.
  destruct (_suspended (queues st x)) eqn:Hs; simpl; rewrite ?fn_insert_at;
    case_decide; simplify_eq; try done.
  unfold set_operations. by rewrite Hs.
Qed.

Lemma trace_clear x st : trace (clear x st) = trace st.
Proof. by destruct (quiet_clear x st) as (_ & ? & _). Qed.

Lemma nextPromise_clear x st : nextPromise (clear x st) = nextPromise st.
Proof. by destruct (quiet_clear x st) as (? & _). Qed.

Lemma head_filter_fmap p (g : Frame → Frame) (fs : list Frame) :
  (∀ f, entry (g f) = entry f) →
  head (filter (holds p) (g <$> fs)) = g <$> head (filter (holds p) fs).
Proof.
  intros Hg. induction fs as [|f fs IH]; [done|].
  rewrite fmap_cons, !filter_cons.
  destruct (decide (holds p f)) as [Hh|Hh].
  - rewrite decide_True; [done|]. unfold holds in *. by rewrite Hg.
  - rewrite decide_False; [apply IH|]. unfold holds in *. by rewrite Hg.
Qed.

Lemma frame_of_set_phase x p ph st f :
  frame_of x p st = Some f →
  frame_of x p (set_phase x p ph st) = Some (mkFrame (entry f) ph).
Proof.
  unfold frame_of. intros Hf. heap. rewrite head_filter_fmap.
  - rewrite Hf. simpl. apply head_Some_elem_of, list_elem_of_filter in Hf as [Hh _].
    by rewrite decide_True.
  - intros f'. by case_decide.
Qed.

(** The entries dropped by [clear] are gone. *)
Lemma clear_gone q st e :
  well_formed st → e ∈ operations (queues st q) → gone (resolver e) (clear q st).
Proof.
  intros (Hlt & Hnd & Hdisj & _) He.
  assert (resolver e ∈ pending_ids q st) as Hp by (by apply list_elem_of_fmap_2).
  assert (resolver e ∈ owned q st) as Ho by (apply elem_of_app; by left).
  split; [rewrite nextPromise_clear; by eapply Hlt|].
  intros q'. unfold owned, pending_ids, frame_ids.
  rewrite frames_clear, queues_clear. case_decide as Hq; simplify_eq/=.
  - specialize (Hnd q'). apply NoDup_app in Hnd as (_ & Hnd & _). by apply Hnd.
  - by apply (Hdisj q q').
Qed.

Lemma discarded_silent q st e evs st' :
  reachable st → e ∈ operations (queues st q) → run evs (clear q st) = Some st' →
  ∀ o, o ∈ trace st' → subject o ≠ resolver e.
Proof.
  intros Hwf%well_formed_reachable He Hrun o Ho Heq.
  destruct (gone_run _ _ _ _ (clear_gone _ _ _ Hwf He) Hrun) as [_ Hold].
  specialize (Hold o Ho Heq). rewrite trace_clear in Hold.
  destruct Hwf as (_ & _ & _ & _ & Hpend).
  eapply (Hpend q (resolver e)); [by apply list_elem_of_fmap_2|done..].
Qed.

(** ** Pointwise descriptions of the heap after each method *)

Lemma queues_signal x g st q :
  queues (signal x g st) q =
    if decide (x = q) then set_semaphore g (mkSemaphore true) (queues st x)
    else queues st q.
Proof. done. Qed.

Lemma queues_reset x g st q :
  queues (reset x g st) q =
    if decide (x = q) then set_semaphore g (mkSemaphore false) (queues st x)
    else queues st q.
Proof. done. Qed.

Lemma queues_suspend x st q :
  queues (suspend x st) q =
    if decide (x = q) then set_suspended true (queues st x) else queues st q.
Proof.
  unfold suspend. destruct (_suspended (queues st x)) eqn:Hs; simpl;
    rewrite ?fn_insert_at; case_decide; simplify_eq; try done.
  unfold set_suspended. rewrite <- Hs. by destruct (queues st q).
Qed.

Lemma runNext_nil x st :
  operations (queues st x) = [] → runNext x st = suspend x (signal x All st).
Proof. unfold runNext. by intros ->. Qed.

Lemma operations_set_semaphore g s Q : operations (set_semaphore g s Q) = operations Q.
Proof. by destruct g. Qed.

Lemma dependencies_set_semaphore g s Q :
  dependencies (set_semaphore g s Q) = dependencies Q.
Proof. by destruct g. Qed.

Lemma suspended_set_semaphore g s Q : _suspended (set_semaphore g s Q) = _suspended Q.
Proof. by destruct g. Qed.

(** ** Dependency waits *)

Lemma dependency_wait_Some st d mode x :
  dependency_wait st (d, mode) = Some x ↔
  x = ((d, gate_of mode), Scheduled) ∧
  (mode = WaitAll ∨ isSignalled (currentSemaphore (queues st d)) = false).
Proof.
  unfold dependency_wait, all, current, await_semaphore.
  destruct mode; simpl; repeat (case_decide; try done);
    try (split; [intros ?; simplify_eq; by auto|by intros [-> _]]);
    destruct (isSignalled _) eqn:Hs; simpl;
    (split; [intros ?; simplify_eq; by auto|intros [? [?|?]]; by simplify_eq]).
Qed.

Lemma runNext_cons x st e rest :
  operations (queues st x) = e :: rest →
  ∃ ws,
    frames (runNext x st) x = frames st x ++ [mkFrame e (AwaitingDependencies ws)] ∧
    (∀ q, q ≠ x → frames (runNext x st) q = frames st q) ∧
    (∀ q, queues (runNext x st) q =
       if decide (x = q)
       then mkQueue (dependencies (queues st x)) rest (_suspended (queues st x))
                    (mkSemaphore false) (mkSemaphore false)
       else queues st q) ∧
    nextPromise (runNext x st) = nextPromise st ∧
    trace (runNext x st) = trace st ∧
    ∀ w, w ∈ ws ↔
      ∃ d mode, dependencies (queues st x) !! d = Some mode ∧
                w = ((d, gate_of mode), Scheduled) ∧
                (mode = WaitAll ∨ d = x ∨
                 isSignalled (currentSemaphore (queues st d)) = false).
Proof.
  intros Hops. unfold runNext. rewrite Hops. eexists. split; [|split; [|split; [|split; [|split]]]].
  - simpl. rewrite !fn_insert_at, !decide_True by done. simpl. reflexivity.
  - intros q Hne. simpl. by rewrite fn_insert_at, decide_False.
  - intros q. heap.
  - done.
  - done.
  - intros w. rewrite list_elem_of_omap. split.
    + intros ([d mode] & Hin & Hw). apply elem_of_map_to_list in Hin.
      apply dependency_wait_Some in Hw as [-> Hs]. exists d, mode. revert Hin Hs. heap.
      * intros ? Hs. split; [done|]. split; [done|]. destruct Hs; auto.
      * intros ? Hs. split; [done|]. split; [done|]. destruct Hs; auto.
    + intros (d & mode & Hd & -> & Hs). exists (d, mode). split.
      * apply elem_of_map_to_list. heap. done.
      * apply dependency_wait_Some. split; [done|]. heap.
        -- destruct Hs as [?|_]; auto.
        -- destruct Hs as [?|[?|?]]; auto. done.
Qed.

Lemma waiting_at_waiting q e w s st : waiting_at q e w s st → waiting q e w st.
Proof. intros H. by exists s. Qed.

Lemma waiting_at_same_frames q e w s st st' :
  frames st' = frames st → waiting_at q e w s st → waiting_at q e w s st'.
Proof. unfold waiting_at. by intros ->. Qed.

Lemma waiting_at_signal q e w s x g st :
  (w, s) ≠ ((x, g), Registered) → waiting_at q e w s st →
  waiting_at q e w s (signal x g st).
Proof.
  intros Hne (ws & Hin & Hw). exists (filter (λ w', w' ≠ ((x, g), Registered)) ws). split.
  - simpl. apply list_elem_of_fmap. by exists (mkFrame e (AwaitingDependencies ws)).
  - by apply list_elem_of_filter.
Qed.

Lemma waiting_at_runNext q e w s x st :
  (w, s) ≠ ((x, All), Registered) → waiting_at q e w s st →
  waiting_at q e w s (runNext x st).
Proof.
  intros Hne Hw. destruct (operations (queues st x)) as [|e' rest] eqn:Hops.
  - rewrite runNext_nil by done. eapply waiting_at_same_frames; [apply frames_suspend|].
    by apply waiting_at_signal.
  - destruct (runNext_cons _ _ _ _ Hops) as (ws' & Hx & Hother & _).
    destruct Hw as (ws & Hin & Hw). exists ws. split; [|done].
    destruct (decide (q = x)) as [->|Hq].
    + rewrite Hx. apply elem_of_app. by left.
    + by rewrite Hother.
Qed.

Lemma waiting_at_runNext_cons q e w s x st :
  operations (queues st x) ≠ [] → waiting_at q e w s st →
  waiting_at q e w s (runNext x st).
Proof.
  intros Hne Hw. destruct (operations (queues st x)) as [|e' rest] eqn:Hops; [done|].
  destruct (runNext_cons _ _ _ _ Hops) as (ws' & Hx & Hother & _).
  destruct Hw as (ws & Hin & Hw). exists ws. split; [|done].
  destruct (decide (q = x)) as [->|Hq].
  - rewrite Hx. apply elem_of_app. by left.
  - by rewrite Hother.
Qed.

Lemma waiting_at_drop_frame q e w s x p st :
  resolver e ≠ p → waiting_at q e w s st → waiting_at q e w s (drop_frame x p st).
Proof.
  intros Hne (ws & Hin & Hw). exists ws. split; [|done]. heap.
  apply list_elem_of_filter. split; [|done]. unfold holds. simpl. congruence.
Qed.

Lemma waiting_at_set_phase q e w s x p ph st :
  resolver e ≠ p → waiting_at q e w s st → waiting_at q e w s (set_phase x p ph st).
Proof.
  intros Hne (ws & Hin & Hw). exists ws. split; [|done]. heap.
  apply list_elem_of_fmap. exists (mkFrame e (AwaitingDependencies ws)).
  split; [|done]. by rewrite decide_False.
Qed.

(** A frame that still waits is not the one a transition resumes. *)
Lemma waiting_not_resumed q e w s st f :
  well_formed st → waiting_at q e w s st → f ∈ frames st q →
  (∀ ws, phase f = AwaitingDependencies ws → ws = []) →
  resolver e ≠ resolver (entry f).
Proof.
  intros Hwf (ws & Hin & Hw) Hf Hnil Heq.
  pose proof (frame_unique _ _ _ _ Hwf Hin Hf Heq) as <-. simpl in Hnil.
  specialize (Hnil ws eq_refl). subst ws. by apply elem_of_nil in Hw.
Qed.

(** What the job that calls [then] does to the waits of a frame. *)
Lemma waiting_at_subscribe q e w s x p w' st st' :
  well_formed st → subscribe x p w' st = Some st' → waiting_at q e w s st →
  waiting_at q e w s st' ∨
  (s = Scheduled ∧ x = q ∧ p = resolver e ∧ w' = w ∧
   if is_open w st then True else waiting_at q e w Registered st').
Proof.
  intros Hwf (e0 & ws0 & Hfo & Hsch & _ & _ & _ & Hf)%subscribe_Some (ws & Hin & Hw).
  destruct (decide (x = q)) as [->|Hq];
    [|left; exists ws; split; [|done]; by rewrite Hf, decide_False].
  destruct (decide (p = resolver e)) as [->|Hp].
  - assert (reach w' (is_open w' st) (mkFrame e (AwaitingDependencies ws)) ∈ frames st' q)
      as Hin'.
    { rewrite Hf, decide_True by done. apply list_elem_of_fmap.
      exists (mkFrame e (AwaitingDependencies ws)). by rewrite decide_True. }
    unfold reach in Hin'. simpl in Hin'.
    destruct (decide ((w, s) = (w', Scheduled))) as [Heq|Hne].
    + injection Heq as -> ->. right. do 4 (split; [done|]).
      destruct (is_open w' st); [done|]. eexists. split; [exact Hin'|].
      apply list_elem_of_fmap. exists (w', Scheduled). by rewrite decide_True.
    + left. eexists. split; [exact Hin'|].
      destruct (is_open w' st).
      * apply list_elem_of_filter. done.
      * apply list_elem_of_fmap. exists (w, s). by rewrite decide_False.
  - left. exists ws. split; [|done]. rewrite Hf, decide_True by done.
    apply list_elem_of_fmap. exists (mkFrame e (AwaitingDependencies ws)).
    rewrite decide_False; [done|]. unfold holds. simpl. congruence.
Qed.

(** A wait stays at its stage unless a signal of its gate finds it
    registered, or its own job calls [then]. *)
Lemma wait_step ev st st' q e w s :
  well_formed st → step ev st = Some st' → waiting_at q e w s st →
  waiting_at q e w s st' ∨
  (s = Registered ∧ signals ev w) ∨
  (s = Scheduled ∧ ev = Subscribe q (resolver e) w ∧
   if is_open w st then True else waiting_at q e w Registered st').
Proof.
  intros Hwf Hstep Hw.
  destruct ev as [x y m|x op|x|x|x|x p w'|x p|x p|x p]; simpl in *; simplify_eq.
  - left. eapply waiting_at_same_frames; [apply frames_addDependency|done].
  - left. unfold enqueue, push, resume. case_match.
    + by eapply waiting_at_same_frames.
    + apply waiting_at_runNext_cons.
      * heap. by destruct (operations (queues st x)).
      * by eapply waiting_at_same_frames.
  - left. eapply waiting_at_same_frames; [apply frames_clear|done].
  - left. eapply waiting_at_same_frames; [apply frames_suspend|done].
  - unfold resume. case_match; [by left|].
    destruct (decide ((w, s) = ((x, All), Registered))) as [Heq|Hne].
    + injection Heq as -> ->. right. by left.
    + left. apply waiting_at_runNext; [done|]. by eapply waiting_at_same_frames.
  - destruct (waiting_at_subscribe _ _ _ _ _ _ _ _ _ Hwf Hstep Hw)
      as [?|(-> & -> & -> & -> & ?)]; [by left|]. right. right. done.
  - left. unfold dependenciesDone in Hstep.
    destruct (frame_of x p st) as [[e0 [[|]| |]]|] eqn:Hf; simplify_eq.
    apply frame_of_Some in Hf as [Hin Hp]. simpl in Hp.
    assert (q = x → resolver e ≠ p) as Hne.
    { intros ->. rewrite <- Hp.
      eapply (waiting_not_resumed _ _ _ _ _ (mkFrame e0 _) Hwf Hw Hin).
      simpl. intros ws ?. by simplify_eq. }
    destruct (decide (q = x)) as [->|Hq].
    + destruct (operation e0); simplify_eq;
        [apply waiting_at_drop_frame|apply waiting_at_set_phase..]; auto;
        by eapply waiting_at_same_frames.
    + destruct Hw as (ws & Hws & Hw). exists ws. split; [|done].
      destruct (operation e0); simplify_eq; heap.
  - left. unfold settle in Hstep.
    destruct (frame_of x p st) as [[e0 [| |]]|] eqn:Hf; simplify_eq.
    destruct (delivery e0) as [o|] eqn:Ho; [|done].
    simpl in Hstep. injection Hstep as <-.
    apply frame_of_Some in Hf as [Hin Hp]. simpl in Hp.
    destruct (decide (q = x)) as [->|Hq].
    + apply waiting_at_set_phase; [|by eapply waiting_at_same_frames].
      rewrite <- Hp.
      by eapply (waiting_not_resumed _ _ _ _ _ (mkFrame e0 _) Hwf Hw Hin).
    + destruct Hw as (ws & Hws & Hw). exists ws. split; [|done]. heap.
  - unfold continue in Hstep.
    destruct (frame_of x p st) as [[e0 [| |]]|] eqn:Hf; simplify_eq.
    apply frame_of_Some in Hf as [Hin Hp]. simpl in Hp.
    destruct (decide (s = Registered ∧ w.1 = x)) as [[-> Hx]|Hns]; [right; by left|].
    left.
    assert ((w, s) ≠ ((x, Current), Registered) ∧ (w, s) ≠ ((x, All), Registered))
      as [Hc Ha].
    { split; intros [= -> ->]; by apply Hns. }
    apply waiting_at_runNext; [done|]. apply waiting_at_signal; [done|].
    destruct (decide (q = x)) as [->|Hq].
    + apply waiting_at_drop_frame; [|done]. rewrite <- Hp.
      by eapply (waiting_not_resumed _ _ _ _ _ (mkFrame e0 _) Hwf Hw Hin).
    + destruct Hw as (ws & Hws & Hw). exists ws. split; [|done]. heap.
Qed.

(** A pending wait is resolved only by a signal of its gate, or by its
    own job finding the gate open. *)
Lemma wait_persists ev st st' q e w :
  well_formed st → step ev st = Some st' → waiting q e w st →
  ¬ signals ev w → ¬ passes ev w st →
  waiting q e w st'.
Proof.
  intros Hwf Hstep [s Hw] Hsig Hpass.
  destruct (wait_step _ _ _ _ _ _ _ Hwf Hstep Hw) as [?|[[_ ?]|(-> & -> & Hopen)]];
    [by exists s|done|].
  destruct (is_open w st) eqn:Ho; [|by exists Registered].
  destruct Hpass. simpl. by rewrite Ho.
Qed.

(** ** The trace *)

Lemma step_trace ev st st' :
  step ev st = Some st' → trace st' = trace st ++ observed ev st.
Proof.
  assert (Hq : ∀ s, quiet st s → trace s = trace st ++ []).
  { intros s (_ & -> & _). by rewrite app_nil_r. }
  destruct ev as [x y m|x op|x|x|x|x p w|x p|x p|x p]; simpl; intros Hstep; simplify_eq.
  - apply Hq, quiet_addDependency.
  - unfold enqueue, push.
    match goal with |- context [resume x ?s] =>
      destruct (quiet_resume x s) as (_ & -> & _) end.
    simpl. by rewrite app_nil_r.
  - apply Hq, quiet_clear.
  - apply Hq, quiet_suspend.
  - apply Hq, quiet_resume.
  - by eapply Hq, quiet_subscribe.
  - unfold dependenciesDone in Hstep.
    destruct (frame_of x p st) as [[e [[|]| |]]|] eqn:Hf; simplify_eq.
    destruct (operation e); by simplify_eq.
  - unfold settle in Hstep.
    destruct (frame_of x p st) as [[e [| |]]|] eqn:Hf; simplify_eq.
    simpl. destruct (delivery e) as [o|] eqn:Ho; [|done].
    simpl in Hstep. by injection Hstep as <-.
  - unfold continue in Hstep.
    destruct (frame_of x p st) as [[e [| |]]|] eqn:Hf; simplify_eq.
    apply Hq. eapply quiet_trans; [apply quiet_drop_frame|].
    eapply quiet_trans; [apply quiet_signal|apply quiet_runNext].
Qed.

Lemma delivery_not_Invoked e o q p : delivery e = Some o → o ≠ Invoked q p.
Proof. unfold delivery. destruct (operation e); intros; by simplify_eq. Qed.

(** An operation is called only in the transition [DependenciesDone]. *)
Lemma Invoked_step ev st st' q p :
  step ev st = Some st' → Invoked q p ∈ trace st' →
  Invoked q p ∈ trace st ∨ ev = DependenciesDone q p.
Proof.
  intros Hstep. rewrite (step_trace _ _ _ Hstep).
  intros [Hin|Hin]%elem_of_app; [by left|]. right.
  destruct ev; simpl in Hin; try by apply elem_of_nil in Hin.
  - apply list_elem_of_singleton in Hin. by simplify_eq.
  - destruct (frame_of this p0 st) as [f|]; [|by apply elem_of_nil in Hin].
    destruct (delivery (entry f)) as [o|] eqn:Ho; [|by apply elem_of_nil in Hin].
    apply list_elem_of_singleton in Hin. symmetry in Hin.
    by apply (delivery_not_Invoked _ _ q p) in Ho.
Qed.


(** ** [addDependency] *)




(** ** More pointwise descriptions *)

Lemma resume_running x st : _suspended (queues st x) = false → resume x st = st.
Proof. unfold resume. by intros ->. Qed.

Lemma resume_suspended x st :
  _suspended (queues st x) = true →
  resume x st = runNext x (set_queue x (set_suspended false (queues st x)) st).
Proof. unfold resume. by intros ->. Qed.

Lemma queues_set_queue x Q st q :
  queues (set_queue x Q st) q = if decide (x = q) then Q else queues st q.
Proof. done. Qed.

Lemma frame_of_singleton x p st f :
  frames st x = [f] → frame_of x p st = if decide (holds p f) then Some f else None.
Proof. unfold frame_of. intros ->. rewrite filter_cons, filter_nil. by case_decide. Qed.

Lemma frames_signal x g st q : frames (signal x g st) q = release (x, g) <$> frames st q.
Proof. done. Qed.

(** * The claims *)

(** C6 (amended).  [clear()] discards exactly the entries that are still
    in the pending list and suspends the queue.  An entry that [runNext]
    has dequeued is not discarded, whether its operation runs or is
    still to be called: the suspended [runNext] invocations, the trace,
    the gates and the other queues are untouched, so an operation that is
    running still settles: its outcome goes to its own promise, and when
    [runNext] resumes it signals the current gate and, finding the list
    empty, the all gate.  Nothing is ever observed about a discarded
    entry: its operation is never called and its promise never settled. *)
Theorem clear_discards_pending_only q st :
  reachable st →
  (operations (queues (clear q st) q) = [] ∧
   _suspended (queues (clear q st) q) = true) ∧
  (frames (clear q st) = frames st ∧
   trace (clear q st) = trace st ∧
   currentSemaphore (queues (clear q st) q) = currentSemaphore (queues st q) ∧
   allSemaphore (queues (clear q st) q) = allSemaphore (queues st q) ∧
   ∀ q', q' ≠ q → queues (clear q st) q' = queues st q') ∧
  (∀ f, f ∈ frames st q → phase f = AwaitingRun →
     ∃ o st1 st2,
       delivery (entry f) = Some o ∧
       settle q (resolver (entry f)) (clear q st) = Some st1 ∧
       trace st1 = trace st ++ [o] ∧
       continue q (resolver (entry f)) st1 = Some st2 ∧
       isSignalled (currentSemaphore (queues st2 q)) = true ∧
       isSignalled (allSemaphore (queues st2 q)) = true) ∧
  (∀ e evs st', e ∈ operations (queues st q) →
     run evs (clear q st) = Some st' →
     ∀ o, o ∈ trace st' → subject o ≠ resolver e).
Proof.
  intros Hreach. split; [|split; [|split]].
  - rewrite queues_clear, decide_True by done. done.
  - rewrite frames_clear, trace_clear, queues_clear, decide_True by done.
    repeat split; try done. intros q' Hne. rewrite queues_clear. by rewrite decide_False.
  - intros f Hf Hph.
    pose proof (well_formed_reachable _ Hreach) as Hwf.
    pose proof (called_ok_reachable _ Hreach _ _ Hf (or_introl Hph)) as Hok.
    pose proof (frame_of_unique _ _ _ Hwf Hf) as Hfo.
    destruct f as [e ph]; simpl in *; subst ph.
    destruct (delivery e) as [o|] eqn:Ho;
      [|unfold delivery in Ho; by destruct (operation e)].
    assert (frame_of q (resolver e) (clear q st) = Some (mkFrame e AwaitingRun)) as Hfc.
    { unfold frame_of. by rewrite frames_clear. }
    exists o, (set_phase q (resolver e) Delivered (observe o (clear q st))).
    eexists. split; [done|]. split.
    { unfold settle. rewrite Hfc, Ho. done. }
    split; [simpl; by rewrite trace_clear|].
    split.
    { unfold continue. erewrite frame_of_set_phase; [reflexivity|].
      unfold frame_of. simpl. exact Hfc. }
    rewrite runNext_nil.
    + rewrite queues_suspend, decide_True by done.
      rewrite !queues_signal, !decide_True by done. done.
    + rewrite queues_signal, decide_True by done. simpl.
      by rewrite queues_clear, decide_True.
  - intros e evs st' He Hrun. by eapply discarded_silent.
Qed.

Lemma clear_discards_pending_only_witness :
  reachable (after running_with_pending) ∧
  operations (queues (clear 0 (after running_with_pending)) 0) = [] ∧
  frames (clear 0 (after running_with_pending)) = frames (after running_with_pending) ∧
  ∀ evs st', run evs (clear 0 (after running_with_pending)) = Some st' →
             ∀ o, o ∈ trace st' → subject o ≠ 1.
Proof.
  assert (reachable (after running_with_pending)) as Hreach
    by (exists running_with_pending; vm_compute; reflexivity).
  destruct (clear_discards_pending_only 0 (after running_with_pending) Hreach)
    as ((Hops & _) & (Hframes & _) & _ & Hsilent).
  split; [exact Hreach|]. split; [exact Hops|]. split; [exact Hframes|].
  intros evs st'. apply (Hsilent (mkEntry (Rejects "B") 1)).
  assert (operations (queues (after running_with_pending) 0)
            = [mkEntry (Rejects "B") 1; mkEntry (Returns "C") 2]) as ->
    by (vm_compute; reflexivity).
  apply list_elem_of_here.
Defined.

(** C6, as stated, fails: after [q.enqueue(A); q.clear()] the entry [A]
    has not started (nothing was observed, no operation is in flight),
    the pending list is empty and the queue is suspended, and yet [A] is
    called and its promise resolved afterwards: [clear()] does not
    discard every entry that has not started. *)
Lemma clear_keeps_dequeued_entry :
  run enqueue_then_clear initial = Some (after enqueue_then_clear) ∧
  trace (after enqueue_then_clear) = [] ∧
  in_flight 0 (after enqueue_then_clear) = [] ∧
  operations (queues (after enqueue_then_clear) 0) = [] ∧
  _suspended (queues (after enqueue_then_clear) 0) = true ∧
  run dequeued_entry_runs (after enqueue_then_clear)
    = Some (after_from (after enqueue_then_clear) dequeued_entry_runs) ∧
  trace (after_from (after enqueue_then_clear) dequeued_entry_runs)
    = [Invoked 0 0; Resolved 0 "A"].
Proof. repeat apply conj; vm_compute; reflexivity. Qed.

(** C10. The promise returned by [enqueue] for an entry that [clear()]
    discards is never settled, neither resolved nor rejected, whatever
    happens afterwards; [clear()] itself observes nothing, so the caller
    is not notified. *)
Theorem discarded_promise_never_settles q st e evs st' :
  reachable st →
  e ∈ operations (queues st q) →
  run evs (clear q st) = Some st' →
  trace (clear q st) = trace st ∧
  (∀ v, Resolved (resolver e) v ∉ trace st') ∧
  (∀ err, Rejected (resolver e) err ∉ trace st').
Proof.
  intros Hreach He Hrun. split; [apply trace_clear|].
  split; intros v Hin; by eapply (discarded_silent _ _ _ _ _ Hreach He Hrun).
Qed.

Lemma discarded_promise_never_settles_witness :
  reachable (after running_with_pending) ∧
  mkEntry (Rejects "B") 1 ∈ operations (queues (after running_with_pending) 0) ∧
  run life_after_clear (clear 0 (after running_with_pending))
    = Some (after_from (clear 0 (after running_with_pending)) life_after_clear) ∧
  (∀ v, Resolved 1 v ∉
          trace (after_from (clear 0 (after running_with_pending)) life_after_clear)) ∧
  (∀ err, Rejected 1 err ∉
            trace (after_from (clear 0 (after running_with_pending)) life_after_clear)).
Proof.
  assert (reachable (after running_with_pending)) as Hreach
    by (exists running_with_pending; vm_compute; reflexivity).
  assert (mkEntry (Rejects "B") 1 ∈ operations (queues (after running_with_pending) 0))
    as Hin.
  { assert (operations (queues (after running_with_pending) 0)
              = [mkEntry (Rejects "B") 1; mkEntry (Returns "C") 2]) as ->
      by (vm_compute; reflexivity).
    apply list_elem_of_here. }
  assert (run life_after_clear (clear 0 (after running_with_pending))
            = Some (after_from (clear 0 (after running_with_pending)) life_after_clear))
    as Hrun by (vm_compute; reflexivity).
  destruct (discarded_promise_never_settles 0 _ _ _ _ Hreach Hin Hrun) as (_ & Hres & Hrej).
  split; [exact Hreach|]. split; [exact Hin|]. split; [exact Hrun|].
  split; [exact Hres|exact Hrej].
Defined.



(** C1 (the code departs from it).  [enqueue] after [suspend()] or
    [clear()] starts a second [runNext] while the first one still holds
    its entry: both operations of the same queue are then in flight
    together. *)
Theorem second_run_loop_runs_concurrently :
  run suspend_between_enqueues initial = Some (after suspend_between_enqueues) ∧
  trace (after suspend_between_enqueues) = [Invoked 0 0; Invoked 0 1] ∧
  in_flight 0 (after suspend_between_enqueues) =
    [mkFrame (mkEntry (Fulfils "A") 0) AwaitingRun;
     mkFrame (mkEntry (Fulfils "B") 1) AwaitingRun] ∧
  run clear_between_enqueues initial = Some (after clear_between_enqueues) ∧
  in_flight 0 (after clear_between_enqueues) =
    [mkFrame (mkEntry (Fulfils "A") 0) AwaitingRun;
     mkFrame (mkEntry (Fulfils "B") 1) AwaitingRun].
Proof. repeat apply conj; vm_compute; reflexivity. Qed.

(** C2 (the code departs from it).  An operation that raises when it is
    called is called, but its error never reaches [reject]: the promise
    returned by [enqueue] is settled neither then nor at any later time.
    An operation that returns a value or a promise has its outcome
    delivered to its own promise. *)
Theorem raised_error_never_delivered :
  run raising_operation initial = Some (after raising_operation) ∧
  trace (after raising_operation) = [Invoked 0 0] ∧
  (∀ evs st', run evs (after raising_operation) = Some st' →
     ∀ o, o ∈ trace st' → subject o = 0 → o = Invoked 0 0) ∧
  (∀ q p st e st', frame_of q p st = Some (mkFrame e AwaitingRun) →
     settle q p st = Some st' →
     ∃ o, delivery e = Some o ∧ trace st' = trace st ++ [o]).
Proof.
  split; [vm_compute; reflexivity|]. split; [vm_compute; reflexivity|]. split.
  - intros evs st' Hrun o Ho Hsub.
    assert (gone 0 (after raising_operation)) as Hgone.
    { split; [vm_compute; lia|]. intros q.
      assert (owned q (after raising_operation) = match q with 0 => [1] | _ => [] end)
        as -> by (destruct q; vm_compute; reflexivity).
      destruct q; [by intros ?%list_elem_of_singleton|by intros ?%elem_of_nil]. }
    destruct (gone_run _ _ _ _ Hgone Hrun) as [_ Hold].
    specialize (Hold o Ho Hsub).
    assert (trace (after raising_operation) = [Invoked 0 0]) as Htr
      by (vm_compute; reflexivity).
    rewrite Htr in Hold. by apply list_elem_of_singleton in Hold.
  - intros q p st e st' Hfo Hstep.
    pose proof (step_trace (Settle q p) _ _ Hstep) as Htr. simpl in Htr.
    rewrite Hfo in Htr. simpl in Htr.
    unfold settle in Hstep. rewrite Hfo in Hstep.
    destruct (delivery e) as [o|]; [|done]. by exists o.
Qed.

(** C3 (the code departs from it).  When an operation raises as it is
    called, the invocation of [runNext] that called it ends there: the
    entry behind it stays in the pending list, the queue stays marked as
    running with both gates closed, no run loop is left to take a
    transition, and a later [enqueue] does not start one.  Had the
    operation returned, the entry behind it would have been called. *)
Theorem raised_error_aborts_run_loop :
  run raising_operation initial = Some (after raising_operation) ∧
  (∀ q, frames (after raising_operation) q = []) ∧
  operations (queues (after raising_operation) 0) = [mkEntry (Returns "next") 1] ∧
  _suspended (queues (after raising_operation) 0) = false ∧
  isSignalled (currentSemaphore (queues (after raising_operation) 0)) = false ∧
  isSignalled (allSemaphore (queues (after raising_operation) 0)) = false ∧
  (∀ q p, dependenciesDone q p (after raising_operation) = None ∧
          settle q p (after raising_operation) = None ∧
          continue q p (after raising_operation) = None ∧
          ∀ w, subscribe q p w (after raising_operation) = None) ∧
  (∀ op, frames (enqueue 0 op (after raising_operation)) 0 = []) ∧
  run returning_operation initial = Some (after returning_operation) ∧
  trace (after returning_operation) = [Invoked 0 0; Resolved 0 "fine"; Invoked 0 1].
Proof.
  assert (∀ q, frames (after raising_operation) q = []) as Hframes.
  { intros q. destruct q; vm_compute; reflexivity. }
  split; [vm_compute; reflexivity|]. split; [done|].
  do 4 (split; [vm_compute; reflexivity|]).
  split; [|split; [|apply conj; vm_compute; reflexivity]].
  - intros q p. unfold dependenciesDone, settle, continue, subscribe, frame_of.
    by rewrite Hframes.
  - intros op. vm_compute. reflexivity.
Qed.

(** C4 (the code departs from it).  [suspend()] leaves the operation in
    flight alone, but it does not hold back the next entry: [runNext]
    never looks at the flag, so after the running operation finishes the
    next pending entry is dequeued and called while the queue is
    suspended. *)
Theorem suspended_queue_runs_next_entry :
  (∀ q st, frames (suspend q st) = frames st ∧ trace (suspend q st) = trace st) ∧
  run suspend_while_running initial = Some (after suspend_while_running) ∧
  _suspended (queues (after suspend_while_running) 0) = true ∧
  trace (after suspend_while_running) = [Invoked 0 0; Resolved 0 "A"; Invoked 0 1] ∧
  in_flight 0 (after suspend_while_running) =
    [mkFrame (mkEntry (Fulfils "B") 1) AwaitingRun].
Proof.
  split; [|repeat apply conj; vm_compute; reflexivity].
  intros q st. split; [apply frames_suspend|].
  by destruct (quiet_suspend q st) as (_ & ? & _).
Qed.

(** C5 (the code departs from it).  A new queue has both gates
    signalled, but [resume()] on a queue that was suspended while its
    operation runs finds the pending list empty and signals the all gate
    with that operation still in flight. *)
Theorem all_gate_open_with_operation_in_flight :
  isSignalled (currentSemaphore new_OperationQueue) = true ∧
  isSignalled (allSemaphore new_OperationQueue) = true ∧
  run resume_while_running initial = Some (after resume_while_running) ∧
  isSignalled (allSemaphore (queues (after resume_while_running) 0)) = true ∧
  in_flight 0 (after resume_while_running) =
    [mkFrame (mkEntry (Fulfils "A") 0) AwaitingRun].
Proof. repeat apply conj; vm_compute; reflexivity. Qed.

(** * Runs without [clear], [suspend] and [resume] *)

Lemma set_dependencies_id Q : set_dependencies (dependencies Q) Q = Q.
Proof. by destruct Q. Qed.

Lemma queues_addDependency x y m st q :
  ∃ d, queues (addDependency x y m st) q = set_dependencies d (queues st q).
Proof.
  unfold addDependency. cbv zeta.
  case_decide; rewrite !queues_set_queue; repeat case_decide; subst;
    rewrite ?queues_set_queue, ?decide_True by done;
    first [by eexists | by exists (dependencies (queues st q)); rewrite set_dependencies_id].
Qed.

Lemma orderly_initial : orderly initial.
Proof. intros q. simpl. repeat split; auto. Qed.

Lemma length_filter_le {A} (P : A → Prop) `{∀ x, Decision (P x)} (l : list A) :
  length (filter P l) ≤ length l.
Proof. apply sublist_length, sublist_filter. Qed.

Lemma frame_of_le1 x p st f :
  length (frames st x) ≤ 1 → frame_of x p st = Some f →
  frames st x = [f] ∧ holds p f.
Proof.
  intros Hlen Hfo. unfold frame_of in Hfo.
  destruct (frames st x) as [|f0 [|f1 fs]]; simpl in *; [done| |lia].
  rewrite filter_cons, filter_nil in Hfo. case_decide; by simplify_eq/=.
Qed.

Lemma orderly_step ev st st' :
  plain ev → orderly st → step ev st = Some st' → orderly st'.
Proof.
  intros Hplain Hord Hstep q. destruct (Hord q) as (Hlen & Hcur & Hall & Hsusp).
  destruct ev as [x y m|x op|x|x|x|x p w|x p|x p|x p]; simpl in *; try done; simplify_eq.
  - (* addDependency *)
    rewrite frames_addDependency.
    destruct (queues_addDependency x y m st q) as [d ->]. done.
  - (* enqueue *)
    unfold enqueue, push.
    set (e := mkEntry op (nextPromise st)).
    set (st2 := set_queue x _ _).
    assert (∀ q', queues st2 q' =
              if decide (x = q') then set_operations (operations (queues st x) ++ [e])
                                        (queues st x)
              else queues st q') as Hq2 by done.
    assert (frames st2 = frames st) as Hf2 by done.
    destruct (_suspended (queues st x)) eqn:Hs.
    + rewrite resume_suspended by (by rewrite Hq2, decide_True).
      set (st3 := set_queue x _ st2).
      destruct (Hord x) as (_ & _ & _ & Hsx). destruct (Hsx Hs) as [Hfx Hox].
      assert (operations (queues st3 x) = [e]) as Hops3.
      { unfold st3. rewrite queues_set_queue, decide_True by done.
        rewrite Hq2, decide_True by done. simpl. by rewrite Hox. }
      assert (frames st3 = frames st) as Hf3 by done.
      assert (∀ q', q' ≠ x → queues st3 q' = queues st q') as Hq3.
      { intros q' Hne. unfold st3. rewrite queues_set_queue, decide_False by done.
        by rewrite Hq2, decide_False. }
      destruct (runNext_cons _ _ _ _ Hops3) as (ws & Hfr & Hother & Hq & _).
      rewrite Hq. destruct (decide (x = q)) as [->|Hne].
      * assert (_suspended (queues st3 q) = false) as Hs3.
        { unfold st3. by rewrite queues_set_queue, decide_True. }
        rewrite Hfr, Hf3, Hfx, Hs3. simpl. split; [lia|]. done.
      * rewrite Hother, Hf3, Hq3 by done. done.
    + rewrite resume_running by (by rewrite Hq2, decide_True).
      rewrite Hq2, Hf2. destruct (decide (x = q)) as [->|Hne]; [|done].
      simpl. rewrite Hs in *. done.
  - (* subscribe *)
    destruct (subscribe_Some _ _ _ _ _ Hstep) as (e & ws & _ & _ & -> & _ & _ & Hf).
    rewrite Hf. destruct (decide (x = q)) as [->|Hne]; [|done].
    rewrite length_fmap. repeat split; try done.
    + by destruct (Hsusp H) as [-> _].
    + by apply Hsusp.
  - (* dependenciesDone *)
    unfold dependenciesDone in Hstep.
    destruct (frame_of x p st) as [[e [[|]| |]]|] eqn:Hfo; simplify_eq.
    destruct (operation e); simplify_eq; simpl;
      (destruct (decide (x = q)) as [->|Hne];
       [rewrite fn_insert_at, decide_True by done
       |by rewrite fn_insert_at, decide_False by done]).
    + split; [etrans; [apply length_filter_le|done]|]. repeat split; try done.
      * by destruct (Hsusp H) as [-> _].
      * by apply Hsusp.
    + rewrite length_fmap. repeat split; try done.
      * by destruct (Hsusp H) as [-> _].
      * by apply Hsusp.
    + rewrite length_fmap. repeat split; try done.
      * by destruct (Hsusp H) as [-> _].
      * by apply Hsusp.
    + rewrite length_fmap. repeat split; try done.
      * by destruct (Hsusp H) as [-> _].
      * by apply Hsusp.
  - (* settle *)
    unfold settle in Hstep.
    destruct (frame_of x p st) as [[e [| |]]|] eqn:Hfo; simplify_eq.
    destruct (delivery e); simplify_eq/=.
    destruct (decide (x = q)) as [->|Hne];
      [rewrite fn_insert_at, decide_True by done
      |by rewrite fn_insert_at, decide_False by done].
    rewrite length_fmap. repeat split; try done.
    + by destruct (Hsusp H) as [-> _].
    + by apply Hsusp.
  - (* continue *)
    unfold continue in Hstep.
    destruct (frame_of x p st) as [[e [| |]]|] eqn:Hfo; simplify_eq.
    destruct (Hord x) as (Hlenx & Hcurx & Hallx & Hsuspx).
    destruct (frame_of_le1 _ _ _ _ Hlenx Hfo) as [Hfx Hh].
    assert (_suspended (queues st x) = false) as Hsx.
    { destruct (_suspended (queues st x)); [|done].
      destruct (Hsuspx eq_refl) as [Hnil _]. by rewrite Hnil in Hfx. }
    set (st2 := signal x Current (drop_frame x p st)).
    assert (frames st2 x = []) as Hf2.
    { unfold st2. rewrite frames_signal. simpl.
      rewrite fn_insert_at, decide_True by done.
      rewrite Hfx, filter_cons, decide_False, filter_nil; [done|]. by intros Hn. }
    assert (∀ q', q' ≠ x → frames st2 q' = release (x, Current) <$> frames st q') as Hf2'.
    { intros q' Hne. unfold st2. rewrite frames_signal. simpl.
      by rewrite fn_insert_at, decide_False. }
    assert (∀ q', queues st2 q' =
              if decide (x = q') then set_semaphore Current (mkSemaphore true) (queues st x)
              else queues st q') as Hq2 by done.
    destruct (operations (queues st x)) as [|e' rest] eqn:Hops.
    + rewrite runNext_nil by (by rewrite Hq2, decide_True).
      rewrite frames_suspend, frames_signal.
      destruct (decide (x = q)) as [->|Hne].
      * rewrite Hf2. rewrite queues_suspend, decide_True by done.
        rewrite queues_signal, decide_True by done.
        rewrite Hq2, decide_True by done. simpl. split; [lia|]. done.
      * rewrite Hf2' by done. rewrite queues_suspend, decide_False by done.
        rewrite queues_signal, decide_False by done.
        rewrite Hq2, decide_False by done. rewrite !length_fmap.
        repeat split; try done.
        -- by destruct (Hsusp H) as [-> _].
        -- by apply Hsusp.
    + assert (operations (queues st2 x) = e' :: rest) as Hops2.
      { by rewrite Hq2, decide_True. }
      destruct (runNext_cons _ _ _ _ Hops2) as (ws & Hfr & Hother & Hq & _).
      rewrite Hq. destruct (decide (x = q)) as [->|Hne].
      * rewrite Hfr, Hf2, Hq2, decide_True by done. simpl. rewrite Hsx.
        split; [lia|]. done.
      * rewrite Hother, Hf2', Hq2, decide_False by done. rewrite length_fmap.
        repeat split; try done.
        -- by destruct (Hsusp H) as [-> _].
        -- by apply Hsusp.
Qed.

(** ** What [enqueue] and a resuming [runNext] do to a queue *)

Lemma enqueue_running x op st :
  _suspended (queues st x) = false →
  frames (enqueue x op st) = frames st ∧
  trace (enqueue x op st) = trace st ∧
  nextPromise (enqueue x op st) = S (nextPromise st) ∧
  ∀ q, queues (enqueue x op st) q =
         if decide (x = q)
         then set_operations (operations (queues st x) ++ [mkEntry op (nextPromise st)])
                             (queues st x)
         else queues st q.
Proof.
  intros Hs. unfold enqueue, push. set (st2 := set_queue x _ _).
  rewrite resume_running by (unfold st2; by rewrite queues_set_queue, decide_True).
  done.
Qed.

Lemma enqueue_suspended x op st :
  _suspended (queues st x) = true →
  ∃ e rest ws,
    operations (queues st x) ++ [mkEntry op (nextPromise st)] = e :: rest ∧
    frames (enqueue x op st) x = frames st x ++ [mkFrame e (AwaitingDependencies ws)] ∧
    (∀ q, q ≠ x → frames (enqueue x op st) q = frames st q) ∧
    trace (enqueue x op st) = trace st ∧
    nextPromise (enqueue x op st) = S (nextPromise st) ∧
    ∀ q, queues (enqueue x op st) q =
           if decide (x = q)
           then mkQueue (dependencies (queues st x)) rest false
                        (mkSemaphore false) (mkSemaphore false)
           else queues st q.
Proof.
  intros Hs. unfold enqueue, push.
  set (e0 := mkEntry op (nextPromise st)).
  set (st2 := set_queue x _ _).
  rewrite resume_suspended by (unfold st2; by rewrite queues_set_queue, decide_True).
  set (st3 := set_queue x _ st2).
  destruct (operations (queues st x) ++ [e0]) as [|e rest] eqn:Hops.
  { by destruct (operations (queues st x)). }
  assert (operations (queues st3 x) = e :: rest) as Hops3.
  { unfold st3, st2. by rewrite !queues_set_queue, !decide_True. }
  destruct (runNext_cons _ _ _ _ Hops3) as (ws & Hfr & Hother & Hq & Hn & Ht & _).
  exists e, rest, ws. split; [done|]. split; [by rewrite Hfr|]. split; [done|].
  split; [done|]. split; [done|].
  intros q. rewrite Hq. case_decide; [|unfold st3, st2; by rewrite !queues_set_queue, !decide_False].
  unfold st3, st2. by rewrite !queues_set_queue, !decide_True.
Qed.

Lemma continue_nil x p st st' :
  continue x p st = Some st' → operations (queues st x) = [] →
  (∀ q, frames st' q =
          release (x, All) <$> (release (x, Current) <$>
            (if decide (x = q) then filter (λ f, ¬ holds p f) (frames st q)
             else frames st q))) ∧
  trace st' = trace st ∧ nextPromise st' = nextPromise st ∧
  ∀ q, queues st' q =
         if decide (x = q)
         then mkQueue (dependencies (queues st x)) [] true
                      (mkSemaphore true) (mkSemaphore true)
         else queues st q.
Proof.
  intros Hstep Hops. unfold continue in Hstep.
  destruct (frame_of x p st) as [[e [| |]]|]; try done. injection Hstep as <-.
  rewrite runNext_nil by (by rewrite queues_signal, decide_True, operations_set_semaphore).
  split; [|split; [|split]].
  - intros q. rewrite frames_suspend, !frames_signal. simpl.
    rewrite fn_insert_at. case_decide; by subst.
  - by destruct (quiet_suspend x (signal x All (signal x Current (drop_frame x p st))))
      as (_ & -> & _).
  - by destruct (quiet_suspend x (signal x All (signal x Current (drop_frame x p st))))
      as (-> & _).
  - intros q. rewrite queues_suspend. case_decide.
    + rewrite !queues_signal, !decide_True by done. simpl. by rewrite Hops.
    + by rewrite !queues_signal, !decide_False.
Qed.

Lemma continue_cons x p st st' e rest :
  continue x p st = Some st' → operations (queues st x) = e :: rest →
  ∃ ws,
    frames st' x =
      (release (x, Current) <$> filter (λ f, ¬ holds p f) (frames st x)) ++
      [mkFrame e (AwaitingDependencies ws)] ∧
    (∀ q, q ≠ x → frames st' q = release (x, Current) <$> frames st q) ∧
    trace st' = trace st ∧ nextPromise st' = nextPromise st ∧
    ∀ q, queues st' q =
           if decide (x = q)
           then mkQueue (dependencies (queues st x)) rest (_suspended (queues st x))
                        (mkSemaphore false) (mkSemaphore false)
           else queues st q.
Proof.
  intros Hstep Hops. unfold continue in Hstep.
  destruct (frame_of x p st) as [[e0 [| |]]|]; try done. injection Hstep as <-.
  set (st2 := signal x Current (drop_frame x p st)).
  assert (operations (queues st2 x) = e :: rest) as Hops2.
  { unfold st2. by rewrite queues_signal, decide_True, operations_set_semaphore. }
  destruct (runNext_cons _ _ _ _ Hops2) as (ws & Hfr & Hother & Hq & Hn & Ht & _).
  exists ws. split; [|split; [|split; [|split]]]; try done.
  - rewrite Hfr. unfold st2. rewrite frames_signal. simpl.
    by rewrite fn_insert_at, decide_True.
  - intros q Hne. rewrite Hother by done. unfold st2. rewrite frames_signal. simpl.
    by rewrite fn_insert_at, decide_False.
  - intros q. rewrite Hq. case_decide; [|unfold st2; by rewrite queues_signal, decide_False].
    unfold st2. by rewrite queues_signal, decide_True.
Qed.

Lemma dependenciesDone_frames x p st st' :
  dependenciesDone x p st = Some st' →
  ∃ e, frame_of x p st = Some (mkFrame e (AwaitingDependencies [])) ∧
       queues st' = queues st ∧ nextPromise st' = nextPromise st ∧
       trace st' = trace st ++ [Invoked x p] ∧
       ∀ q, frames st' q =
              if decide (x = q)
              then if decide (throws (operation e))
                   then filter (λ f, ¬ holds p f) (frames st x)
                   else (λ f, if decide (holds p f) then mkFrame (entry f) AwaitingRun
                              else f) <$> frames st x
              else frames st q.
Proof.
  unfold dependenciesDone.
  destruct (frame_of x p st) as [[e [[|]| |]]|]; try done.
  intros Hstep. exists e. split; [done|].
  destruct (operation e) eqn:Hop; simplify_eq; simpl;
    (do 3 (split; [done|]); intros q; rewrite fn_insert_at; case_decide; by subst).
Qed.

Lemma settle_frames x p st st' :
  settle x p st = Some st' →
  ∃ e o, frame_of x p st = Some (mkFrame e AwaitingRun) ∧ delivery e = Some o ∧
         queues st' = queues st ∧ nextPromise st' = nextPromise st ∧
         trace st' = trace st ++ [o] ∧
         ∀ q, frames st' q =
                if decide (x = q)
                then (λ f, if decide (holds p f) then mkFrame (entry f) Delivered
                           else f) <$> frames st x
                else frames st q.
Proof.
  unfold settle.
  destruct (frame_of x p st) as [[e [| |]]|]; try done.
  destruct (delivery e) as [o|] eqn:Ho; [|done]. simpl. intros [= <-].
  exists e, o. do 5 (split; [done|]).
  intros q. simpl. rewrite fn_insert_at. case_decide; by subst.
Qed.

(** ** Operations are called in the order they were enqueued *)

Lemma waiting_ids_release w (fs : list Frame) :
  (λ f, resolver (entry f)) <$> filter is_waiting (release w <$> fs)
  = (λ f, resolver (entry f)) <$> filter is_waiting fs.
Proof.
  induction fs as [|f fs IH]; [done|].
  rewrite fmap_cons, !filter_cons.
  assert (is_waiting (release w f) ↔ is_waiting f) as Hiff.
  { unfold is_waiting, release. destruct (phase f) eqn:Hph; simpl; by rewrite ?Hph. }
  destruct (decide (is_waiting f)) as [Hw|Hw].
  - rewrite decide_True by (by apply Hiff). rewrite !fmap_cons, release_entry. by f_equal.
  - rewrite decide_False by (by rewrite Hiff). done.
Qed.

Lemma waiting_ids_reach p w b (fs : list Frame) :
  (λ f, resolver (entry f)) <$>
    filter is_waiting ((λ f, if decide (holds p f) then reach w b f else f) <$> fs)
  = (λ f, resolver (entry f)) <$> filter is_waiting fs.
Proof.
  induction fs as [|f fs IH]; [done|].
  rewrite fmap_cons, !filter_cons.
  set (f' := if decide (holds p f) then reach w b f else f).
  assert (entry f' = entry f) as He.
  { unfold f'. case_decide; by rewrite ?reach_entry. }
  assert (is_waiting f' ↔ is_waiting f) as Hiff.
  { unfold f'. case_decide; [|done]. unfold is_waiting.
    destruct (reach_phase w b f) as [->|(ws1 & ws2 & -> & ->)]; done. }
  destruct (decide (is_waiting f)) as [Hw|Hw].
  - rewrite decide_True by (by apply Hiff). rewrite !fmap_cons, He. by f_equal.
  - rewrite decide_False by (by rewrite Hiff). done.
Qed.

Lemma invoked_ids_snoc q tr o :
  invoked_ids q (tr ++ [o]) =
    invoked_ids q tr ++
    match o with
    | Invoked q' p => if decide (q' = q) then [p] else []
    | _ => []
    end.
Proof.
  unfold invoked_ids. rewrite omap_app. f_equal.
  destruct o; simpl; try done. by case_decide.
Qed.

Lemma delivery_not_invoked q e o :
  delivery e = Some o → invoked_ids q [o] = [].
Proof. unfold delivery. destruct (operation e); intros; by simplify_eq. Qed.

Lemma filter_not_holds p f : holds p f → filter (λ f, ¬ holds p f) [f] = [].
Proof. intros Hh. rewrite filter_cons, filter_nil, decide_False; [done|]. by intros Hn. Qed.

Lemma set_phase_single p ph f :
  holds p f →
  (λ f, if decide (holds p f) then mkFrame (entry f) ph else f) <$> [f]
  = [mkFrame (entry f) ph].
Proof. intros Hh. simpl. by rewrite decide_True. Qed.

Lemma schedule_step ev st st' q :
  plain ev → orderly st → step ev st = Some st' →
  schedule q st' = schedule q st ∨ schedule q st' = schedule q st ++ [nextPromise st].
Proof.
  intros Hplain Hord Hstep. unfold schedule, waiting_ids, pending_ids.
  destruct ev as [x y m|x op|x|x|x|x p w|x p|x p|x p]; simpl in *; try done; simplify_eq.
  - left. rewrite frames_addDependency.
    destruct (queues_addDependency x y m st q) as [d ->].
    by destruct (quiet_addDependency x y m st) as (_ & -> & _).
  - destruct (_suspended (queues st x)) eqn:Hs.
    + destruct (Hord x) as (_ & _ & _ & Hsx). destruct (Hsx Hs) as [Hfx Hox].
      destruct (enqueue_suspended x op st Hs)
        as (e & rest & ws & Hops & Hfr & Hother & -> & _ & Hq).
      rewrite Hox in Hops. simpl in Hops. simplify_eq. rewrite Hq.
      destruct (decide (x = q)) as [->|Hne]; [|left; by rewrite Hother].
      right. rewrite Hfr, Hfx, Hox. simpl. by rewrite !app_nil_r.
    + destruct (enqueue_running x op st Hs) as (-> & -> & _ & Hq). rewrite Hq.
      destruct (decide (x = q)) as [->|Hne]; [|by left].
      right. simpl. rewrite fmap_app. simpl. by rewrite !(assoc (++)).
  - destruct (subscribe_Some _ _ _ _ _ Hstep) as (e & ws & _ & _ & -> & _ & -> & Hfr).
    left. rewrite Hfr. destruct (decide (x = q)) as [->|Hne]; [|done].
    by rewrite waiting_ids_reach.
  - destruct (dependenciesDone_frames _ _ _ _ Hstep) as (e & Hfo & -> & _ & -> & Hfr).
    left. rewrite Hfr, invoked_ids_snoc.
    destruct (decide (x = q)) as [->|Hne]; [|by rewrite app_nil_r].
    destruct (Hord q) as (Hlen & _).
    destruct (frame_of_le1 _ _ _ _ Hlen Hfo) as [Hfq Hh]. rewrite Hfq.
    rewrite <- !(assoc (++)). f_equal.
    rewrite (filter_not_holds _ _ Hh), (set_phase_single _ _ _ Hh).
    unfold holds in Hh. simpl in Hh. subst p. by case_decide.
  - destruct (settle_frames _ _ _ _ Hstep) as (e & o & Hfo & Ho & -> & _ & -> & Hfr).
    left. rewrite Hfr. unfold invoked_ids. rewrite omap_app.
    fold (invoked_ids q [o]). rewrite (delivery_not_invoked _ _ _ Ho), app_nil_r.
    destruct (decide (x = q)) as [->|Hne]; [|done].
    destruct (Hord q) as (Hlen & _).
    destruct (frame_of_le1 _ _ _ _ Hlen Hfo) as [Hfq Hh]. rewrite Hfq.
    by rewrite (set_phase_single _ _ _ Hh).
  - left.
    assert (∃ e, frame_of x p st = Some (mkFrame e Delivered)) as [e0 Hfo].
    { unfold continue in Hstep. destruct (frame_of x p st) as [[e [| |]]|]; try done.
      by exists e. }
    destruct (Hord x) as (Hlen & _).
    destruct (frame_of_le1 _ _ _ _ Hlen Hfo) as [Hfx Hh].
    destruct (operations (queues st x)) as [|e rest] eqn:Hops.
    + destruct (continue_nil _ _ _ _ Hstep Hops) as (Hfr & -> & _ & Hq).
      rewrite Hfr, Hq, !waiting_ids_release.
      destruct (decide (x = q)) as [->|Hne]; [|done].
      by rewrite Hfx, Hops, (filter_not_holds _ _ Hh).
    + destruct (continue_cons _ _ _ _ _ _ Hstep Hops) as (ws & Hfr & Hother & -> & _ & Hq).
      rewrite Hq. destruct (decide (x = q)) as [->|Hne].
      * by rewrite Hfr, Hfx, Hops, (filter_not_holds _ _ Hh).
      * by rewrite Hother, waiting_ids_release.
Qed.

Lemma plain_run_ind (P : State → Prop) :
  P initial →
  (∀ ev st st', plain ev → reachable st → orderly st → P st →
                step ev st = Some st' → P st') →
  ∀ evs st, Forall plain evs → run evs initial = Some st → orderly st ∧ P st.
Proof.
  intros Hinit Hstep evs.
  induction evs as [|ev evs IH] using rev_ind; intros st Hplain Hrun.
  - simplify_eq/=. split; [apply orderly_initial|done].
  - apply Forall_app in Hplain as [Hevs Hev]. rewrite Forall_singleton in Hev.
    rewrite run_app in Hrun. destruct (run evs initial) as [st1|] eqn:H1; [|done].
    simpl in Hrun. destruct (step ev st1) as [st2|] eqn:H2; simplify_eq/=.
    destruct (IH st1 Hevs eq_refl) as [Hord HP]. split.
    + by eapply orderly_step.
    + eapply Hstep; [done| |done..]. by exists evs.
Qed.

Lemma ascending_nil : ascending [].
Proof. intros i j p p' _ Hi. by rewrite lookup_nil in Hi. Qed.

Lemma ascending_snoc l n :
  ascending l → (∀ p, p ∈ l → p < n) → ascending (l ++ [n]).
Proof.
  intros Hasc Hlt i j p p' Hij Hi Hj.
  assert (j < length (l ++ [n])) as Hjlen by (by eapply lookup_lt_Some).
  rewrite length_app in Hjlen. simpl in Hjlen.
  rewrite lookup_app_l in Hi by lia.
  destruct (decide (j < length l)) as [Hjl|Hjl].
  - rewrite lookup_app_l in Hj by done. by apply (Hasc i j p p').
  - rewrite lookup_app_r in Hj by lia.
    replace (j - length l) with 0 in Hj by lia. simplify_eq/=.
    apply Hlt. by eapply list_elem_of_lookup_2.
Qed.

Lemma ascending_app_l l k : ascending (l ++ k) → ascending l.
Proof.
  intros Hasc i j p p' Hij Hi Hj.
  apply (Hasc i j); [done|by apply lookup_app_l_Some..].
Qed.

Lemma invoked_ids_elem q tr p :
  p ∈ invoked_ids q tr ↔ Invoked q p ∈ tr.
Proof.
  unfold invoked_ids. rewrite list_elem_of_omap. split.
  - intros (o & Ho & Heq). destruct o; try done. case_decide; by simplify_eq.
  - intros Hin. exists (Invoked q p). split; [done|]. by rewrite decide_True.
Qed.

Lemma schedule_bound q st p :
  well_formed st → p ∈ schedule q st → p < nextPromise st.
Proof.
  intros (Hlt & _ & _ & Htr & _). unfold schedule.
  intros [Hin|[Hin|Hin]%elem_of_app]%elem_of_app.
  - apply invoked_ids_elem in Hin. by apply Htr in Hin.
  - apply (Hlt q). apply elem_of_app. right. unfold waiting_ids in Hin.
    apply list_elem_of_fmap in Hin as (f & -> & [_ Hf]%list_elem_of_filter).
    by apply (list_elem_of_fmap_2 (λ f, resolver (entry f))).
  - apply (Hlt q). apply elem_of_app. by left.
Qed.

Lemma plain_run_ascending evs st :
  Forall plain evs → run evs initial = Some st →
  orderly st ∧ ∀ q, ascending (schedule q st).
Proof.
  apply (plain_run_ind (λ st, ∀ q, ascending (schedule q st))).
  - intros q. apply ascending_nil.
  - intros ev s s' Hplain Hreach Hord Hasc Hstep q.
    destruct (schedule_step ev s s' q Hplain Hord Hstep) as [-> | ->]; [done|].
    apply ascending_snoc; [done|].
    intros p. apply schedule_bound. by apply well_formed_reachable.
Qed.

(** X1. In a run without [clear], [suspend] and [resume], every queue has
    at most one suspended invocation of [runNext], hence at most one
    dequeued entry and at most one operation in flight. *)
Theorem plain_run_one_at_a_time evs st q :
  Forall plain evs → run evs initial = Some st →
  length (frames st q) ≤ 1 ∧ length (in_flight q st) ≤ 1.
Proof.
  intros Hplain Hrun.
  destruct (plain_run_ascending _ _ Hplain Hrun) as [Hord _].
  destruct (Hord q) as (Hlen & _). split; [done|].
  unfold in_flight. etrans; [apply length_filter_le|done].
Qed.

(** X2. In a run without [clear], [suspend] and [resume] the operations
    of a queue are called in the order in which they were enqueued
    (promises are numbered in the order of the [enqueue] calls), and the
    entry that is dequeued and the pending entries follow in that order. *)
Theorem plain_run_fifo evs st q :
  Forall plain evs → run evs initial = Some st →
  ascending (invoked_ids q (trace st)) ∧
  ascending (invoked_ids q (trace st) ++ waiting_ids q st ++ pending_ids q st).
Proof.
  intros Hplain Hrun.
  destruct (plain_run_ascending _ _ Hplain Hrun) as [_ Hasc].
  split; [|apply Hasc]. eapply ascending_app_l, Hasc.
Qed.

(** X3. In a run without [clear], [suspend] and [resume], the two gates
    of a queue are open exactly when the queue is not running, and then
    no entry is pending or dequeued: the semaphore that [all()] returns
    is signalled, and [current()] returns at once, exactly in the states
    in which the queue has drained. *)
Theorem plain_run_gates evs st q :
  Forall plain evs → run evs initial = Some st →
  (is_open (all q) st = true ↔ isRunning q st = false) ∧
  (is_open (q, Current) st = true ↔ isRunning q st = false) ∧
  (current q st = None ↔ isRunning q st = false) ∧
  (isRunning q st = false →
     frames st q = [] ∧ operations (queues st q) = []).
Proof.
  intros Hplain Hrun.
  destruct (plain_run_ascending _ _ Hplain Hrun) as [Hord _].
  destruct (Hord q) as (_ & Hcur & Hall & Hsusp).
  unfold is_open, all, current, await_semaphore, isRunning. simpl. rewrite Hcur, Hall.
  destruct (_suspended (queues st q)); simpl.
  - do 3 (split; [done|]). intros _. by apply Hsusp.
  - do 3 (split; [by split|]). done.
Qed.

(** * Where the frames and the pending entries of a state come from *)

Lemma stage_release w f : stage (release w f) = stage f.
Proof. unfold stage, release. destruct (phase f) eqn:Hph; simpl; by rewrite ?Hph. Qed.

Lemma stage_reach w b f : stage (reach w b f) = stage f.
Proof.
  unfold stage. by destruct (reach_phase w b f) as [->|(ws1 & ws2 & -> & ->)].
Qed.

Lemma runNext_origin x st q f' :
  f' ∈ frames (runNext x st) q →
  (∃ f, f ∈ frames st q ∧ entry f = entry f' ∧ stage f' = stage f) ∨
  (q = x ∧ stage f' = 0 ∧ ∃ rest, operations (queues st x) = entry f' :: rest).
Proof.
  destruct (operations (queues st x)) as [|e rest] eqn:Hops.
  - rewrite runNext_nil by done. rewrite frames_suspend, frames_signal.
    intros (f & -> & Hf)%list_elem_of_fmap. left. exists f.
    by rewrite release_entry, stage_release.
  - destruct (runNext_cons _ _ _ _ Hops) as (ws & Hfr & Hother & _).
    destruct (decide (q = x)) as [->|Hne].
    + rewrite Hfr. intros [Hf|Hf]%elem_of_app; [left; by exists f'|].
      apply list_elem_of_singleton in Hf as ->. right. simpl. eauto.
    + rewrite Hother by done. intros Hf. left. by exists f'.
Qed.

Lemma runNext_pending x st q e :
  e ∈ operations (queues (runNext x st) q) → e ∈ operations (queues st q).
Proof.
  destruct (operations (queues st x)) as [|e' rest] eqn:Hops.
  - rewrite runNext_nil by done. rewrite queues_suspend.
    destruct (decide (x = q)) as [->|Hne].
    + unfold set_suspended. cbn [operations].
      by rewrite queues_signal, decide_True, operations_set_semaphore.
    + by rewrite queues_signal, decide_False.
  - destruct (runNext_cons _ _ _ _ Hops) as (ws & _ & _ & Hq & _). rewrite Hq.
    case_decide; subst; simpl; [|done]. rewrite Hops. by right.
Qed.

Lemma step_pending_origin ev st st' q e :
  step ev st = Some st' → e ∈ operations (queues st' q) →
  e ∈ operations (queues st q) ∨
  ∃ op, ev = Enqueue q op ∧ e = mkEntry op (nextPromise st).
Proof.
  destruct ev as [x y m|x op|x|x|x|x p w|x p|x p|x p]; simpl; intros Hstep; simplify_eq.
  - destruct (queues_addDependency x y m st q) as [d ->]. by left.
  - unfold enqueue, push, resume. case_match.
    + rewrite queues_set_queue. case_decide; [subst|by left]. simpl.
      intros [He|He]%elem_of_app; [by left|right].
      apply list_elem_of_singleton in He. by exists op.
    + intros He%runNext_pending. revert He. rewrite !queues_set_queue.
      destruct (decide (x = q)) as [->|Hne]; [|by left].
      rewrite ?decide_True by done. simpl.
      intros [He|He]%elem_of_app; [by left|right].
      apply list_elem_of_singleton in He. by exists op.
  - rewrite queues_clear. case_decide; [subst|by left]. simpl. by intros ?%elem_of_nil.
  - rewrite queues_suspend. case_decide; subst; by left.
  - unfold resume. case_match; [by left|].
    intros He%runNext_pending. revert He. rewrite queues_set_queue.
    case_decide; subst; by left.
  - destruct (subscribe_Some _ _ _ _ _ Hstep) as (e0 & ws & _ & _ & -> & _). by left.
  - destruct (dependenciesDone_frames _ _ _ _ Hstep) as (e0 & _ & -> & _). by left.
  - destruct (settle_frames _ _ _ _ Hstep) as (e0 & o & _ & _ & -> & _). by left.
  - unfold continue in Hstep.
    destruct (frame_of x p st) as [[e0 [| |]]|]; try done. injection Hstep as <-.
    intros He%runNext_pending. revert He. rewrite queues_signal.
    case_decide; subst; rewrite ?operations_set_semaphore; by left.
Qed.

Lemma step_frames_origin ev st st' q f' :
  step ev st = Some st' → f' ∈ frames st' q →
  (∃ f, f ∈ frames st q ∧ entry f = entry f' ∧ advance ev q f f') ∨
  (stage f' = 0 ∧
   (entry f' ∈ operations (queues st q) ∨
    ∃ op, ev = Enqueue q op ∧ entry f' = mkEntry op (nextPromise st))).
Proof.
  destruct ev as [x y m|x op|x|x|x|x p w|x p|x p|x p]; simpl; intros Hstep; simplify_eq.
  - rewrite frames_addDependency. intros Hf. left. by exists f'.
  - unfold enqueue, push, resume. case_match; [intros Hf; left; by exists f'|].
    intros [Hf|(-> & H0 & rest & Hops)]%runNext_origin; [by left|].
    right. split; [done|]. revert Hops.
    rewrite !queues_set_queue, !decide_True by done. simpl.
    destruct (operations (queues st x)) as [|e0 ops] eqn:Hops0; simpl.
    + intros [= <- _]. right. by exists op.
    + intros [= <- _]. left. by left.
  - rewrite frames_clear. intros Hf. left. by exists f'.
  - rewrite frames_suspend. intros Hf. left. by exists f'.
  - unfold resume. case_match; [intros Hf; left; by exists f'|].
    intros [Hf|(-> & H0 & rest & Hops)]%runNext_origin; [by left|].
    right. split; [done|]. left. revert Hops.
    rewrite queues_set_queue, decide_True by done. simpl. intros ->. by left.
  - destruct (subscribe_Some _ _ _ _ _ Hstep) as (e0 & ws & _ & _ & _ & _ & _ & Hfr).
    rewrite Hfr. destruct (decide (x = q)) as [<-|Hq]; [|intros Hf; left; by exists f'].
    intros (f & -> & Hf)%list_elem_of_fmap. left. exists f. simpl.
    case_decide; by rewrite ?reach_entry, ?stage_reach.
  - destruct (dependenciesDone_frames _ _ _ _ Hstep) as (e0 & _ & _ & _ & _ & Hfr).
    rewrite Hfr. destruct (decide (x = q)) as [<-|Hq];
      [|intros Hf; left; exists f'; simpl;
        repeat split; try done; rewrite decide_False; [done|by intros [? _]]].
    case_decide.
    + intros [Hh Hf]%list_elem_of_filter. left. exists f'. repeat split; try done.
      simpl. rewrite decide_False; [done|]. by intros [_ ?].
    + intros (f & -> & Hf)%list_elem_of_fmap. left. exists f. simpl.
      destruct (decide (holds p f)) as [Hh|Hh].
      * repeat split; try done. by rewrite decide_True.
      * repeat split; try done. rewrite decide_False; [done|]. by intros [_ ?].
  - destruct (settle_frames _ _ _ _ Hstep) as (e0 & o & _ & _ & _ & _ & _ & Hfr).
    rewrite Hfr. destruct (decide (x = q)) as [<-|Hq];
      [|intros Hf; left; exists f'; simpl;
        repeat split; try done; rewrite decide_False; [done|by intros [? _]]].
    intros (f & -> & Hf)%list_elem_of_fmap. left. exists f. simpl.
    destruct (decide (holds p f)) as [Hh|Hh].
    + repeat split; try done. by rewrite decide_True.
    + repeat split; try done. rewrite decide_False; [done|]. by intros [_ ?].
  - unfold continue in Hstep.
    destruct (frame_of x p st) as [[e0 [| |]]|]; try done. injection Hstep as <-.
    intros [(f1 & Hf1 & He1 & Hs1)|(-> & H0 & rest & Hops)]%runNext_origin.
    + left. rewrite frames_signal in Hf1.
      apply list_elem_of_fmap in Hf1 as (f & -> & Hf). simpl in Hf.
      rewrite release_entry in He1. rewrite stage_release in Hs1.
      exists f. revert Hf. rewrite fn_insert_at. destruct (decide (x = q)) as [<-|Hq].
      * intros [Hh Hf]%list_elem_of_filter. repeat split; try done. by intros [_ ?].
      * intros Hf. repeat split; try done. by intros [? _].
    + right. split; [done|]. left. revert Hops.
      rewrite queues_signal, decide_True, operations_set_semaphore by done.
      simpl. intros ->. by left.
Qed.

(** * Every operation is called once and settled once *)

Lemma calls_elem p tr : p ∈ calls tr ↔ ∃ q, Invoked q p ∈ tr.
Proof.
  unfold calls. rewrite list_elem_of_omap. split.
  - intros (o & Ho & Heq). destruct o; simplify_eq. by eexists.
  - intros (q & Hin). by exists (Invoked q p).
Qed.

Lemma settlements_elem p tr :
  p ∈ settlements tr ↔ ∃ o, o ∈ tr ∧ is_outcome o ∧ subject o = p.
Proof.
  unfold settlements. rewrite list_elem_of_omap. split.
  - intros (o & Ho & Heq). exists o. destruct o; by simplify_eq.
  - intros (o & Ho & Hout & <-). exists o. by destruct o.
Qed.

Lemma unobserved_calls p tr :
  (∀ o, o ∈ tr → subject o ≠ p) → (p ∉ calls tr) ∧ (p ∉ settlements tr).
Proof.
  intros Hno. split.
  - intros (q & Hin)%calls_elem. by apply (Hno _ Hin).
  - intros (o & Hin & _ & Heq)%settlements_elem. by apply (Hno _ Hin).
Qed.

Lemma delivery_subject e o : delivery e = Some o → subject o = resolver e ∧ is_outcome o.
Proof. unfold delivery. destruct (operation e); intros; by simplify_eq. Qed.

(** Nothing is observed in [st'] about an entry that was pending in
    [st] or is created by the step. *)
Lemma step_unobserved ev st st' q p :
  well_formed st → step ev st = Some st' →
  p ∈ pending_ids q st ∨ p = nextPromise st →
  ∀ o, o ∈ trace st' → subject o ≠ p.
Proof.
  intros (Hlt & Hnd & Hdisj & Htr & Hpend) Hstep Hp o.
  destruct (step_footprint _ _ _ Hstep) as (_ & _ & (obs & -> & Hobs) & _).
  intros [Ho|Ho]%elem_of_app Heq.
  - destruct Hp as [Hp| ->]; [by eapply Hpend|]. apply Htr in Ho. lia.
  - destruct (Hobs o Ho) as [q' Hin]. rewrite Heq in Hin.
    destruct Hp as [Hp| ->].
    + destruct (decide (q = q')) as [->|Hne].
      * specialize (Hnd q'). apply NoDup_app in Hnd as (_ & Hnd & _). by eapply Hnd.
      * eapply (Hdisj q q' p); [done|..]; apply elem_of_app; [by left|by right].
    + assert (nextPromise st ∈ owned q' st) as ?%Hlt by (apply elem_of_app; by right).
      lia.
Qed.

Lemma other_frame_id st x q p f0 f :
  well_formed st → f0 ∈ frames st x → holds p f0 → f ∈ frames st q →
  ¬ (x = q ∧ holds p f) → resolver (entry f) ≠ p.
Proof.
  intros Hwf Hf0 Hh0 Hf Hnot Heq.
  destruct (decide (x = q)) as [->|Hne]; [by apply Hnot|].
  destruct Hwf as (_ & _ & Hdisj & _).
  apply (Hdisj x q p Hne); apply elem_of_app; right.
  - unfold holds in Hh0. rewrite <- Hh0.
    by apply (list_elem_of_fmap_2 (λ f, resolver (entry f))).
  - rewrite <- Heq. by apply (list_elem_of_fmap_2 (λ f, resolver (entry f))).
Qed.

Lemma staged_step ev st st' :
  well_formed st → staged st → step ev st = Some st' → staged st'.
Proof.
  intros Hwf Hst Hstep q f' Hf'.
  destruct (step_frames_origin _ _ _ _ _ Hstep Hf') as [(f & Hf & He & Hadv)|[H0 Hnew]].
  2:{ split; [|by rewrite H0]. intros _. apply unobserved_calls.
      apply (step_unobserved ev st st' q _ Hwf Hstep).
      destruct Hnew as [Hin|(op & _ & ->)]; [left|by right].
      by apply list_elem_of_fmap_2. }
  rewrite <- He. destruct (Hst q f Hf) as [Hs0 Hs1].
  pose proof (step_trace _ _ _ Hstep) as Htr.
  destruct ev as [x y m|x op|x|x|x|x p w|x p|x p|x p]; simpl in Hadv, Htr;
    try (rewrite app_nil_r in Htr; rewrite Htr, Hadv; by split).
  - (* the operation of entry [p] is called *)
    destruct (dependenciesDone_frames _ _ _ _ Hstep) as (e0 & Hfo & _).
    apply frame_of_Some in Hfo as [Hf0 Hh0].
    rewrite Htr. unfold calls, settlements. rewrite !omap_app. simpl.
    rewrite app_nil_r. fold (calls (trace st)) (settlements (trace st)).
    case_decide as Hcase.
    + destruct Hcase as [-> Hh].
      assert (f = mkFrame e0 (AwaitingDependencies [])) as ->.
      { apply (frame_unique st q _ _ Hwf Hf Hf0). unfold holds in *. simpl in *.
        congruence. }
      rewrite Hadv. split; [done|]. intros _. split.
      * apply elem_of_app. right. unfold holds in Hh. simpl in *. subst. by left.
      * by apply Hs0.
    + rewrite Hadv.
      pose proof (other_frame_id _ _ _ _ _ _ Hwf Hf0 Hh0 Hf Hcase) as Hne.
      split; intros Hs.
      * destruct (Hs0 Hs) as [Hc Hse]. split; [|done].
        intros [?|?%list_elem_of_singleton]%elem_of_app; by auto.
      * destruct (Hs1 Hs) as [Hc Hse]. split; [|done]. apply elem_of_app. by left.
  - (* the promise of entry [p] is settled *)
    destruct (settle_frames _ _ _ _ Hstep) as (e0 & o & Hfo & Ho & _).
    rewrite Hfo in Htr. simpl in Htr. rewrite Ho in Htr. simpl in Htr.
    apply frame_of_Some in Hfo as [Hf0 Hh0].
    destruct (delivery_subject _ _ Ho) as [Hsub Hout].
    assert (calls (trace st') = calls (trace st)) as ->.
    { rewrite Htr. unfold calls. rewrite omap_app. simpl.
      destruct o; simpl in *; try done; by rewrite app_nil_r. }
    assert (settlements (trace st') = settlements (trace st) ++ [p]) as ->.
    { rewrite Htr. unfold settlements. rewrite omap_app. simpl.
      unfold holds in Hh0. simpl in Hh0. destruct o; simpl in *; try done; by subst. }
    case_decide as Hcase; [rewrite Hadv; by split|].
    rewrite Hadv.
    pose proof (other_frame_id _ _ _ _ _ _ Hwf Hf0 Hh0 Hf Hcase) as Hne.
    split; intros Hs.
    + destruct (Hs0 Hs) as [Hc Hse]. split; [done|].
      intros [?|?%list_elem_of_singleton]%elem_of_app; by auto.
    + destruct (Hs1 Hs) as [Hc Hse]. split; [done|].
      intros [?|?%list_elem_of_singleton]%elem_of_app; by auto.
  - destruct Hadv as [_ Hadv]. rewrite app_nil_r in Htr. rewrite Htr, Hadv. by split.
Qed.

Lemma staged_reachable st : reachable st → staged st.
Proof.
  apply reachable_ind.
  - by intros q f ?%elem_of_nil.
  - intros ev s s' Hreach Hst. apply staged_step; [|done].
    by apply well_formed_reachable.
Qed.

Lemma snoc_split {A} (l l1 l2 : list A) (x o : A) :
  l ++ [x] = l1 ++ o :: l2 →
  (∃ l2', l2 = l2' ++ [x] ∧ l = l1 ++ o :: l2') ∨ (l2 = [] ∧ o = x ∧ l1 = l).
Proof.
  destruct l2 as [|y l2 _] using rev_ind.
  - intros Heq. right. apply app_inj_tail in Heq as [-> ->]. done.
  - intros Heq. left. exists l2.
    rewrite app_comm_cons, (assoc (++)) in Heq.
    apply app_inj_tail in Heq as [-> ->]. done.
Qed.

(** X4. In every reachable state, whatever was called on the queues, no
    operation was called twice, no promise was settled twice, and a
    promise was settled only after its operation had been called. *)
Theorem called_once_settled_once st :
  reachable st →
  NoDup (calls (trace st)) ∧
  NoDup (settlements (trace st)) ∧
  ∀ l1 o l2, trace st = l1 ++ o :: l2 → is_outcome o → subject o ∈ calls l1.
Proof.
  intros Hreach. pattern st. revert st Hreach. apply reachable_ind.
  - split; [apply NoDup_nil_2|]. split; [apply NoDup_nil_2|].
    intros l1 o l2 Heq. simpl in Heq. by destruct l1.
  - intros ev s s' Hreach (Hc & Hs & Hord) Hstep.
    pose proof (well_formed_reachable _ Hreach) as Hwf.
    pose proof (staged_reachable _ Hreach) as Hst.
    pose proof (step_trace _ _ _ Hstep) as Htr.
    destruct ev as [x y m|x op|x|x|x|x p w|x p|x p|x p]; simpl in Htr;
      try (rewrite app_nil_r in Htr; rewrite Htr; done).
    + destruct (dependenciesDone_frames _ _ _ _ Hstep) as (e0 & Hfo & _).
      apply frame_of_Some in Hfo as [Hf0 Hh0]. unfold holds in Hh0. simpl in Hh0.
      destruct (Hst x _ Hf0) as [Hs0 _]. destruct (Hs0 eq_refl) as [Hnc Hns].
      simpl in Hnc, Hns. subst p.
      rewrite Htr. unfold calls, settlements. rewrite !omap_app. simpl.
      rewrite app_nil_r. fold (calls (trace s)) (settlements (trace s)).
      split; [|split; [done|]].
      * apply NoDup_app. split; [done|]. split; [|apply NoDup_singleton].
        intros p Hp ->%list_elem_of_singleton. done.
      * intros l1 o l2 [(l2' & -> & Heq)|(-> & -> & ->)]%snoc_split Hout; [|done].
        by eapply Hord.
    + destruct (settle_frames _ _ _ _ Hstep) as (e0 & o & Hfo & Ho & _).
      rewrite Hfo in Htr. simpl in Htr. rewrite Ho in Htr. simpl in Htr.
      apply frame_of_Some in Hfo as [Hf0 Hh0]. unfold holds in Hh0. simpl in Hh0.
      destruct (delivery_subject _ _ Ho) as [Hsub Hout].
      destruct (Hst x _ Hf0) as [_ Hs1]. destruct (Hs1 eq_refl) as [Hin Hns].
      simpl in Hin, Hns.
      assert (calls (trace s') = calls (trace s)) as ->.
      { rewrite Htr. unfold calls. rewrite omap_app. simpl.
        destruct o; simpl in *; try done; by rewrite app_nil_r. }
      assert (settlements (trace s') = settlements (trace s) ++ [resolver e0]) as ->.
      { rewrite Htr. unfold settlements. rewrite omap_app. simpl.
        destruct o; simpl in *; try done; by subst. }
      split; [done|]. split.
      * apply NoDup_app. split; [done|]. split; [|apply NoDup_singleton].
        intros p' Hp' ->%list_elem_of_singleton. done.
      * rewrite Htr.
        intros l1 o' l2 [(l2' & -> & Heq)|(-> & -> & ->)]%snoc_split Hout'.
        -- by eapply Hord.
        -- by rewrite Hsub.
Qed.

(** * The outcome delivered is that of the operation enqueued *)

Lemma nextPromise_step ev st st' :
  step ev st = Some st' →
  nextPromise st' = match ev with Enqueue _ _ => S (nextPromise st) | _ => nextPromise st end.
Proof.
  destruct ev as [x y m|x op|x|x|x|x p w|x p|x p|x p]; simpl; intros Hstep; simplify_eq.
  - by destruct (quiet_addDependency x y m st) as (-> & _).
  - unfold enqueue, push.
    match goal with |- context [resume x ?s] =>
      by destruct (quiet_resume x s) as (-> & _) end.
  - by destruct (quiet_clear x st) as (-> & _).
  - by destruct (quiet_suspend x st) as (-> & _).
  - by destruct (quiet_resume x st) as (-> & _).
  - by destruct (quiet_subscribe _ _ _ _ _ Hstep) as (-> & _).
  - by destruct (dependenciesDone_frames _ _ _ _ Hstep) as (e & _ & _ & -> & _).
  - by destruct (settle_frames _ _ _ _ Hstep) as (e & o & _ & _ & _ & -> & _).
  - unfold continue in Hstep.
    destruct (frame_of x p st) as [[e [| |]]|]; try done. injection Hstep as <-.
    destruct (quiet_runNext x (signal x Current (drop_frame x p st))) as (-> & _).
    done.
Qed.

Lemma enqueued_snoc evs ev :
  enqueued (evs ++ [ev]) =
    enqueued evs ++ match ev with Enqueue q op => [(q, op)] | _ => [] end.
Proof. unfold enqueued. rewrite omap_app. f_equal. by destruct ev. Qed.

Lemma registered_step evs ev st st' :
  registered evs st → step ev st = Some st' → registered (evs ++ [ev]) st'.
Proof.
  intros (Hn & Hpend & Hfr) Hstep. unfold registered. rewrite enqueued_snoc.
  assert (∀ q op, ev = Enqueue q op →
            (enqueued evs ++ [(q, op)]) !! nextPromise st = Some (q, op)) as Hfresh.
  { intros q op _. rewrite Hn. by rewrite list_lookup_middle. }
  assert (∀ q e, e ∈ operations (queues st' q) →
            (enqueued evs ++ match ev with Enqueue q op => [(q, op)] | _ => [] end)
              !! resolver e = Some (q, operation e)) as Hpend'.
  { intros q e [He|(op & -> & ->)]%(step_pending_origin _ _ _ _ _ Hstep).
    - apply lookup_app_l_Some. by apply Hpend.
    - by apply Hfresh. }
  split; [|split; [done|]].
  - rewrite (nextPromise_step _ _ _ Hstep), length_app, Hn.
    destruct ev; simpl; lia.
  - intros q f' [(f & Hf & <- & _)|[_ [He|(op & -> & ->)]]]%(step_frames_origin _ _ _ _ _ Hstep).
    + apply lookup_app_l_Some. by apply Hfr.
    + apply lookup_app_l_Some. by apply Hpend.
    + by apply Hfresh.
Qed.

Lemma registered_run evs st :
  run evs initial = Some st →
  registered evs st ∧
  ∀ o, o ∈ trace st →
       ∃ q op, enqueued evs !! subject o = Some (q, op) ∧ explains q op o.
Proof.
  revert st. induction evs as [|ev evs IH] using rev_ind; intros st Hrun.
  - simplify_eq/=. split; [|by intros o ?%elem_of_nil].
    split; [done|]. split; [by intros q e ?%elem_of_nil|by intros q f ?%elem_of_nil].
  - rewrite run_app in Hrun. destruct (run evs initial) as [st1|] eqn:H1; [|done].
    simpl in Hrun. destruct (step ev st1) as [st2|] eqn:Hstep; simplify_eq/=.
    destruct (IH st1 eq_refl) as [Hreg Hexp].
    split; [by apply (registered_step evs ev st1)|].
    intros o. rewrite (step_trace _ _ _ Hstep), enqueued_snoc.
    intros [Ho|Ho]%elem_of_app.
    { destruct (Hexp o Ho) as (q & op & Hl & He). exists q, op.
      split; [by apply lookup_app_l_Some|done]. }
    destruct Hreg as (_ & _ & Hfr).
    destruct ev as [x y m|x op|x|x|x|x p w|x p|x p|x p]; simpl in Ho;
      try by apply elem_of_nil in Ho.
    + apply list_elem_of_singleton in Ho as ->.
      destruct (dependenciesDone_frames _ _ _ _ Hstep) as (e0 & Hfo & _).
      apply frame_of_Some in Hfo as [Hf0 Hh0]. unfold holds in Hh0. simpl in *.
      exists x, (operation e0). split; [|done]. rewrite <- Hh0.
      apply lookup_app_l_Some. by apply (Hfr x _ Hf0).
    + destruct (settle_frames _ _ _ _ Hstep) as (e0 & o' & Hfo & Ho' & _).
      rewrite Hfo in Ho. simpl in Ho. rewrite Ho' in Ho.
      apply list_elem_of_singleton in Ho as ->.
      apply frame_of_Some in Hfo as [Hf0 _].
      exists x, (operation e0). split.
      * destruct (delivery_subject _ _ Ho') as [-> _].
        apply lookup_app_l_Some. by apply (Hfr x _ Hf0).
      * unfold delivery in Ho'. destruct (operation e0); simplify_eq/=; auto.
Qed.

(** X5. Whatever was called on the queues, the operation of an entry is
    called for the queue it was enqueued on, and its promise is resolved
    only with the value the operation passed to that [enqueue] call
    returns or fulfils with, and rejected only with the reason that
    operation rejects with. *)
Theorem outcome_of_enqueued_operation evs st :
  run evs initial = Some st →
  nextPromise st = length (enqueued evs) ∧
  (∀ q p, Invoked q p ∈ trace st → ∃ op, enqueued evs !! p = Some (q, op)) ∧
  (∀ p v, Resolved p v ∈ trace st →
     ∃ q, enqueued evs !! p = Some (q, Returns v) ∨
          enqueued evs !! p = Some (q, Fulfils v)) ∧
  (∀ p err, Rejected p err ∈ trace st →
     ∃ q, enqueued evs !! p = Some (q, Rejects err)).
Proof.
  intros Hrun. destruct (registered_run _ _ Hrun) as [(Hn & _) Hexp].
  split; [done|]. split; [|split].
  - intros q p (q' & op & Hl & He)%Hexp. simpl in *. subst. by exists op.
  - intros p v (q & op & Hl & [-> | ->])%Hexp; exists q; auto.
  - intros p err (q & op & Hl & ->)%Hexp. by exists q.
Qed.

(** * Dependencies are never removed *)

Lemma dependencies_runNext x st q :
  dependencies (queues (runNext x st) q) = dependencies (queues st q).
Proof.
  destruct (operations (queues st x)) as [|e rest] eqn:Hops.
  - rewrite runNext_nil by done. rewrite queues_suspend.
    destruct (decide (x = q)) as [->|Hne].
    + unfold set_suspended. cbn [dependencies].
      by rewrite queues_signal, decide_True, dependencies_set_semaphore.
    + by rewrite queues_signal, decide_False.
  - destruct (runNext_cons _ _ _ _ Hops) as (ws & _ & _ & Hq & _). rewrite Hq.
    by case_decide; subst.
Qed.

Lemma dependencies_resume x st q :
  dependencies (queues (resume x st) q) = dependencies (queues st q).
Proof.
  unfold resume. case_match; [done|]. rewrite dependencies_runNext, queues_set_queue.
  by case_decide; subst.
Qed.

Lemma dependencies_step ev st st' q :
  step ev st = Some st' →
  match ev with
  | AddDependency x y m =>
      ∀ k, dependencies (queues st' q) !! k =
             if decide ((q = x ∧ k = y) ∨ (m = Interleave ∧ q = y ∧ k = x))
             then Some m else dependencies (queues st q) !! k
  | _ => dependencies (queues st' q) = dependencies (queues st q)
  end.
Proof.
  destruct ev as [x y m|x op|x|x|x|x p w|x p|x p|x p]; simpl; intros Hstep; simplify_eq.
  - intros k. unfold addDependency. cbv zeta.
    destruct (decide (m = Interleave)) as [->|Hm]; rewrite !queues_set_queue;
      destruct (decide (x = q)) as [->|Hx]; destruct (decide (y = q)) as [->|Hy];
      rewrite ?decide_True by done; simpl;
      destruct (decide (k = q)) as [->|Hk1];
      try destruct (decide (k = x)) as [->|Hk2];
      try destruct (decide (k = y)) as [->|Hk3];
      rewrite ?lookup_insert_eq, ?lookup_insert_ne by done;
      rewrite ?lookup_insert_eq, ?lookup_insert_ne by done;
      repeat first [rewrite decide_True by (intuition congruence)
                   |rewrite decide_False by (intuition congruence)];
      rewrite ?lookup_insert_eq, ?lookup_insert_ne by done; done.
  - unfold enqueue, push. rewrite dependencies_resume, queues_set_queue.
    by case_decide; subst.
  - rewrite queues_clear. by case_decide; subst.
  - rewrite queues_suspend. by case_decide; subst.
  - apply dependencies_resume.
  - by destruct (subscribe_Some _ _ _ _ _ Hstep) as (e & ws & _ & _ & -> & _).
  - by destruct (dependenciesDone_frames _ _ _ _ Hstep) as (e & _ & -> & _).
  - by destruct (settle_frames _ _ _ _ Hstep) as (e & o & _ & _ & -> & _).
  - unfold continue in Hstep.
    destruct (frame_of x p st) as [[e [| |]]|]; try done. injection Hstep as <-.
    rewrite dependencies_runNext, queues_signal.
    case_decide; subst; by rewrite ?dependencies_set_semaphore.
Qed.

Lemma dependencies_kept ev st st' q d :
  step ev st = Some st' →
  is_Some (dependencies (queues st q) !! d) →
  is_Some (dependencies (queues st' q) !! d).
Proof.
  intros Hstep Hd.
  pose proof (dependencies_step _ _ _ q Hstep) as Hdep.
  destruct ev; simpl in Hdep; try (by rewrite Hdep).
  rewrite Hdep. destruct (decide _); [by eapply mk_is_Some|done].
Qed.

(** X6. A dependency, once registered, stays registered whatever is called
    afterwards: only [addDependency] changes a dependency map, and it
    only adds a queue or overwrites its mode. *)
Theorem dependency_never_removed evs st st' q d :
  run evs st = Some st' →
  is_Some (dependencies (queues st q) !! d) →
  is_Some (dependencies (queues st' q) !! d).
Proof.
  revert st. induction evs as [|ev evs IH]; intros st Hrun Hd; simplify_eq/=; [done|].
  destruct (step ev st) as [st1|] eqn:Hstep; simplify_eq/=.
  apply (IH st1); [done|]. by eapply dependencies_kept.
Qed.

(** X7. [addDependency(queue, mode)] sets the mode of [queue] in the map
    of [this] and, for [Interleave], the mode of [this] in the map of
    [queue]; every other entry of every dependency map is as before
    (also when a queue is registered with itself), and the pending
    lists, run states, gates, frames and trace are untouched. *)
Theorem addDependency_exact this queue mode st q :
  (∀ k, dependencies (queues (addDependency this queue mode st) q) !! k =
          if decide ((q = this ∧ k = queue) ∨
                     (mode = Interleave ∧ q = queue ∧ k = this))
          then Some mode
          else dependencies (queues st q) !! k) ∧
  operations (queues (addDependency this queue mode st) q) = operations (queues st q) ∧
  _suspended (queues (addDependency this queue mode st) q) = _suspended (queues st q) ∧
  currentSemaphore (queues (addDependency this queue mode st) q)
    = currentSemaphore (queues st q) ∧
  allSemaphore (queues (addDependency this queue mode st) q)
    = allSemaphore (queues st q) ∧
  frames (addDependency this queue mode st) = frames st ∧
  trace (addDependency this queue mode st) = trace st.
Proof.
  split; [apply (dependencies_step (AddDependency this queue mode) st _ q eq_refl)|].
  destruct (queues_addDependency this queue mode st q) as [d ->].
  do 4 (split; [done|]). split; [apply frames_addDependency|].
  by destruct (quiet_addDependency this queue mode st) as (_ & ? & _).
Qed.

(** X8. Registering [b] again with another mode overwrites the mode in
    the map of [a] only: the reverse registration made by an earlier
    [Interleave] stays, so [b] keeps waiting for the current gate of [a]. *)
Theorem overwrite_keeps_reverse_Interleave a b mode st :
  a ≠ b → mode ≠ Interleave →
  dependencies
    (queues (addDependency a b mode (addDependency a b Interleave st)) a) !! b
    = Some mode ∧
  dependencies
    (queues (addDependency a b mode (addDependency a b Interleave st)) b) !! a
    = Some Interleave.
Proof.
  intros Hne Hm.
  pose proof (dependencies_step (AddDependency a b mode)
                (addDependency a b Interleave st) _ a eq_refl) as Ha.
  pose proof (dependencies_step (AddDependency a b mode)
                (addDependency a b Interleave st) _ b eq_refl) as Hb.
  pose proof (dependencies_step (AddDependency a b Interleave) st _ b eq_refl) as Hb0.
  simpl in Ha, Hb, Hb0.
  rewrite Ha, Hb, Hb0. split.
  - rewrite decide_True; [done|]. by left.
  - rewrite decide_False by (intuition congruence).
    rewrite decide_True; [done|]. by right.
Qed.

(** * Waits that are never resolved *)

(** In a run without [suspend], [resume] and [clear], two queues that
    wait for each other keep waiting. *)
Lemma wedge_step ev st st' a b ea eb ga gb :
  plain ev → orderly st → well_formed st → step ev st = Some st' →
  waiting a ea (b, ga) st → waiting b eb (a, gb) st →
  waiting a ea (b, ga) st' ∧ waiting b eb (a, gb) st'.
Proof.
  intros Hplain Hord Hwf Hstep Ha Hb.
  assert (∀ x e w, waiting x e w st → ∀ p, continue x p st = None) as Hstuck.
  { intros x e w (s & ws & Hin & Hw) p. unfold continue.
    destruct (frame_of x p st) as [f|] eqn:Hfo; [|done].
    destruct (Hord x) as (Hlen & _).
    destruct (frame_of_le1 _ _ _ _ Hlen Hfo) as [Hf _]. rewrite Hf in Hin.
    apply list_elem_of_singleton in Hin as <-. done. }
  assert (∀ x e w g, waiting x e w st → is_open (x, g) st = false) as Hclosed.
  { intros x e w g (s & ws & Hin & _). destruct (Hord x) as (_ & Hcur & Hall & Hs).
    unfold is_open. simpl. destruct (_suspended (queues st x)) eqn:Hsx.
    - destruct (Hs eq_refl) as [Hnil _]. rewrite Hnil in Hin. by apply elem_of_nil in Hin.
    - by destruct g. }
  assert (∀ w, w.1 = a ∨ w.1 = b → ¬ signals ev w) as Hsig.
  { intros w Hw Hs.
    destruct ev as [x y m|x op|x|x|x|x p w'|x p|x p|x p]; simpl in *; try done.
    destruct Hw as [Hw|Hw]; rewrite Hw in Hs; subst x.
    - by rewrite (Hstuck _ _ _ Ha) in Hstep.
    - by rewrite (Hstuck _ _ _ Hb) in Hstep. }
  assert (∀ w, w.1 = a ∨ w.1 = b → ¬ passes ev w st) as Hpass.
  { intros [x g] Hw Hp.
    destruct ev as [x' y m|x' op|x'|x'|x'|x' p w'|x' p|x' p|x' p]; simpl in *; try done.
    destruct Hp as [_ Ho]. destruct Hw as [Hw|Hw]; subst x.
    - by rewrite (Hclosed _ _ _ g Ha) in Ho.
    - by rewrite (Hclosed _ _ _ g Hb) in Ho. }
  split; (eapply wait_persists; [done..| |]);
    first [apply Hsig|apply Hpass]; simpl; auto.
Qed.

Lemma waiting_not_called st q e w :
  reachable st → waiting q e w st → ∀ q', Invoked q' (resolver e) ∉ trace st.
Proof.
  intros Hreach (s & ws & Hin & _) q' Hinv.
  destruct (staged_reachable _ Hreach q _ Hin) as [H0 _].
  destruct (H0 eq_refl) as [Hnc _]. apply Hnc, calls_elem. by exists q'.
Qed.

Lemma wedge_run evs st st' a b ea eb ga gb :
  Forall plain evs → orderly st → reachable st → run evs st = Some st' →
  waiting a ea (b, ga) st → waiting b eb (a, gb) st →
  reachable st' ∧ waiting a ea (b, ga) st' ∧ waiting b eb (a, gb) st'.
Proof.
  intros Hevs. revert st.
  induction Hevs as [|ev evs Hev _ IH]; intros st Hord Hreach Hrun Ha Hb.
  - by simplify_eq/=.
  - simpl in Hrun. destruct (step ev st) as [st1|] eqn:Hstep; [|done]. simpl in Hrun.
    destruct (wedge_step _ _ _ _ _ _ _ _ _ Hev Hord (well_formed_reachable _ Hreach)
                Hstep Ha Hb) as [Ha1 Hb1].
    apply (IH st1); [by eapply orderly_step|by eapply reachable_step|done..].
Qed.

(** X9. In a run without [clear], [suspend] and [resume], once the
    dequeued entry of queue [a] waits for a gate of queue [b] while the
    dequeued entry of [b] waits for a gate of [a], both wait for ever
    and neither operation is ever called.  This is the deadlock the
    documentation of [WaitAll] warns of; with [a = b] it is a queue that
    was registered as its own dependency. *)
Theorem mutual_wait_is_permanent evs0 st a b ea eb ga gb evs st' :
  Forall plain evs0 → run evs0 initial = Some st →
  waiting a ea (b, ga) st → waiting b eb (a, gb) st →
  Forall plain evs → run evs st = Some st' →
  waiting a ea (b, ga) st' ∧ waiting b eb (a, gb) st' ∧
  (∀ q, Invoked q (resolver ea) ∉ trace st') ∧
  (∀ q, Invoked q (resolver eb) ∉ trace st').
Proof.
  intros Hevs0 Hrun0 Ha Hb Hevs Hrun.
  destruct (plain_run_ascending _ _ Hevs0 Hrun0) as [Hord _].
  assert (reachable st) as Hreach by (by exists evs0).
  destruct (wedge_run _ _ _ _ _ _ _ _ _ Hevs Hord Hreach Hrun Ha Hb)
    as (Hreach' & Ha' & Hb').
  split; [done|]. split; [done|].
  split; by eapply waiting_not_called.
Qed.

(** A queue whose only frame waits, registered with its gates, can take
    no transition, and neither can a queue without a frame. *)
Lemma registered_stuck st x e ws ev :
  frames st x = [mkFrame e (AwaitingDependencies ws)] →
  ws ≠ [] → Forall (λ y, y.2 = Registered) ws →
  acts_on x ev → step ev st = None.
Proof.
  intros Hfr Hne Hreg Hact.
  assert (∀ p, frame_of x p st = None ∨
               frame_of x p st = Some (mkFrame e (AwaitingDependencies ws))) as Hfo.
  { intros p. rewrite (frame_of_singleton _ _ _ _ Hfr). case_decide; auto. }
  destruct ev as [x' y m|x' op|x'|x'|x'|x' p w|x' p|x' p|x' p]; simpl in Hact; try done;
    subst x'; simpl; destruct (Hfo p) as [Hp|Hp].
  - unfold subscribe. by rewrite Hp.
  - unfold subscribe. rewrite Hp. rewrite decide_False; [done|].
    intros Hin. rewrite Forall_forall in Hreg. by specialize (Hreg _ Hin).
  - unfold dependenciesDone. by rewrite Hp.
  - unfold dependenciesDone. rewrite Hp. by destruct ws.
  - unfold settle. by rewrite Hp.
  - unfold settle. by rewrite Hp.
  - unfold continue. by rewrite Hp.
  - unfold continue. by rewrite Hp.
Qed.

Lemma idle_stuck st x ev : frames st x = [] → acts_on x ev → step ev st = None.
Proof.
  intros Hfr Hact.
  assert (∀ p, frame_of x p st = None) as Hfo.
  { intros p. unfold frame_of. by rewrite Hfr. }
  destruct ev as [x' y m|x' op|x'|x'|x'|x' p w|x' p|x' p|x' p]; simpl in Hact; try done;
    subst x'; simpl.
  - unfold subscribe. by rewrite Hfo.
  - unfold dependenciesDone. by rewrite Hfo.
  - unfold settle. by rewrite Hfo.
  - unfold continue. by rewrite Hfo.
Qed.

(** The scenario [missed_signal], for either way of coupling the pair. *)
Lemma missed_signal_deadlock s0 st :
  s0 = mutual_WaitCurrent 0 1 ∨ s0 = interleaved 0 1 →
  st = after_from s0 missed_signal →
  run missed_signal s0 = Some st ∧
  trace st = [Invoked 0 0; Resolved 0 "x"] ∧
  frames st 0 = [mkFrame (mkEntry (Fulfils "x2") 1)
                         (AwaitingDependencies [((1, Current), Registered)])] ∧
  frames st 1 = [mkFrame (mkEntry (Fulfils "y") 2)
                         (AwaitingDependencies [((0, Current), Registered)])] ∧
  (∀ q ev, acts_on q ev → step ev st = None) ∧
  (∀ evs st', Forall plain evs → run evs st = Some st' →
     (∀ q, Invoked q 1 ∉ trace st') ∧ (∀ q, Invoked q 2 ∉ trace st')).
Proof.
  intros Hs0 ->.
  assert (run missed_signal s0 = Some (after_from s0 missed_signal)) as Hrun
    by (destruct Hs0 as [-> | ->]; vm_compute; reflexivity).
  set (st := after_from s0 missed_signal) in *.
  assert (frames st 0 = [mkFrame (mkEntry (Fulfils "x2") 1)
                           (AwaitingDependencies [((1, Current), Registered)])]) as Hf0
    by (destruct Hs0 as [-> | ->]; vm_compute; reflexivity).
  assert (frames st 1 = [mkFrame (mkEntry (Fulfils "y") 2)
                           (AwaitingDependencies [((0, Current), Registered)])]) as Hf1
    by (destruct Hs0 as [-> | ->]; vm_compute; reflexivity).
  assert (∀ q, frames st (S (S q)) = []) as Hfq
    by (intros q; destruct Hs0 as [-> | ->]; vm_compute; reflexivity).
  split; [done|].
  split; [destruct Hs0 as [-> | ->]; vm_compute; reflexivity|].
  split; [done|]. split; [done|]. split.
  - intros [|[|q]] ev Hact.
    + eapply registered_stuck; [exact Hf0|done| |done].
      apply Forall_singleton. done.
    + eapply registered_stuck; [exact Hf1|done| |done].
      apply Forall_singleton. done.
    + by eapply idle_stuck.
  - intros evs st' Hevs Hrun'.
    assert (∃ evs0, Forall plain evs0 ∧ run evs0 initial = Some st) as (evs0 & Hp0 & Hr0).
    { destruct Hs0 as [-> | ->].
      - exists (coupling ++ missed_signal). split.
        + unfold coupling, missed_signal. simpl.
          repeat (apply Forall_cons; split; [exact I|]). apply Forall_nil_2.
        + vm_compute. reflexivity.
      - exists (AddDependency 0 1 Interleave :: missed_signal). split.
        + unfold missed_signal.
          repeat (apply Forall_cons; split; [exact I|]). apply Forall_nil_2.
        + vm_compute. reflexivity. }
    destruct (plain_run_ascending _ _ Hp0 Hr0) as [Hord _].
    assert (reachable st) as Hreach by (by exists evs0).
    assert (waiting 0 (mkEntry (Fulfils "x2") 1) (1, Current) st) as Ha.
    { exists Registered, [((1, Current), Registered)]. rewrite Hf0. split; left. }
    assert (waiting 1 (mkEntry (Fulfils "y") 2) (0, Current) st) as Hb.
    { exists Registered, [((0, Current), Registered)]. rewrite Hf1. split; left. }
    destruct (wedge_run _ _ _ _ _ _ _ _ _ Hevs Hord Hreach Hrun' Ha Hb)
      as (Hreach' & Ha' & Hb').
    split; intros q.
    + by apply (waiting_not_called _ _ _ _ Hreach' Ha').
    + by apply (waiting_not_called _ _ _ _ Hreach' Hb').
Qed.

(** C9 (the code departs from it).  Two queues that wait for each
    other's current operation can deadlock.  Queue 0 has [x] running and
    [x2] pending; [y] is enqueued on queue 1 after the outcome of [x]
    was delivered and before [runNext] of queue 0 resumes.  [y] finds
    the current gate of queue 0 closed and awaits the semaphore, but
    [then] of the semaphore is called only in a later job: [runNext] of
    queue 0 signals the gate first, with no waiter registered, and
    closes it again as it dequeues [x2], which in turn awaits the
    current gate of queue 1.  Both waits are then registered with closed
    gates: no run loop can take a transition, and whatever is enqueued
    afterwards, neither [x2] nor [y] is ever called.  The same happens
    when the pair is coupled by one [Interleave] registration. *)
Theorem mutual_WaitCurrent_deadlocks :
  (run missed_signal (mutual_WaitCurrent 0 1)
     = Some (after_from (mutual_WaitCurrent 0 1) missed_signal) ∧
   trace (after_from (mutual_WaitCurrent 0 1) missed_signal)
     = [Invoked 0 0; Resolved 0 "x"] ∧
   frames (after_from (mutual_WaitCurrent 0 1) missed_signal) 0
     = [mkFrame (mkEntry (Fulfils "x2") 1)
                (AwaitingDependencies [((1, Current), Registered)])] ∧
   frames (after_from (mutual_WaitCurrent 0 1) missed_signal) 1
     = [mkFrame (mkEntry (Fulfils "y") 2)
                (AwaitingDependencies [((0, Current), Registered)])] ∧
   (∀ q ev, acts_on q ev →
      step ev (after_from (mutual_WaitCurrent 0 1) missed_signal) = None) ∧
   (∀ evs st', Forall plain evs →
      run evs (after_from (mutual_WaitCurrent 0 1) missed_signal) = Some st' →
      (∀ q, Invoked q 1 ∉ trace st') ∧ (∀ q, Invoked q 2 ∉ trace st'))) ∧
  (run missed_signal (interleaved 0 1)
     = Some (after_from (interleaved 0 1) missed_signal) ∧
   trace (after_from (interleaved 0 1) missed_signal)
     = [Invoked 0 0; Resolved 0 "x"] ∧
   frames (after_from (interleaved 0 1) missed_signal) 0
     = [mkFrame (mkEntry (Fulfils "x2") 1)
                (AwaitingDependencies [((1, Current), Registered)])] ∧
   frames (after_from (interleaved 0 1) missed_signal) 1
     = [mkFrame (mkEntry (Fulfils "y") 2)
                (AwaitingDependencies [((0, Current), Registered)])] ∧
   (∀ q ev, acts_on q ev →
      step ev (after_from (interleaved 0 1) missed_signal) = None) ∧
   (∀ evs st', Forall plain evs →
      run evs (after_from (interleaved 0 1) missed_signal) = Some st' →
      (∀ q, Invoked q 1 ∉ trace st') ∧ (∀ q, Invoked q 2 ∉ trace st'))).
Proof.
  split.
  - apply (missed_signal_deadlock (mutual_WaitCurrent 0 1)); [by left|done].
  - apply (missed_signal_deadlock (interleaved 0 1)); [by right|done].
Qed.

Lemma enqueue_suspended_self x op st mode :
  _suspended (queues st x) = true →
  dependencies (queues st x) !! x = Some mode →
  frames st x = [] →
  ∃ e ws, frames (enqueue x op st) x = [mkFrame e (AwaitingDependencies ws)] ∧
          ((x, gate_of mode), Scheduled) ∈ ws.
Proof.
  intros Hs Hdep Hfx. unfold enqueue, push.
  set (e0 := mkEntry op (nextPromise st)).
  set (st2 := set_queue x _ _).
  rewrite resume_suspended by (unfold st2; by rewrite queues_set_queue, decide_True).
  set (st3 := set_queue x _ st2).
  destruct (operations (queues st x) ++ [e0]) as [|e rest] eqn:Hops.
  { by destruct (operations (queues st x)). }
  assert (operations (queues st3 x) = e :: rest) as Hops3.
  { unfold st3, st2. by rewrite !queues_set_queue, !decide_True. }
  destruct (runNext_cons _ _ _ _ Hops3) as (ws & Hfr & _ & _ & _ & _ & Hws).
  exists e, ws. split.
  - rewrite Hfr. unfold st3, st2. simpl. by rewrite Hfx.
  - apply Hws. exists x, mode. split; [|split; [done|right; by left]].
    unfold st3, st2. by rewrite !queues_set_queue, !decide_True.
Qed.

Lemma self_wait_step ev st st' a :
  plain ev → orderly st → well_formed st →
  is_Some (dependencies (queues st a) !! a) →
  frames st a = [] ∨ (∃ e g, waiting a e (a, g) st) →
  step ev st = Some st' →
  (frames st' a = [] ∨ ∃ e g, waiting a e (a, g) st') ∧
  ∀ p, ev ≠ DependenciesDone a p.
Proof.
  intros Hplain Hord Hwf [mode Hdep] [Hnil|(e & g & Hw)] Hstep.
  - assert (∀ p, frame_of a p st = None) as Hno.
    { intros p. unfold frame_of. by rewrite Hnil. }
    destruct ev as [x y m|x op|x|x|x|x p w|x p|x p|x p]; simpl in *; try done; simplify_eq.
    + split; [|done]. left. by rewrite frames_addDependency.
    + split; [|done]. destruct (_suspended (queues st x)) eqn:Hs.
      * destruct (decide (x = a)) as [->|Hne].
        -- right. destruct (enqueue_suspended_self a op st mode Hs Hdep Hnil)
             as (e & ws & Hfr & Hin).
           exists e, (gate_of mode), Scheduled, ws. rewrite Hfr. split; [left|done].
        -- left. destruct (enqueue_suspended x op st Hs) as (e & rest & ws & _ & _ & Ho & _).
           by rewrite Ho.
      * left. by destruct (enqueue_running x op st Hs) as (-> & _).
    + split; [|done]. left.
      destruct (subscribe_Some _ _ _ _ _ Hstep) as (e & ws & _ & _ & _ & _ & _ & Hfr).
      rewrite Hfr. case_decide; subst; by rewrite Hnil.
    + destruct (dependenciesDone_frames _ _ _ _ Hstep) as (e & Hfo & _ & _ & _ & Hfr).
      split.
      * left. rewrite Hfr. destruct (decide (x = a)) as [->|Hne]; [|done].
        by rewrite Hno in Hfo.
      * intros p' [= -> ->]. by rewrite Hno in Hfo.
    + destruct (settle_frames _ _ _ _ Hstep) as (e & o & Hfo & _ & _ & _ & _ & Hfr).
      split; [|done]. left. rewrite Hfr. destruct (decide (x = a)) as [->|Hne]; [|done].
      by rewrite Hno in Hfo.
    + split; [|done]. left.
      assert (x ≠ a) as Hne.
      { intros ->. unfold continue in Hstep. by rewrite Hno in Hstep. }
      destruct (operations (queues st x)) as [|e' rest] eqn:Hops.
      * destruct (continue_nil _ _ _ _ Hstep Hops) as (Hfr & _).
        by rewrite Hfr, decide_False, Hnil.
      * destruct (continue_cons _ _ _ _ _ _ Hstep Hops) as (ws & _ & Hother & _).
        by rewrite Hother, Hnil.
  - destruct (wedge_step _ _ _ _ _ _ _ _ _ Hplain Hord Hwf Hstep Hw Hw) as [Hw' _].
    split; [right; by exists e, g|].
    intros p ->. simpl in Hstep.
    destruct (dependenciesDone_frames _ _ _ _ Hstep) as (e0 & Hfo & _).
    destruct (Hord a) as (Hlen & _).
    destruct (frame_of_le1 _ _ _ _ Hlen Hfo) as [Hf _].
    destruct Hw as (s & ws & Hin & Hws). rewrite Hf in Hin.
    apply list_elem_of_singleton in Hin. simplify_eq. by apply elem_of_nil in Hws.
Qed.

(** X10. A queue registered as its own dependency never runs anything: if
    it holds no dequeued entry when it depends on itself, then in a run
    without [clear], [suspend] and [resume] every entry it dequeues
    waits for the queue's own gate, and no operation of the queue is
    called any more. *)
Theorem self_dependency_blocks evs0 st a evs st' :
  Forall plain evs0 → run evs0 initial = Some st →
  is_Some (dependencies (queues st a) !! a) → frames st a = [] →
  Forall plain evs → run evs st = Some st' →
  (frames st' a = [] ∨ ∃ e g, waiting a e (a, g) st') ∧
  ∀ p, Invoked a p ∈ trace st' → Invoked a p ∈ trace st.
Proof.
  intros Hevs0 Hrun0 Hdep Hnil Hevs Hrun.
  destruct (plain_run_ascending _ _ Hevs0 Hrun0) as [Hord _].
  assert (reachable st) as Hreach by (by exists evs0).
  assert (frames st a = [] ∨ (∃ e g, waiting a e (a, g) st)) as Hk by (by left).
  clear Hnil Hevs0 Hrun0. revert st Hrun Hord Hreach Hdep Hk.
  induction Hevs as [|ev evs Hev _ IH]; intros st Hrun Hord Hreach Hdep Hk.
  - by simplify_eq/=.
  - simpl in Hrun. destruct (step ev st) as [st1|] eqn:Hstep; [|done]. simpl in Hrun.
    destruct (self_wait_step _ _ _ _ Hev Hord (well_formed_reachable _ Hreach)
                Hdep Hk Hstep) as [Hk1 Hne].
    destruct (IH st1 Hrun) as [Hk' Hinv];
      [by eapply orderly_step|by eapply reachable_step| |done|].
    { by eapply dependencies_kept. }
    split; [done|]. intros p [Hin|Hin]%Hinv%(Invoked_step _ _ _ _ _ Hstep); [done|].
    by destruct (Hne p).
Qed.

(** * A queue whose operation raised *)

(** The run loop of [a] has ended without the queue being marked
    suspended. *)
Lemma dead_step ev st st' a :
  plain ev → frames st a = [] → _suspended (queues st a) = false →
  step ev st = Some st' →
  frames st' a = [] ∧ _suspended (queues st' a) = false ∧
  (∀ p, ev ≠ DependenciesDone a p) ∧
  operations (queues st a) `prefix_of` operations (queues st' a).
Proof.
  intros Hplain Hnil Hs Hstep.
  assert (∀ p, frame_of a p st = None) as Hno.
  { intros p. unfold frame_of. by rewrite Hnil. }
  destruct ev as [x y m|x op|x|x|x|x p w|x p|x p|x p]; simpl in *; try done; simplify_eq.
  - rewrite frames_addDependency.
    destruct (queues_addDependency x y m st a) as [d ->]. done.
  - destruct (_suspended (queues st x)) eqn:Hsx.
    + assert (x ≠ a) as Hne by (intros ->; congruence).
      destruct (enqueue_suspended x op st Hsx) as (e & rest & ws & _ & _ & Ho & _ & _ & Hq).
      rewrite Ho, Hq, decide_False by done. done.
    + destruct (enqueue_running x op st Hsx) as (-> & _ & _ & Hq). rewrite Hq.
      destruct (decide (x = a)) as [->|Hne]; [|done]. simpl.
      repeat split; try done. by apply prefix_app_r.
  - destruct (subscribe_Some _ _ _ _ _ Hstep) as (e & ws & Hfo & _ & -> & _ & _ & Hfr).
    assert (x ≠ a) as Hne by (intros ->; by rewrite Hno in Hfo).
    rewrite Hfr, decide_False by done. done.
  - destruct (dependenciesDone_frames _ _ _ _ Hstep) as (e & Hfo & -> & _ & _ & Hfr).
    assert (x ≠ a) as Hne by (intros ->; by rewrite Hno in Hfo).
    rewrite Hfr, decide_False by done. repeat split; try done. by intros p' [= -> _].
  - destruct (settle_frames _ _ _ _ Hstep) as (e & o & Hfo & _ & -> & _ & _ & Hfr).
    assert (x ≠ a) as Hne by (intros ->; by rewrite Hno in Hfo).
    rewrite Hfr, decide_False by done. done.
  - assert (x ≠ a) as Hne.
    { intros ->. unfold continue in Hstep. by rewrite Hno in Hstep. }
    destruct (operations (queues st x)) as [|e' rest] eqn:Hops.
    + destruct (continue_nil _ _ _ _ Hstep Hops) as (Hfr & _ & _ & Hq).
      rewrite Hfr, Hq, !decide_False, Hnil by done. done.
    + destruct (continue_cons _ _ _ _ _ _ Hstep Hops) as (ws & _ & Hother & _ & _ & Hq).
      rewrite Hother, Hq, decide_False, Hnil by done. done.
Qed.

(** X11. When the operation of the dequeued entry raises as it is called,
    the run loop of its queue is gone for good: in a run without [clear],
    [suspend] and [resume] no further operation of the queue is ever
    called, entries enqueued later only pile up behind the pending
    ones, [isRunning] stays true, the semaphore that [all()] returns
    stays closed and [current()] never returns at once. *)
Theorem raise_stops_queue_for_good evs0 st a p e evs st' :
  Forall plain evs0 → run evs0 initial = Some st →
  frame_of a p st = Some (mkFrame e (AwaitingDependencies [])) →
  throws (operation e) →
  Forall plain evs → run (DependenciesDone a p :: evs) st = Some st' →
  frames st' a = [] ∧
  isRunning a st' = true ∧
  is_open (all a) st' = false ∧
  current a st' = Some (await_semaphore (a, Current)) ∧
  operations (queues st a) `prefix_of` operations (queues st' a) ∧
  ∀ p', Invoked a p' ∈ trace st' → Invoked a p' ∈ trace st ∨ p' = p.
Proof.
  intros Hevs0 Hrun0 Hfo Hthrows Hevs Hrun.
  destruct (plain_run_ascending _ _ Hevs0 Hrun0) as [Hord _].
  simpl in Hrun. destruct (dependenciesDone a p st) as [st1|] eqn:Hstep; [|done].
  simpl in Hrun.
  destruct (Hord a) as (Hlen & _ & _ & Hsusp).
  destruct (frame_of_le1 _ _ _ _ Hlen Hfo) as [Hfa Hh].
  destruct (dependenciesDone_frames _ _ _ _ Hstep) as (e' & Hfo' & Hq1 & _ & Htr1 & Hfr1).
  rewrite Hfo in Hfo'. simplify_eq.
  assert (frames st1 a = []) as Hnil.
  { rewrite Hfr1, !decide_True by done. by rewrite Hfa, (filter_not_holds _ _ Hh). }
  assert (_suspended (queues st1 a) = false) as Hs.
  { rewrite Hq1. destruct (_suspended (queues st a)); [|done].
    destruct (Hsusp eq_refl) as [Hn _]. by rewrite Hn in Hfa. }
  assert (orderly st1) as Hord1.
  { by apply (orderly_step (DependenciesDone a p) st). }
  assert (frames st' a = [] ∧ _suspended (queues st' a) = false ∧ orderly st' ∧
          operations (queues st1 a) `prefix_of` operations (queues st' a) ∧
          ∀ p', Invoked a p' ∈ trace st' → Invoked a p' ∈ trace st1)
    as (Hnil' & Hs' & Hord' & Hpre & Hinv).
  { clear Hstep Hq1 Htr1 Hfr1 Hfo Hfa Hlen Hsusp Hord Hrun0 Hevs0.
    revert st1 Hrun Hnil Hs Hord1.
    induction Hevs as [|ev evs Hev _ IH]; intros st1 Hrun Hnil Hs Hord1.
    - by simplify_eq/=.
    - simpl in Hrun. destruct (step ev st1) as [st2|] eqn:Hstep; [|done].
      simpl in Hrun.
      destruct (dead_step _ _ _ _ Hev Hnil Hs Hstep) as (Hnil2 & Hs2 & Hne & Hpre2).
      destruct (IH st2 Hrun Hnil2 Hs2) as (? & ? & ? & Hpre & Hinv);
        [by eapply orderly_step|].
      do 3 (split; [done|]). split; [by etrans|].
      intros p' [Hin|Hin]%Hinv%(Invoked_step _ _ _ _ _ Hstep); [done|].
      by destruct (Hne p'). }
  destruct (Hord' a) as (_ & Hcur & Hall & _).
  split; [done|]. unfold isRunning, is_open, all, current, await_semaphore. simpl.
  rewrite Hcur, Hall, Hs'. do 3 (split; [done|]).
  split; [by rewrite <- Hq1|].
  intros p' Hin%Hinv. rewrite Htr1 in Hin.
  apply elem_of_app in Hin as [Hin|Hin]; [by left|].
  apply list_elem_of_singleton in Hin. right. by simplify_eq.
Qed.

(** * What a dequeued entry waits for *)

Lemma pending_waits_release w0 f w :
  w ∈ pending_waits (release w0 f) → w ∈ pending_waits f.
Proof.
  unfold pending_waits, release. destruct (phase f) eqn:Hph; simpl; rewrite ?Hph;
    try by intros ?%elem_of_nil.
  intros (y & -> & [_ Hy]%list_elem_of_filter)%list_elem_of_fmap.
  by apply list_elem_of_fmap_2.
Qed.

Lemma pending_waits_reach w0 b f w :
  w ∈ pending_waits (reach w0 b f) → w ∈ pending_waits f.
Proof.
  unfold pending_waits, reach. destruct (phase f) eqn:Hph; simpl; rewrite ?Hph;
    try by intros ?%elem_of_nil.
  destruct b.
  - intros (y & -> & [_ Hy]%list_elem_of_filter)%list_elem_of_fmap.
    by apply list_elem_of_fmap_2.
  - intros (y & -> & (z & -> & Hz)%list_elem_of_fmap)%list_elem_of_fmap.
    case_decide; [subst z|]; simpl; by apply (list_elem_of_fmap_2 fst) in Hz.
Qed.

Lemma runNext_waits x st q f' w :
  f' ∈ frames (runNext x st) q → w ∈ pending_waits f' →
  (∃ f, f ∈ frames st q ∧ entry f = entry f' ∧ w ∈ pending_waits f) ∨
  (q = x ∧ ∃ mode, dependencies (queues st x) !! w.1 = Some mode ∧ w.2 = gate_of mode).
Proof.
  destruct (operations (queues st x)) as [|e rest] eqn:Hops.
  - rewrite runNext_nil by done. rewrite frames_suspend, frames_signal.
    intros (f & -> & Hf)%list_elem_of_fmap Hw%pending_waits_release.
    left. exists f. by rewrite release_entry.
  - destruct (runNext_cons _ _ _ _ Hops) as (ws & Hfr & Hother & _ & _ & _ & Hws).
    destruct (decide (q = x)) as [->|Hne].
    + rewrite Hfr. intros [Hf|Hf]%elem_of_app Hw; [left; by exists f'|].
      apply list_elem_of_singleton in Hf as ->. unfold pending_waits in Hw. simpl in Hw.
      apply list_elem_of_fmap in Hw as (y & -> & Hy).
      apply Hws in Hy as (d & mode & Hd & -> & _). right. split; [done|]. by exists mode.
    + rewrite Hother by done. intros Hf Hw. left. by exists f'.
Qed.

Lemma step_waits ev st st' q f' w :
  step ev st = Some st' → f' ∈ frames st' q → w ∈ pending_waits f' →
  (∃ f, f ∈ frames st q ∧ entry f = entry f' ∧ w ∈ pending_waits f) ∨
  (∃ mode, dependencies (queues st q) !! w.1 = Some mode ∧ w.2 = gate_of mode).
Proof.
  destruct ev as [x y m|x op|x|x|x|x p w'|x p|x p|x p]; simpl; intros Hstep; simplify_eq.
  - rewrite frames_addDependency. intros Hf Hw. left. by exists f'.
  - unfold enqueue, push, resume. case_match; [intros Hf Hw; left; by exists f'|].
    intros Hf Hw.
    destruct (runNext_waits _ _ _ _ _ Hf Hw) as [?|(-> & mode & Hd & Hg)]; [by left|].
    right. exists mode. split; [|done]. revert Hd.
    by rewrite !queues_set_queue, !decide_True.
  - rewrite frames_clear. intros Hf Hw. left. by exists f'.
  - rewrite frames_suspend. intros Hf Hw. left. by exists f'.
  - unfold resume. case_match; [intros Hf Hw; left; by exists f'|].
    intros Hf Hw.
    destruct (runNext_waits _ _ _ _ _ Hf Hw) as [?|(-> & mode & Hd & Hg)]; [by left|].
    right. exists mode. split; [|done]. revert Hd.
    by rewrite !queues_set_queue, !decide_True.
  - destruct (subscribe_Some _ _ _ _ _ Hstep) as (e0 & ws0 & _ & _ & _ & _ & _ & Hfr).
    rewrite Hfr. destruct (decide (x = q)) as [<-|Hq]; [|intros Hf Hw; left; by exists f'].
    intros (f & -> & Hf)%list_elem_of_fmap Hw. left. exists f.
    case_decide; [|done]. apply pending_waits_reach in Hw. by rewrite reach_entry.
  - destruct (dependenciesDone_frames _ _ _ _ Hstep) as (e0 & _ & _ & _ & _ & Hfr).
    rewrite Hfr. destruct (decide (x = q)) as [<-|Hq]; [|intros Hf Hw; left; by exists f'].
    case_decide.
    + intros [_ Hf]%list_elem_of_filter Hw. left. by exists f'.
    + intros (f & -> & Hf)%list_elem_of_fmap Hw. left. exists f.
      destruct (decide (holds p f)); [by apply elem_of_nil in Hw|done].
  - destruct (settle_frames _ _ _ _ Hstep) as (e0 & o & _ & _ & _ & _ & _ & Hfr).
    rewrite Hfr. destruct (decide (x = q)) as [<-|Hq]; [|intros Hf Hw; left; by exists f'].
    intros (f & -> & Hf)%list_elem_of_fmap Hw. left. exists f.
    destruct (decide (holds p f)); [by apply elem_of_nil in Hw|done].
  - unfold continue in Hstep.
    destruct (frame_of x p st) as [[e0 [| |]]|]; try done. injection Hstep as <-.
    intros Hf Hw.
    destruct (runNext_waits _ _ _ _ _ Hf Hw) as [(f1 & Hf1 & He1 & Hw1)|(-> & mode & Hd & Hg)].
    + left. rewrite frames_signal in Hf1.
      apply list_elem_of_fmap in Hf1 as (f & -> & Hf0). simpl in Hf0.
      rewrite release_entry in He1. apply pending_waits_release in Hw1.
      exists f. revert Hf0. rewrite fn_insert_at.
      destruct (decide (x = q)) as [<-|Hq]; [|done].
      by intros [_ ?]%list_elem_of_filter.
    + right. exists mode. split; [|done]. revert Hd.
      by rewrite queues_signal, decide_True, dependencies_set_semaphore.
Qed.

Lemma waits_registered st :
  reachable st →
  ∀ q f w, f ∈ frames st q → w ∈ pending_waits f →
           is_Some (dependencies (queues st q) !! w.1).
Proof.
  intros Hreach. pattern st. revert st Hreach. apply reachable_ind.
  - by intros q f w ?%elem_of_nil.
  - intros ev s s' Hreach IH Hstep q f' w Hf Hw.
    apply (dependencies_kept ev s s' q w.1 Hstep).
    destruct (step_waits _ _ _ _ _ _ Hstep Hf Hw) as [(f & Hf0 & _ & Hw0)|(mode & Hd & _)].
    + by eapply IH.
    + by eapply mk_is_Some.
Qed.

Lemma no_dependency_no_wait st q f :
  reachable st → dependencies (queues st q) = ∅ → f ∈ frames st q →
  pending_waits f = [].
Proof.
  intros Hreach Hdep Hf.
  destruct (pending_waits f) as [|w ws] eqn:Hw; [done|].
  destruct (waits_registered st Hreach q f w Hf) as [m Hm].
  - rewrite Hw. left.
  - by rewrite Hdep, lookup_empty in Hm.
Qed.

(** X12. In every reachable state a dequeued entry waits only for gates of
    queues that are registered as dependencies of its own queue. *)
Theorem waits_are_for_dependencies st q f w :
  reachable st → f ∈ frames st q → w ∈ pending_waits f →
  is_Some (dependencies (queues st q) !! w.1).
Proof. intros Hreach. by apply waits_registered. Qed.

(** X13. A queue without dependencies is never held up: each of its
    suspended [runNext] invocations has no wait left and can take its
    next transition. *)
Theorem no_dependency_never_blocked st q f :
  reachable st → dependencies (queues st q) = ∅ → f ∈ frames st q →
  past_wait f ∧ ∃ ev, acts_on q ev ∧ is_Some (step ev st).
Proof.
  intros Hreach Hdep Hf.
  pose proof (frame_of_unique _ _ _ (well_formed_reachable _ Hreach) Hf) as Hfo.
  pose proof (no_dependency_no_wait _ _ _ Hreach Hdep Hf) as Hnil.
  destruct f as [e ph]. unfold pending_waits, past_wait in *. simpl in *.
  destruct ph as [ws| |]; [apply fmap_nil_inv in Hnil|..]; simplify_eq.
  - split; [done|]. exists (DependenciesDone q (resolver e)). split; [done|]. simpl.
    unfold dependenciesDone. rewrite Hfo. by destruct (operation e).
  - split; [done|]. exists (Settle q (resolver e)). split; [done|]. simpl.
    pose proof (called_ok_reachable _ Hreach _ _ Hf (or_introl eq_refl)) as Hok.
    unfold settle. rewrite Hfo. unfold delivery. simpl in Hok.
    destruct (operation e); try done; by destruct Hok.
  - split; [done|]. exists (Continue q (resolver e)). split; [done|]. simpl.
    unfold continue. by rewrite Hfo.
Qed.

(** * [WaitAll] and [WaitCurrent] *)

Lemma wait_all_step ev st st' q e d :
  plain ev → orderly st → well_formed st → step ev st = Some st' →
  waiting q e (d, All) st →
  waiting q e (d, All) st' ∨ isRunning d st' = false.
Proof.
  intros Hplain Hord Hwf Hstep Hw.
  destruct ev as [x y m|x op|x|x|x|x p w|x p|x p|x p];
    try (left; eapply wait_persists;
         [exact Hwf|exact Hstep|exact Hw|simpl; tauto|simpl; tauto]);
    simpl in Hplain; try done.
  { (* the job that calls [then] *)
    destruct (decide (w = (d, All) ∧ is_open (d, All) st = true)) as [[-> Ho]|Hn].
    - right. simpl in Hstep.
      destruct (subscribe_Some _ _ _ _ _ Hstep) as (e0 & ws0 & _ & _ & Hq & _).
      destruct (Hord d) as (_ & _ & Hall & _).
      unfold isRunning. rewrite Hq. unfold is_open in Ho. simpl in Ho.
      by rewrite <- Hall, Ho.
    - left. eapply wait_persists; [exact Hwf|exact Hstep|exact Hw|simpl; tauto|].
      simpl. intros [-> Ho]. by apply Hn. }
  destruct (decide (x = d)) as [->|Hne];
    [|left; eapply wait_persists;
        [exact Hwf|exact Hstep|exact Hw|simpl; by intros ?|simpl; tauto]].
  simpl in Hstep.
  destruct (operations (queues st d)) as [|e' rest] eqn:Hops.
  - right. destruct (continue_nil _ _ _ _ Hstep Hops) as (_ & _ & _ & Hq).
    unfold isRunning. by rewrite Hq, decide_True.
  - left. destruct (continue_cons _ _ _ _ _ _ Hstep Hops) as (ws' & Hfr & Hother & _).
    destruct Hw as (s & ws & Hin & Hws).
    exists s, (filter (λ w', w' ≠ ((d, Current), Registered)) ws).
    split; [|by apply list_elem_of_filter].
    assert (mkFrame e (AwaitingDependencies
                         (filter (λ w', w' ≠ ((d, Current), Registered)) ws))
            = release (d, Current) (mkFrame e (AwaitingDependencies ws))) as -> by done.
    destruct (decide (q = d)) as [->|Hq].
    + rewrite Hfr. apply elem_of_app. left. apply list_elem_of_fmap_2.
      apply list_elem_of_filter. split; [|done].
      assert (∃ e0, frame_of d p st = Some (mkFrame e0 Delivered)) as [e0 Hfo].
      { unfold continue in Hstep. destruct (frame_of d p st) as [[e0 [| |]]|]; try done.
        by exists e0. }
      destruct (Hord d) as (Hlen & _).
      destruct (frame_of_le1 _ _ _ _ Hlen Hfo) as [Hf _]. rewrite Hf in Hin.
      by apply list_elem_of_singleton in Hin.
    + rewrite Hother by done. by apply list_elem_of_fmap_2.
Qed.

(** X14. A wait on the all gate of a dependency ends only when the
    dependency has drained.  In a run without [clear], [suspend] and
    [resume], if the dequeued entry [e] of [q] waits for the all gate of
    [d] and its operation is called later on, then at some moment in
    between [d] was not running, with nothing pending and nothing
    dequeued, whatever had been enqueued on [d] in the meantime. *)
Theorem WaitAll_waits_for_drain evs0 st q e d evs st' :
  Forall plain evs0 → run evs0 initial = Some st →
  waiting q e (d, All) st →
  Forall plain evs → run evs st = Some st' →
  Invoked q (resolver e) ∈ trace st' →
  ∃ evs1 evs2 st1,
    evs = evs1 ++ evs2 ∧ run evs1 st = Some st1 ∧
    isRunning d st1 = false ∧ frames st1 d = [] ∧ operations (queues st1 d) = [].
Proof.
  intros Hevs0 Hrun0 Hw Hevs Hrun Hinv.
  destruct (plain_run_ascending _ _ Hevs0 Hrun0) as [Hord _].
  assert (reachable st) as Hreach by (by exists evs0).
  clear Hevs0 Hrun0. revert st Hw Hrun Hord Hreach.
  induction Hevs as [|ev evs Hev _ IH]; intros st Hw Hrun Hord Hreach.
  - simplify_eq/=. by destruct (waiting_not_called _ _ _ _ Hreach Hw q).
  - simpl in Hrun. destruct (step ev st) as [st1|] eqn:Hstep; [|done]. simpl in Hrun.
    assert (orderly st1) as Hord1 by (by eapply orderly_step).
    destruct (wait_all_step _ _ _ _ _ _ Hev Hord (well_formed_reachable _ Hreach)
                Hstep Hw) as [Hw1|Hidle].
    + destruct (IH st1 Hw1 Hrun Hord1) as (evs1 & evs2 & st2 & -> & Hrun1 & Hdrained);
        [by eapply reachable_step|].
      exists (ev :: evs1), evs2, st2. split; [done|]. split; [|done].
      simpl. by rewrite Hstep.
    + exists [ev], evs, st1. split; [done|]. split; [simpl; by rewrite Hstep|].
      split; [done|]. destruct (Hord1 d) as (_ & _ & _ & Hs). apply Hs.
      unfold isRunning in Hidle. by destruct (_suspended (queues st1 d)).
Qed.


(** * A queue without dependencies runs to completion *)











(** * [suspend()] followed by [resume()] *)

(** X17. On a queue that is running, [suspend()] followed by [resume()]
    starts [runNext] once more, whether or not an invocation of
    [runNext] is still suspended: with an entry pending, that entry is
    dequeued next to the frames the queue already has; with nothing
    pending, the all gate is opened and the queue is marked as not
    running, while the frames the queue has stay (released from the all
    gate only). *)
Theorem suspend_resume_starts_runNext st q :
  isRunning q st = true →
  match operations (queues st q) with
  | [] =>
      (∀ d, frames (resume q (suspend q st)) d = release (q, All) <$> frames st d) ∧
      isRunning q (resume q (suspend q st)) = false ∧
      is_open (all q) (resume q (suspend q st)) = true ∧
      trace (resume q (suspend q st)) = trace st
  | e :: rest =>
      ∃ ws,
        frames (resume q (suspend q st)) q
          = frames st q ++ [mkFrame e (AwaitingDependencies ws)] ∧
        operations (queues (resume q (suspend q st)) q) = rest ∧
        isRunning q (resume q (suspend q st)) = true ∧
        trace (resume q (suspend q st)) = trace st
  end.
Proof.
  unfold isRunning. intros Hrun%negb_true_iff.
  assert (_suspended (queues (suspend q st) q) = true) as Hs
    by (by rewrite queues_suspend, decide_True).
  rewrite (resume_suspended _ _ Hs).
  set (st1 := set_queue q (set_suspended false (queues (suspend q st) q)) (suspend q st)).
  assert (queues st1 q = queues st q) as Hq1.
  { unfold st1. rewrite queues_set_queue, decide_True, queues_suspend, decide_True by done.
    destruct (queues st q); simpl in *. by subst. }
  assert (frames st1 = frames st) as Hf1 by (unfold st1; simpl; apply frames_suspend).
  assert (trace st1 = trace st) as Ht1.
  { unfold st1. simpl. by destruct (quiet_suspend q st) as (_ & -> & _). }
  destruct (operations (queues st q)) as [|e rest] eqn:Hops.
  - rewrite runNext_nil by (by rewrite Hq1).
    split; [|split; [|split]].
    + intros d. by rewrite frames_suspend, frames_signal, Hf1.
    + by rewrite queues_suspend, decide_True.
    + unfold is_open, all. simpl.
      by rewrite queues_suspend, decide_True, queues_signal, decide_True.
    + destruct (quiet_suspend q (signal q All st1)) as (_ & -> & _). exact Ht1.
  - destruct (runNext_cons q st1 e rest) as (ws & Hf & _ & Hq & _ & Ht & _);
      [by rewrite Hq1|].
    exists ws. rewrite Hf, Hq, Ht, Hf1, Hq1, decide_True by done. simpl.
    by rewrite Hrun.
Qed.

(** * The theorems above at the scenarios *)

Ltac all_plain :=
  repeat (apply Forall_cons; split; [exact I|]); apply Forall_nil_2.

Lemma plain_run_one_at_a_time_witness :
  Forall plain traffic ∧ run traffic initial = Some (after traffic) ∧
  length (frames (after traffic) 0) ≤ 1 ∧ length (in_flight 0 (after traffic)) ≤ 1.
Proof.
  assert (Forall plain traffic) as Hplain by (unfold traffic; all_plain).
  assert (run traffic initial = Some (after traffic)) as Hrun by (vm_compute; reflexivity).
  split; [exact Hplain|]. split; [exact Hrun|].
  exact (plain_run_one_at_a_time traffic (after traffic) 0 Hplain Hrun).
Defined.

Lemma plain_run_fifo_witness :
  Forall plain traffic ∧ run traffic initial = Some (after traffic) ∧
  ascending (invoked_ids 0 (trace (after traffic))) ∧
  ascending (invoked_ids 0 (trace (after traffic)) ++ waiting_ids 0 (after traffic)
             ++ pending_ids 0 (after traffic)).
Proof.
  assert (Forall plain traffic) as Hplain by (unfold traffic; all_plain).
  assert (run traffic initial = Some (after traffic)) as Hrun by (vm_compute; reflexivity).
  split; [exact Hplain|]. split; [exact Hrun|].
  exact (plain_run_fifo traffic (after traffic) 0 Hplain Hrun).
Defined.

Lemma plain_run_gates_witness :
  Forall plain traffic ∧ run traffic initial = Some (after traffic) ∧
  (is_open (all 1) (after traffic) = true ↔ isRunning 1 (after traffic) = false) ∧
  (is_open (1, Current) (after traffic) = true ↔ isRunning 1 (after traffic) = false) ∧
  (current 1 (after traffic) = None ↔ isRunning 1 (after traffic) = false) ∧
  (isRunning 1 (after traffic) = false →
     frames (after traffic) 1 = [] ∧ operations (queues (after traffic) 1) = []).
Proof.
  assert (Forall plain traffic) as Hplain by (unfold traffic; all_plain).
  assert (run traffic initial = Some (after traffic)) as Hrun by (vm_compute; reflexivity).
  split; [exact Hplain|]. split; [exact Hrun|].
  exact (plain_run_gates traffic (after traffic) 1 Hplain Hrun).
Defined.

Lemma called_once_settled_once_witness :
  reachable (after resume_while_running) ∧
  NoDup (calls (trace (after resume_while_running))) ∧
  NoDup (settlements (trace (after resume_while_running))) ∧
  ∀ l1 o l2, trace (after resume_while_running) = l1 ++ o :: l2 → is_outcome o →
             subject o ∈ calls l1.
Proof.
  assert (reachable (after resume_while_running)) as Hreach
    by (exists resume_while_running; vm_compute; reflexivity).
  split; [exact Hreach|].
  exact (called_once_settled_once (after resume_while_running) Hreach).
Defined.

Lemma outcome_of_enqueued_operation_witness :
  run traffic initial = Some (after traffic) ∧
  nextPromise (after traffic) = length (enqueued traffic) ∧
  (∀ q p, Invoked q p ∈ trace (after traffic) →
          ∃ op, enqueued traffic !! p = Some (q, op)) ∧
  (∀ p v, Resolved p v ∈ trace (after traffic) →
     ∃ q, enqueued traffic !! p = Some (q, Returns v) ∨
          enqueued traffic !! p = Some (q, Fulfils v)) ∧
  (∀ p err, Rejected p err ∈ trace (after traffic) →
     ∃ q, enqueued traffic !! p = Some (q, Rejects err)).
Proof.
  assert (run traffic initial = Some (after traffic)) as Hrun by (vm_compute; reflexivity).
  split; [exact Hrun|].
  exact (outcome_of_enqueued_operation traffic (after traffic) Hrun).
Defined.

Lemma dependency_never_removed_witness :
  run used_and_cleared registered_once
    = Some (after_from registered_once used_and_cleared) ∧
  is_Some (dependencies (queues registered_once 0) !! 1) ∧
  is_Some (dependencies (queues (after_from registered_once used_and_cleared) 0) !! 1).
Proof.
  assert (run used_and_cleared registered_once
            = Some (after_from registered_once used_and_cleared)) as Hrun
    by (vm_compute; reflexivity).
  assert (is_Some (dependencies (queues registered_once 0) !! 1)) as Hdep
    by (exists WaitAll; vm_compute; reflexivity).
  split; [exact Hrun|]. split; [exact Hdep|].
  exact (dependency_never_removed used_and_cleared registered_once _ 0 1 Hrun Hdep).
Defined.

Lemma overwrite_keeps_reverse_Interleave_witness :
  0 ≠ 1 ∧ WaitAll ≠ Interleave ∧
  dependencies
    (queues (addDependency 0 1 WaitAll (addDependency 0 1 Interleave initial)) 0) !! 1
    = Some WaitAll ∧
  dependencies
    (queues (addDependency 0 1 WaitAll (addDependency 0 1 Interleave initial)) 1) !! 0
    = Some Interleave.
Proof.
  assert (0 ≠ 1) as Hne by lia.
  assert (WaitAll ≠ Interleave) as Hm by discriminate.
  split; [exact Hne|]. split; [exact Hm|].
  exact (overwrite_keeps_reverse_Interleave 0 1 WaitAll initial Hne Hm).
Defined.

Lemma mutual_wait_is_permanent_witness :
  Forall plain mutual_WaitAll ∧
  run mutual_WaitAll initial = Some (after mutual_WaitAll) ∧
  waiting 0 (mkEntry (Fulfils "a1") 0) (1, All) (after mutual_WaitAll) ∧
  waiting 1 (mkEntry (Fulfils "b1") 1) (0, All) (after mutual_WaitAll) ∧
  Forall plain more_work ∧
  run more_work (after mutual_WaitAll)
    = Some (after_from (after mutual_WaitAll) more_work) ∧
  (∀ q, Invoked q 0 ∉ trace (after_from (after mutual_WaitAll) more_work)) ∧
  (∀ q, Invoked q 1 ∉ trace (after_from (after mutual_WaitAll) more_work)).
Proof.
  assert (Forall plain mutual_WaitAll) as Hplain by (unfold mutual_WaitAll; all_plain).
  assert (run mutual_WaitAll initial = Some (after mutual_WaitAll)) as Hrun
    by (vm_compute; reflexivity).
  assert (waiting 0 (mkEntry (Fulfils "a1") 0) (1, All) (after mutual_WaitAll)) as Ha.
  { exists Registered, [((1, All), Registered)]. split; [|left].
    assert (frames (after mutual_WaitAll) 0
              = [mkFrame (mkEntry (Fulfils "a1") 0)
                         (AwaitingDependencies [((1, All), Registered)])])
      as -> by (vm_compute; reflexivity).
    left. }
  assert (waiting 1 (mkEntry (Fulfils "b1") 1) (0, All) (after mutual_WaitAll)) as Hb.
  { exists Registered, [((0, All), Registered)]. split; [|left].
    assert (frames (after mutual_WaitAll) 1
              = [mkFrame (mkEntry (Fulfils "b1") 1)
                         (AwaitingDependencies [((0, All), Registered)])])
      as -> by (vm_compute; reflexivity).
    left. }
  assert (Forall plain more_work) as Hmore by (unfold more_work; all_plain).
  assert (run more_work (after mutual_WaitAll)
            = Some (after_from (after mutual_WaitAll) more_work)) as Hrun'
    by (vm_compute; reflexivity).
  destruct (mutual_wait_is_permanent _ _ _ _ _ _ _ _ _ _ Hplain Hrun Ha Hb Hmore Hrun')
    as (_ & _ & H1 & H2).
  split; [exact Hplain|]. split; [exact Hrun|]. split; [exact Ha|]. split; [exact Hb|].
  split; [exact Hmore|]. split; [exact Hrun'|]. split; [exact H1|exact H2].
Defined.

Lemma self_dependency_blocks_witness :
  Forall plain self_dependency ∧
  run self_dependency initial = Some (after self_dependency) ∧
  is_Some (dependencies (queues (after self_dependency) 0) !! 0) ∧
  frames (after self_dependency) 0 = [] ∧
  Forall plain self_use ∧
  run self_use (after self_dependency)
    = Some (after_from (after self_dependency) self_use) ∧
  ∀ p, Invoked 0 p ∈ trace (after_from (after self_dependency) self_use) →
       Invoked 0 p ∈ trace (after self_dependency).
Proof.
  assert (Forall plain self_dependency) as Hplain by (unfold self_dependency; all_plain).
  assert (run self_dependency initial = Some (after self_dependency)) as Hrun
    by (vm_compute; reflexivity).
  assert (is_Some (dependencies (queues (after self_dependency) 0) !! 0)) as Hdep
    by (exists WaitCurrent; vm_compute; reflexivity).
  assert (frames (after self_dependency) 0 = []) as Hfr by (vm_compute; reflexivity).
  assert (Forall plain self_use) as Huse by (unfold self_use; all_plain).
  assert (run self_use (after self_dependency)
            = Some (after_from (after self_dependency) self_use)) as Hrun'
    by (vm_compute; reflexivity).
  destruct (self_dependency_blocks _ _ 0 _ _ Hplain Hrun Hdep Hfr Huse Hrun') as [_ H].
  split; [exact Hplain|]. split; [exact Hrun|]. split; [exact Hdep|]. split; [exact Hfr|].
  split; [exact Huse|]. split; [exact Hrun'|]. exact H.
Defined.

Lemma raise_stops_queue_for_good_witness :
  Forall plain raise_pending ∧
  run raise_pending initial = Some (after raise_pending) ∧
  frame_of 0 0 (after raise_pending)
    = Some (mkFrame (mkEntry (Throws "boom") 0) (AwaitingDependencies [])) ∧
  throws (Throws "boom") ∧
  Forall plain [Enqueue 0 (Returns "later")] ∧
  run raise_then_enqueue (after raise_pending)
    = Some (after_from (after raise_pending) raise_then_enqueue) ∧
  frames (after_from (after raise_pending) raise_then_enqueue) 0 = [] ∧
  isRunning 0 (after_from (after raise_pending) raise_then_enqueue) = true ∧
  is_open (all 0) (after_from (after raise_pending) raise_then_enqueue) = false ∧
  ∀ p', Invoked 0 p' ∈ trace (after_from (after raise_pending) raise_then_enqueue) →
        Invoked 0 p' ∈ trace (after raise_pending) ∨ p' = 0.
Proof.
  assert (Forall plain raise_pending) as Hplain by (unfold raise_pending; all_plain).
  assert (run raise_pending initial = Some (after raise_pending)) as Hrun
    by (vm_compute; reflexivity).
  assert (frame_of 0 0 (after raise_pending)
            = Some (mkFrame (mkEntry (Throws "boom") 0) (AwaitingDependencies []))) as Hfo
    by (vm_compute; reflexivity).
  assert (throws (Throws "boom")) as Hthrows by exact I.
  assert (Forall plain [Enqueue 0 (Returns "later")]) as Hlater by all_plain.
  assert (run raise_then_enqueue (after raise_pending)
            = Some (after_from (after raise_pending) raise_then_enqueue)) as Hrun'
    by (vm_compute; reflexivity).
  destruct (raise_stops_queue_for_good _ _ 0 0 _ _ _ Hplain Hrun Hfo Hthrows Hlater Hrun')
    as (H1 & H2 & H3 & _ & _ & H4).
  split; [exact Hplain|]. split; [exact Hrun|]. split; [exact Hfo|].
  split; [exact Hthrows|]. split; [exact Hlater|]. split; [exact Hrun'|].
  split; [exact H1|]. split; [exact H2|]. split; [exact H3|exact H4].
Defined.

Lemma waits_are_for_dependencies_witness :
  reachable (after mutual_WaitAll) ∧
  mkFrame (mkEntry (Fulfils "a1") 0) (AwaitingDependencies [((1, All), Registered)])
    ∈ frames (after mutual_WaitAll) 0 ∧
  is_Some (dependencies (queues (after mutual_WaitAll) 0) !! 1).
Proof.
  assert (reachable (after mutual_WaitAll)) as Hreach
    by (exists mutual_WaitAll; vm_compute; reflexivity).
  assert (mkFrame (mkEntry (Fulfils "a1") 0)
                  (AwaitingDependencies [((1, All), Registered)])
            ∈ frames (after mutual_WaitAll) 0) as Hin.
  { assert (frames (after mutual_WaitAll) 0
              = [mkFrame (mkEntry (Fulfils "a1") 0)
                         (AwaitingDependencies [((1, All), Registered)])])
      as -> by (vm_compute; reflexivity).
    left. }
  split; [exact Hreach|]. split; [exact Hin|].
  apply (waits_are_for_dependencies _ 0 _ (1, All) Hreach Hin). left.
Defined.

Lemma no_dependency_never_blocked_witness :
  reachable (after two_entries) ∧
  dependencies (queues (after two_entries) 0) = ∅ ∧
  mkFrame (mkEntry (Fulfils "a") 0) AwaitingRun ∈ frames (after two_entries) 0 ∧
  ∃ ev, acts_on 0 ev ∧ is_Some (step ev (after two_entries)).
Proof.
  assert (reachable (after two_entries)) as Hreach
    by (exists two_entries; vm_compute; reflexivity).
  assert (dependencies (queues (after two_entries) 0) = ∅) as Hdep
    by (vm_compute; reflexivity).
  assert (mkFrame (mkEntry (Fulfils "a") 0) AwaitingRun ∈ frames (after two_entries) 0)
    as Hin.
  { assert (frames (after two_entries) 0 = [mkFrame (mkEntry (Fulfils "a") 0) AwaitingRun])
      as -> by (vm_compute; reflexivity).
    left. }
  split; [exact Hreach|]. split; [exact Hdep|]. split; [exact Hin|].
  exact (proj2 (no_dependency_never_blocked _ 0 _ Hreach Hdep Hin)).
Defined.

Lemma WaitAll_waits_for_drain_witness :
  Forall plain behind_WaitAll ∧
  run behind_WaitAll initial = Some (after behind_WaitAll) ∧
  waiting 1 (mkEntry (Fulfils "b") 1) (0, All) (after behind_WaitAll) ∧
  Forall plain drain_then_call ∧
  run drain_then_call (after behind_WaitAll)
    = Some (after_from (after behind_WaitAll) drain_then_call) ∧
  Invoked 1 1 ∈ trace (after_from (after behind_WaitAll) drain_then_call) ∧
  ∃ evs1 evs2 st1,
    drain_then_call = evs1 ++ evs2 ∧ run evs1 (after behind_WaitAll) = Some st1 ∧
    isRunning 0 st1 = false ∧ frames st1 0 = [] ∧ operations (queues st1 0) = [].
Proof.
  assert (Forall plain behind_WaitAll) as Hplain by (unfold behind_WaitAll; all_plain).
  assert (run behind_WaitAll initial = Some (after behind_WaitAll)) as Hrun
    by (vm_compute; reflexivity).
  assert (waiting 1 (mkEntry (Fulfils "b") 1) (0, All) (after behind_WaitAll)) as Hw.
  { exists Registered, [((0, All), Registered)]. split; [|left].
    assert (frames (after behind_WaitAll) 1
              = [mkFrame (mkEntry (Fulfils "b") 1)
                         (AwaitingDependencies [((0, All), Registered)])])
      as -> by (vm_compute; reflexivity).
    left. }
  assert (Forall plain drain_then_call) as Hdrain by (unfold drain_then_call; all_plain).
  assert (run drain_then_call (after behind_WaitAll)
            = Some (after_from (after behind_WaitAll) drain_then_call)) as Hrun'
    by (vm_compute; reflexivity).
  assert (Invoked 1 1 ∈ trace (after_from (after behind_WaitAll) drain_then_call)) as Hinv.
  { assert (trace (after_from (after behind_WaitAll) drain_then_call)
              = [Invoked 0 0; Resolved 0 "a"; Invoked 1 1]) as ->
      by (vm_compute; reflexivity).
    right. right. left. }
  split; [exact Hplain|]. split; [exact Hrun|]. split; [exact Hw|].
  split; [exact Hdrain|]. split; [exact Hrun'|]. split; [exact Hinv|].
  exact (WaitAll_waits_for_drain _ _ 1 (mkEntry (Fulfils "b") 1) 0 _ _
           Hplain Hrun Hw Hdrain Hrun' Hinv).
Defined.



Lemma suspend_resume_starts_runNext_witness :
  isRunning 0 (after two_entries) = true ∧
  ∃ ws,
    frames (resume 0 (suspend 0 (after two_entries))) 0
      = frames (after two_entries) 0
        ++ [mkFrame (mkEntry (Rejects "b") 1) (AwaitingDependencies ws)] ∧
    operations (queues (resume 0 (suspend 0 (after two_entries))) 0) = [] ∧
    isRunning 0 (resume 0 (suspend 0 (after two_entries))) = true ∧
    trace (resume 0 (suspend 0 (after two_entries))) = trace (after two_entries).
Proof.
  assert (isRunning 0 (after two_entries) = true) as Hrun by (vm_compute; reflexivity).
  split; [exact Hrun|].
  pose proof (suspend_resume_starts_runNext (after two_entries) 0 Hrun) as H.
  assert (operations (queues (after two_entries) 0) = [mkEntry (Rejects "b") 1]) as Hops
    by (vm_compute; reflexivity).
  rewrite Hops in H. exact H.
Defined.
